(** * fastimage: header sniffer and concurrent HTTP probing engine

    A shallow embedding of [fastimage.go] (package fastimage) and the
    properties of its natural-language specification.

    Conventions of the embedding.
    - A Go [int] is 64 bits wide.  Every index computed by the sniffer is
      bounded by the length of the slice plus a 32-bit quantity, so for any
      slice that fits in memory no [int] operation wraps; indices are
      modelled in [Z].  [uint32] arithmetic that can wrap is written with
      an explicit reduction modulo [2^32], byte arithmetic modulo [2^8].
    - A run-time panic (index or slice bound out of range) is the outcome
      [Panic].  Loops are unrolled with fuel; an exhausted fuel is the
      outcome [Timeout], and [GetInfo_terminates] shows it never arises.
    - A slice is a window on a backing array: the bytes below [len] are
      visible to indexing, the bytes between [len] and [cap] only to
      re-slicing, exactly as in Go. *)

From Stdlib Require Import ZArith List Bool Lia Permutation.
From Stdlib.Strings Require Import Byte String Ascii.
From stdpp Require Import base list gmap strings.

Local Open Scope Z_scope.

(** ** Outcomes: normal return, panic, fuel exhaustion *)

Inductive outcome (A : Type) : Type :=
| Ret (a : A)
| Panic
| Timeout.
Arguments Ret {A} a.
Arguments Panic {A}.
Arguments Timeout {A}.

Definition bind {A B} (m : outcome A) (k : A -> outcome B) : outcome B :=
  match m with
  | Ret a => k a
  | Panic => Panic
  | Timeout => Timeout
  end.

Notation "'let*' x ':=' m 'in' k" := (bind m (fun x => k))
  (at level 10, x name, m at level 100, k at level 200).
Notation "'let*' ' pat ':=' m 'in' k" :=
  (bind m (fun x => match x with pat => k end))
  (at level 10, pat pattern, m at level 100, k at level 200).

(** Short-circuit conjunction and disjunction of Go's [&&] and [||]: the
    right operand is evaluated only when the left one does not decide. *)
Definition andM (a b : outcome bool) : outcome bool :=
  let* x := a in if x then b else Ret false.
Definition orM (a b : outcome bool) : outcome bool :=
  let* x := a in if x then Ret true else b.
Infix "&&&" := andM (at level 40, left associativity).
Infix "|||" := orM (at level 50, left associativity).

(** A [for] loop: the body either continues with a new state or leaves the
    loop (by [break] or [return]) with a result. *)
Inductive step (S R : Type) : Type :=
| Next (s : S)
| Done (r : R).
Arguments Next {S R} s.
Arguments Done {S R} r.

Fixpoint loop {S R} (fuel : nat) (body : S -> outcome (step S R)) (s : S)
  : outcome R :=
  match fuel with
  | O => Timeout
  | Datatypes.S fuel' =>
      match body s with
      | Ret (Next s') => loop fuel' body s'
      | Ret (Done r) => Ret r
      | Panic => Panic
      | Timeout => Timeout
      end
  end.

(** ** Bytes, machine integers, slices *)

Definition u8 (x : byte) : Z := Z.of_N (Byte.to_N x).
Definition uint32 (x : Z) : Z := x mod 2 ^ 32.
Definition uint8 (x : Z) : Z := x mod 2 ^ 8.

Definition byte_of_Z (z : Z) : byte :=
  match Byte.of_N (Z.to_N z) with
  | Some b => b
  | None => x00
  end.

Record slice : Type := Slice {
  vis : list byte;     (* elements 0 .. len-1 *)
  spare : list byte    (* elements len .. cap-1 of the backing array *)
}.

Definition len (b : slice) : Z := Z.of_nat (length (vis b)).
Definition cap (b : slice) : Z := Z.of_nat (length (vis b) + length (spare b)).

(** [[]byte] with no spare capacity. *)
Definition bytes (l : list byte) : slice := Slice l [].

(** [b[i]]: panics unless [0 <= i < len(b)]. *)
Definition index (b : slice) (i : Z) : outcome byte :=
  if (0 <=? i) && (i <? len b) then
    match nth_error (vis b) (Z.to_nat i) with
    | Some x => Ret x
    | None => Panic
    end
  else Panic.

(** [b[i:j]]: panics unless [0 <= i <= j <= cap(b)]. *)
Definition reslice (b : slice) (i j : Z) : outcome slice :=
  if (0 <=? i) && (i <=? j) && (j <=? cap b) then
    let arr := (vis b ++ spare b)%list in
    Ret (Slice (firstn (Z.to_nat (j - i)) (skipn (Z.to_nat i) arr))
               (skipn (Z.to_nat j) arr))
  else Panic.

(** [b[i]] widened to an integer type. *)
Definition get (b : slice) (i : Z) : outcome Z :=
  let* x := index b i in Ret (u8 x).

(** [b[i] == c] *)
Definition at_is (b : slice) (i : Z) (c : byte) : outcome bool :=
  let* x := index b i in Ret (Byte.eqb x c).

(** ** Image types and [Info] *)

Inductive ImageType : Type :=
| Unknown | BMP | BPM | GIF | JPEG | MNG | PBM | PCX | PGM | PNG | PPM
| PSD | RAS | RGB | TIFF | WEBP | XBM | XPM | XV | AVIF.

Definition ImageType_eqb (a b : ImageType) : bool :=
  match a, b with
  | Unknown, Unknown | BMP, BMP | BPM, BPM | GIF, GIF | JPEG, JPEG
  | MNG, MNG | PBM, PBM | PCX, PCX | PGM, PGM | PNG, PNG | PPM, PPM
  | PSD, PSD | RAS, RAS | RGB, RGB | TIFF, TIFF | WEBP, WEBP | XBM, XBM
  | XPM, XPM | XV, XV | AVIF, AVIF => true
  | _, _ => false
  end.

(** [func (t Type) String() string] *)
Definition Type_String (t : ImageType) : string :=
  match t with
  | BMP => "bmp" | BPM => "bpm" | GIF => "gif" | JPEG => "jpeg"
  | MNG => "mng" | PBM => "pbm" | PCX => "pcx" | PGM => "pgm"
  | PNG => "png" | PPM => "ppm" | PSD => "psd" | RAS => "ras"
  | RGB => "rgb" | TIFF => "tiff" | WEBP => "webp" | XBM => "xbm"
  | XPM => "xpm" | XV => "xv" | AVIF => "avif"
  | Unknown => ""
  end%string.

(** [func (t Type) Mime() string] *)
Definition Mime (t : ImageType) : string :=
  match t with
  | BMP => "image/bmp"
  | BPM => "image/x-portable-pixmap"
  | GIF => "image/gif"
  | JPEG => "image/jpeg"
  | MNG => "video/x-mng"
  | PBM => "image/x-portable-bitmap"
  | PCX => "image/x-pcx"
  | PGM => "image/x-portable-graymap"
  | PNG => "image/png"
  | PPM => "image/x-portable-pixmap"
  | PSD => "image/vnd.adobe.photoshop"
  | RAS => "image/x-cmu-raster"
  | RGB => "image/x-rgb"
  | TIFF => "image/tiff"
  | WEBP => "image/webp"
  | XBM => "image/x-xbitmap"
  | XPM => "image/x-xpixmap"
  | XV => "image/x-portable-pixmap"
  | AVIF => "image/avif"
  | Unknown => ""
  end%string.

Record Info : Type := mkInfo {
  Type_ : ImageType;
  Width : Z;      (* uint32 *)
  Height : Z      (* uint32 *)
}.

(** The zero value of [Info]. *)
Definition Info0 : Info := mkInfo Unknown 0 0.

Definition setType (t : ImageType) (info : Info) : Info :=
  mkInfo t (Width info) (Height info).
Definition setWidth (w : Z) (info : Info) : Info :=
  mkInfo (Type_ info) w (Height info).
Definition setHeight (h : Z) (info : Info) : Info :=
  mkInfo (Type_ info) (Width info) h.

(** The closing test shared by most parsers:
    [if info.Width != 0 && info.Height != 0 { info.Type = t }]. *)
Definition typeIfSized (t : ImageType) (info : Info) : Info :=
  if negb (Width info =? 0) && negb (Height info =? 0)
  then setType t info else info.

(** ** Byte orders *)

Class byteOrder : Type := {
  Uint16 : slice -> outcome Z;
  Uint32 : slice -> outcome Z
}.

#[export] Instance littleEndian : byteOrder := {|
  Uint16 b :=
    let* _ := index b 1 in
    let* b0 := get b 0 in let* b1 := get b 1 in
    Ret (Z.lor b0 (Z.shiftl b1 8));
  Uint32 b :=
    let* _ := index b 3 in
    let* b0 := get b 0 in let* b1 := get b 1 in
    let* b2 := get b 2 in let* b3 := get b 3 in
    Ret (Z.lor (Z.lor (Z.lor b0 (Z.shiftl b1 8)) (Z.shiftl b2 16))
               (Z.shiftl b3 24))
|}.

#[export] Instance bigEndian : byteOrder := {|
  Uint16 b :=
    let* _ := index b 1 in
    let* b1 := get b 1 in let* b0 := get b 0 in
    Ret (Z.lor b1 (Z.shiftl b0 8));
  Uint32 b :=
    let* _ := index b 3 in
    let* b3 := get b 3 in let* b2 := get b 2 in
    let* b1 := get b 1 in let* b0 := get b 0 in
    Ret (Z.lor (Z.lor (Z.lor b3 (Z.shiftl b2 8)) (Z.shiftl b1 16))
               (Z.shiftl b0 24))
|}.

Definition readUint64 (b : slice) : outcome Z :=
  let* _ := index b 7 in
  let* b0 := get b 0 in let* b1 := get b 1 in
    let* b2 := get b 2 in let* b3 := get b 3 in
  let* b4 := get b 4 in let* b5 := get b 5 in
  let* b6 := get b 6 in let* b7 := get b 7 in
  Ret (Z.lor (Z.lor (Z.lor (Z.lor (Z.lor (Z.lor (Z.lor
        (Z.shiftl b0 56) (Z.shiftl b1 48)) (Z.shiftl b2 40))
        (Z.shiftl b3 32)) (Z.shiftl b4 24)) (Z.shiftl b5 16))
        (Z.shiftl b6 8)) b7).

(** ** Scanning helpers *)

Definition isSpace (c : byte) : bool :=
  Byte.eqb c " " || Byte.eqb c x09 || Byte.eqb c x0d || Byte.eqb c x0a.

(** Fuel that covers one pass over the visible bytes. *)
Definition scanFuel (b : slice) : nat := Datatypes.S (length (vis b)).

Definition skipSpace (b : slice) (i : Z) : outcome Z :=
  let* _ := index b (len b - 1) in
  loop (scanFuel b)
    (fun j =>
       if j <? len b then
         let* c := index b j in
         if negb (isSpace c) then Ret (Done j) else Ret (Next (j + 1))
       else Ret (Done j))
    i.

Definition readNonSpace (b : slice) (i : Z) : outcome (slice * Z) :=
  let* _ := index b (len b - 1) in
  let* j := loop (scanFuel b)
    (fun j =>
       if j <? len b then
         let* c := index b j in
         if isSpace c then Ret (Done j) else Ret (Next (j + 1))
       else Ret (Done j))
    i in
  let* p := reslice b i j in
  Ret (p, j).

Definition readLine (b : slice) (i : Z) : outcome (slice * Z) :=
  let* _ := index b (len b - 1) in
  let* j := loop (scanFuel b)
    (fun j =>
       if j <? len b then
         let* c := index b j in
         if Byte.eqb c x0a then Ret (Done j) else Ret (Next (j + 1))
       else Ret (Done j))
    i in
  let j := j + 1 in
  let* p := reslice b i j in
  Ret (p, j).

(** State of the loop: the accumulated number and the position. *)
Definition parseUint32 (b : slice) (i : Z) : outcome (Z * Z) :=
  let* _ := index b (len b - 1) in
  loop (scanFuel b)
    (fun '(n, j) =>
       if j <? len b then
         let* c := get b j in
         let x := uint32 (uint8 (c - 48)) in
         if 9 <? x then Ret (Done (n, j))
         else Ret (Next (uint32 (n * 10 + x), j + 1))
       else Ret (Done (n, j)))
    (0, i).

(** ** Signature tests *)

Definition hasJPEG (b : slice) : outcome bool :=
  Ret (2 <=? len b) &&& at_is b 0 xff &&& at_is b 1 xd8.

Definition hasPNG (b : slice) : outcome bool :=
  Ret (8 <=? len b) &&& at_is b 0 x89 &&& at_is b 1 "P" &&& at_is b 2 "N"
  &&& at_is b 3 "G" &&& at_is b 4 x0d &&& at_is b 5 x0a &&& at_is b 6 x1a
  &&& at_is b 7 x0a.

Definition hasWEBP (b : slice) : outcome bool :=
  Ret (12 <=? len b) &&& at_is b 0 "R" &&& at_is b 1 "I" &&& at_is b 2 "F"
  &&& at_is b 3 "F" &&& at_is b 8 "W" &&& at_is b 9 "E" &&& at_is b 10 "B"
  &&& at_is b 11 "P".

Definition hasGIF (b : slice) : outcome bool :=
  Ret (6 <=? len b) &&& at_is b 0 "G" &&& at_is b 1 "I" &&& at_is b 2 "F"
  &&& at_is b 3 "8"
  &&& (at_is b 4 "7" ||| at_is b 4 "," ||| at_is b 4 "9")
  &&& at_is b 5 "a".

Definition hasBMP (b : slice) : outcome bool :=
  Ret (2 <=? len b) &&& at_is b 0 "B" &&& at_is b 1 "M".

Definition hasPPM (b : slice) : outcome bool :=
  let* guard := Ret (len b <? 2) ||| (let* x := at_is b 0 "P" in Ret (negb x)) in
  if guard then Ret false
  else
    let* c := get b 1 in
    Ret ((49 <=? c) && (c <=? 55)).   (* '1' .. '7' *)

Definition hasXBM (b : slice) : outcome bool :=
  Ret (8 <=? len b) &&& at_is b 0 "#" &&& at_is b 1 "d" &&& at_is b 2 "e"
  &&& at_is b 3 "f" &&& at_is b 4 "i" &&& at_is b 5 "n" &&& at_is b 6 "e"
  &&& (at_is b 7 " " ||| at_is b 7 x09).

Definition hasXPM (b : slice) : outcome bool :=
  Ret (9 <=? len b) &&& at_is b 0 "/" &&& at_is b 1 "*" &&& at_is b 2 " "
  &&& at_is b 3 "X" &&& at_is b 4 "P" &&& at_is b 5 "M" &&& at_is b 6 " "
  &&& at_is b 7 "*" &&& at_is b 8 "/".

Definition hasTIFFBig (b : slice) : outcome bool :=
  Ret (4 <=? len b) &&& at_is b 0 "M" &&& at_is b 1 "M" &&& at_is b 2 x00
  &&& at_is b 3 x2a.

Definition hasTIFFLittle (b : slice) : outcome bool :=
  Ret (4 <=? len b) &&& at_is b 0 "I" &&& at_is b 1 "I" &&& at_is b 2 x2a
  &&& at_is b 3 x00.

Definition hasPSD (b : slice) : outcome bool :=
  Ret (4 <=? len b) &&& at_is b 0 "8" &&& at_is b 1 "B" &&& at_is b 2 "P"
  &&& at_is b 3 "S".

Definition hasMNG (b : slice) : outcome bool :=
  Ret (8 <=? len b) &&& at_is b 0 x8a &&& at_is b 1 "M" &&& at_is b 2 "N"
  &&& at_is b 3 "G" &&& at_is b 4 x0d &&& at_is b 5 x0a &&& at_is b 6 x1a
  &&& at_is b 7 x0a.

Definition hasRGB (b : slice) : outcome bool :=
  Ret (6 <=? len b) &&& at_is b 0 x01 &&& at_is b 1 xda &&& at_is b 2 "["
  &&& at_is b 3 x01 &&& at_is b 4 x00 &&& at_is b 5 "]".

Definition hasRAS (b : slice) : outcome bool :=
  Ret (4 <=? len b) &&& at_is b 0 x59 &&& at_is b 1 xa6 &&& at_is b 2 x6a
  &&& at_is b 3 x95.

Definition hasPCX (b : slice) : outcome bool :=
  Ret (3 <=? len b) &&& at_is b 0 x0a &&& at_is b 2 x01.

Definition isAVIFBrand (b : slice) : outcome bool :=
  Ret (4 <=? len b) &&& at_is b 0 "a" &&& at_is b 1 "v" &&& at_is b 2 "i"
  &&& (at_is b 3 "f" ||| at_is b 3 "s").

Definition ftypHasAVIF (b : slice) (header : Z) : outcome bool :=
  if len b <? header + 8 then Ret false
  else
    let* major := reslice b header (header + 4) in
    let* m := isAVIFBrand major in
    if m then Ret true
    else
      loop (scanFuel b)
        (fun i =>
           if i + 4 <=? len b then
             let* brand := reslice b i (i + 4) in
             let* c := isAVIFBrand brand in
             if c then Ret (Done true) else Ret (Next (i + 4))
           else Ret (Done false))
        (header + 8).

Definition hasAVIFFtyp (b : slice) : outcome bool :=
  loop (scanFuel b)
    (fun i =>
       if i + 8 <=? len b then
         let* s4 := reslice b i (i + 4) in
         let* size32 := Uint32 (byteOrder := bigEndian) s4 in
         (* the [switch size32]: [None] is an early [return false] *)
         let* sh :=
           if size32 =? 1 then
             if len b <? i + 16 then Ret None
             else
               let* s8 := reslice b (i + 8) (i + 16) in
               let* size64 := readUint64 s8 in
               if (size64 <? 16) || (len b - i <? size64) then Ret None
               else Ret (Some (size64, 16))
           else if size32 =? 0 then Ret (Some (len b - i, 8))
           else Ret (Some (size32, 8)) in
         match sh with
         | None => Ret (Done false)
         | Some (size, header) =>
             if size <? header then Ret (Done false)
             else if len b <? i + size then Ret (Done false)
             else
               let* f := at_is b (i + 4) "f" &&& at_is b (i + 5) "t"
                         &&& at_is b (i + 6) "y" &&& at_is b (i + 7) "p" in
               if f then
                 let* box := reslice b i (i + size) in
                 let* r := ftypHasAVIF box header in
                 Ret (Done r)
               else Ret (Next (i + size))
         end
       else Ret (Done false))
    0.

(** ** Per-format parsers

    Each parser receives the [Info] it mutates through its pointer and
    returns the updated value. *)

Definition jpeg (b : slice) (info : Info) : outcome Info :=
  loop (scanFuel b)
    (fun i =>
       let* l3 := get b (i + 3) in
       let* l2 := get b (i + 2) in
       let length := Z.lor l3 (Z.shiftl l2 8) in
       let* code := get b (i + 1) in
       let* marker := get b i in
       let i := i + 4 in
       if negb (marker =? 255) then Ret (Done info)
       else if (192 <=? code) && (code <=? 195) then
         let info := setType JPEG info in
         let* w4 := get b (i + 4) in
         let* w3 := get b (i + 3) in
         let info := setWidth (Z.lor w4 (Z.shiftl w3 8)) info in
         let* h2 := get b (i + 2) in
         let* h1 := get b (i + 1) in
         let info := setHeight (Z.lor h2 (Z.shiftl h1 8)) info in
         Ret (Done info)
       else Ret (Next (i + (length - 2))))
    2.

Definition webp (b : slice) (info : Info) : outcome Info :=
  if len b <? 30 then Ret info
  else
    let* _ := index b 29 in
    let* vp8 := at_is b 12 "V" &&& at_is b 13 "P" &&& at_is b 14 "8" in
    if negb vp8 then Ret info
    else
      let* c := index b 15 in
      let* info :=
        if Byte.eqb c " " then
          let* b27 := get b 27 in let* b26 := get b 26 in
          let info := setWidth (Z.lor (Z.shiftl (Z.land b27 63) 8) b26) info in
          let* b29 := get b 29 in let* b28 := get b 28 in
          Ret (setHeight (Z.lor (Z.shiftl (Z.land b29 63) 8) b28) info)
        else if Byte.eqb c "L" then
          let* b22 := get b 22 in let* b21 := get b 21 in
          let info :=
            setWidth (Z.land (Z.lor (Z.shiftl b22 8) b21) 16383 + 1) info in
          let* b23 := get b 23 in let* b22' := get b 22 in
          Ret (setHeight
                 (Z.land (Z.lor (Z.shiftl b23 2) (Z.shiftr b22' 6)) 16383 + 1)
                 info)
        else if Byte.eqb c "X" then
          let* b24 := get b 24 in let* b25 := get b 25 in
          let* b26 := get b 26 in
          let info :=
            setWidth (Z.lor (Z.lor b24 (Z.shiftl b25 8)) (Z.shiftl b26 16) + 1)
                     info in
          let* b27 := get b 27 in let* b28 := get b 28 in
          let* b29 := get b 29 in
          Ret (setHeight
                 (Z.lor (Z.lor b27 (Z.shiftl b28 8)) (Z.shiftl b29 16) + 1)
                 info)
        else Ret info in
      Ret (typeIfSized WEBP info).

Definition avifDimensions (b : slice) : outcome (Z * Z) :=
  loop (scanFuel b)
    (fun i =>
       if i + 16 <=? len b then
         let* miss :=
           (let* x := at_is b i "i" in Ret (negb x))
           ||| (let* x := at_is b (i + 1) "s" in Ret (negb x))
           ||| (let* x := at_is b (i + 2) "p" in Ret (negb x))
           ||| (let* x := at_is b (i + 3) "e" in Ret (negb x)) in
         if miss then Ret (Next (i + 1))
         else
           let* s4 := reslice b (i - 4) i in
           let* size := Uint32 (byteOrder := bigEndian) s4 in
           if size <? 20 then Ret (Next (i + 1))
           else if len b <? i - 4 + size then Ret (Next (i + 1))
           else
             let* ws := reslice b (i + 8) (i + 12) in
             let* width := Uint32 (byteOrder := bigEndian) ws in
             let* hs := reslice b (i + 12) (i + 16) in
             let* height := Uint32 (byteOrder := bigEndian) hs in
             if negb (width =? 0) && negb (height =? 0)
             then Ret (Done (width, height))
             else Ret (Next (i + 1))
       else Ret (Done (0, 0)))
    4.

Definition avif (b : slice) (info : Info) : outcome Info :=
  let* '(w, h) := avifDimensions b in
  Ret (typeIfSized AVIF (setHeight h (setWidth w info))).

(** Four bytes [b[k0]<<24 | b[k1]<<16 | b[k2]<<8 | b[k3]], read in that
    order. *)
Definition word4 (b : slice) (k0 k1 k2 k3 : Z) : outcome Z :=
  let* x0 := get b k0 in let* x1 := get b k1 in
  let* x2 := get b k2 in let* x3 := get b k3 in
  Ret (Z.lor (Z.lor (Z.lor (Z.shiftl x0 24) (Z.shiftl x1 16)) (Z.shiftl x2 8))
             x3).

(** Two bytes [b[k0]<<8 | b[k1]], read in that order. *)
Definition word2 (b : slice) (k0 k1 : Z) : outcome Z :=
  let* x0 := get b k0 in let* x1 := get b k1 in
  Ret (Z.lor (Z.shiftl x0 8) x1).

Definition png (b : slice) (info : Info) : outcome Info :=
  if len b <? 24 then Ret info
  else
    let* _ := index b 23 in
    let* ihdr := at_is b 12 "I" &&& at_is b 13 "H" &&& at_is b 14 "D"
                 &&& at_is b 15 "R" in
    let* info :=
      if ihdr then
        let* w := word4 b 16 17 18 19 in
        let* h := word4 b 20 21 22 23 in
        Ret (setHeight h (setWidth w info))
      else Ret info in
    Ret (typeIfSized PNG info).

Definition gif (b : slice) (info : Info) : outcome Info :=
  if len b <? 12 then Ret info
  else
    let* _ := index b 11 in
    let* w := word2 b 7 6 in
    let* h := word2 b 9 8 in
    Ret (typeIfSized GIF (setHeight h (setWidth w info))).

Definition bmp (b : slice) (info : Info) : outcome Info :=
  if len b <? 26 then Ret info
  else
    let* _ := index b 25 in
    let* w := word4 b 21 20 19 18 in
    let* h := word4 b 25 24 23 22 in
    Ret (typeIfSized BMP (setHeight h (setWidth w info))).

Definition ppm (b : slice) (info : Info) : outcome Info :=
  let* c := index b 1 in
  let info :=
    if Byte.eqb c "1" then setType PBM info
    else if Byte.eqb c "2" || Byte.eqb c "5" then setType PGM info
    else if Byte.eqb c "3" || Byte.eqb c "6" then setType PPM info
    else if Byte.eqb c "4" then setType BPM info
    else if Byte.eqb c "7" then setType XV info
    else info in
  let* i := skipSpace b 2 in
  let* '(w, i) := parseUint32 b i in
  let info := setWidth w info in
  let* i := skipSpace b i in
  let* '(h, _) := parseUint32 b i in
  let info := setHeight h info in
  if (Width info =? 0) || (Height info =? 0)
  then Ret (setType Unknown info) else Ret info.

Definition xbm (b : slice) (info : Info) : outcome Info :=
  let i := 0 in
  let* '(_, i) := readNonSpace b i in
  let* i := skipSpace b i in
  let* '(_, i) := readNonSpace b i in
  let* i := skipSpace b i in
  let* '(w, i) := parseUint32 b i in
  let info := setWidth w info in
  let* i := skipSpace b i in
  let* '(p, i) := readNonSpace b i in
  let* define :=
    Ret (len p =? 7) &&& at_is p 6 "e" &&& at_is p 0 "#" &&& at_is p 1 "d"
    &&& at_is p 2 "e" &&& at_is p 3 "f" &&& at_is p 4 "i" &&& at_is p 5 "n" in
  if negb define then Ret info
  else
    let* i := skipSpace b i in
    let* '(_, i) := readNonSpace b i in
    let* i := skipSpace b i in
    let* '(h, _) := parseUint32 b i in
    Ret (typeIfSized XBM (setHeight h info)).

(** Fuel for a walk that advances by at least one element of the backing
    array per round. *)
Definition capFuel (b : slice) : nat :=
  Datatypes.S (length (vis b) + length (spare b)).

Definition xpm (b : slice) (info : Info) : outcome Info :=
  let* info :=
    loop (capFuel b)
      (fun i =>
         let* '(line, i) := readLine b i in
         if len line =? 0 then Ret (Done info)
         else
           let* j := skipSpace line 0 in
           let* q := index line j in
           if negb (Byte.eqb q x22) then Ret (Next i)
           else
             let* '(w, j) := parseUint32 line (j + 1) in
             let info := setWidth w info in
             let* j := skipSpace line j in
             let* '(h, _) := parseUint32 line j in
             Ret (Done (setHeight h info)))
      0 in
  Ret (typeIfSized XPM info).

Definition tiff (b : slice) (info : Info) (order : byteOrder) : outcome Info :=
  let* s := reslice b 4 8 in
  let* i := Uint32 s in
  let* s := reslice b (i + 2) (i + 4) in
  let* n := Uint16 s in
  let i := i + 2 in
  loop (Datatypes.S (Z.to_nat n))
    (fun '(i, info) =>
       if i <? n * 12 then
         let* s := reslice b i (i + 2) in
         let* tag := Uint16 s in
         let* s := reslice b (i + 2) (i + 4) in
         let* datatype := Uint16 s in
         let* value :=
           if (datatype =? 1) || (datatype =? 6) then
             let* v := get b (i + 9) in Ret (Some v)
           else if (datatype =? 3) || (datatype =? 8) then
             let* s := reslice b (i + 8) (i + 10) in
             let* v := Uint16 s in Ret (Some v)
           else if (datatype =? 4) || (datatype =? 9) then
             let* s := reslice b (i + 8) (i + 12) in
             let* v := Uint32 s in Ret (Some v)
           else Ret None in
         match value with
         | None => Ret (Done info)
         | Some value =>
             let info :=
               if tag =? 256 then setWidth value info
               else if tag =? 257 then setHeight value info
               else info in
             if (0 <? Width info) && (0 <? Height info)
             then Ret (Done (setType TIFF info))
             else Ret (Next (i + 12, info))
         end
       else Ret (Done info))
    (i, info).

Definition psd (b : slice) (info : Info) : outcome Info :=
  if len b <? 22 then Ret info
  else
    let* _ := index b 21 in
    let* w := word4 b 18 19 20 21 in
    let* h := word4 b 14 15 16 17 in
    Ret (typeIfSized PSD (setHeight h (setWidth w info))).

Definition mng (b : slice) (info : Info) : outcome Info :=
  if len b <? 24 then Ret info
  else
    let* _ := index b 23 in
    let* mhdr := at_is b 12 "M" &&& at_is b 13 "H" &&& at_is b 14 "D"
                 &&& at_is b 15 "R" in
    if negb mhdr then Ret info
    else
      let* w := word4 b 16 17 18 19 in
      let* h := word4 b 20 21 22 23 in
      Ret (typeIfSized MNG (setHeight h (setWidth w info))).

Definition rgb (b : slice) (info : Info) : outcome Info :=
  if len b <? 10 then Ret info
  else
    let* _ := index b 9 in
    let* w := word2 b 6 7 in
    let* h := word2 b 8 9 in
    Ret (typeIfSized RGB (setHeight h (setWidth w info))).

Definition ras (b : slice) (info : Info) : outcome Info :=
  if len b <? 12 then Ret info
  else
    let* _ := index b 11 in
    let* w := word4 b 4 5 6 7 in
    let* h := word4 b 8 9 10 11 in
    Ret (typeIfSized RAS (setHeight h (setWidth w info))).

Definition pcx (b : slice) (info : Info) : outcome Info :=
  if len b <? 12 then Ret info
  else
    let* _ := index b 11 in
    let* xmax := word2 b 9 8 in
    let* xmin := word2 b 5 4 in
    let info := setWidth (uint32 (1 + xmax - xmin)) info in
    let* ymax := word2 b 11 10 in
    let* ymin := word2 b 7 6 in
    let info := setHeight (uint32 (1 + ymax - ymin)) info in
    Ret (typeIfSized PCX info).

(** ** [GetType] and [GetInfo] *)

(** A tagless [switch]: the first case whose guard holds is taken. *)
Fixpoint switch {A} (cases : list (outcome bool * outcome A))
  (default : outcome A) : outcome A :=
  match cases with
  | [] => default
  | (guard, body) :: rest =>
      let* g := guard in
      if g then body else switch rest default
  end.

Definition minOffset : Z := 80.

Definition GetType (p : slice) : outcome ImageType :=
  if len p <? minOffset then Ret Unknown
  else
    let* _ := index p (minOffset - 1) in
    switch
      [ (hasJPEG p, Ret JPEG); (hasPNG p, Ret PNG); (hasWEBP p, Ret WEBP);
        (hasGIF p, Ret GIF); (hasBMP p, Ret BMP); (hasPPM p, Ret PPM);
        (hasXBM p, Ret XBM); (hasXPM p, Ret XPM); (hasTIFFBig p, Ret TIFF);
        (hasTIFFLittle p, Ret TIFF); (hasPSD p, Ret PSD); (hasMNG p, Ret MNG);
        (hasRGB p, Ret RGB); (hasRAS p, Ret RAS); (hasPCX p, Ret PCX);
        (hasAVIFFtyp p, Ret AVIF) ]
      (Ret Unknown).

Definition GetInfo (p : slice) : outcome Info :=
  let info := Info0 in
  if len p <? minOffset then Ret info
  else
    let* _ := index p (minOffset - 1) in
    switch
      [ (hasJPEG p, jpeg p info); (hasPNG p, png p info);
        (hasWEBP p, webp p info); (hasGIF p, gif p info);
        (hasBMP p, bmp p info); (hasPPM p, ppm p info);
        (hasXBM p, xbm p info); (hasXPM p, xpm p info);
        (hasTIFFBig p, tiff p info bigEndian);
        (hasTIFFLittle p, tiff p info littleEndian);
        (hasPSD p, psd p info); (hasMNG p, mng p info);
        (hasRGB p, rgb p info); (hasRAS p, ras p info);
        (hasPCX p, pcx p info); (hasAVIFFtyp p, avif p info) ]
      (Ret info).

(** * The HTTP probing engine *)

Local Open Scope string_scope.
Local Open Scope Z_scope.

(** ** Errors ([errors.go] and the errors of the Go library) *)

Inductive error : Type :=
| ContextError (msg : string)
    (* [ctx.Err()]: context.Canceled or context.DeadlineExceeded *)
| URLError (Op URL Err : string)                       (* [*url.Error] *)
| TransportError (msg : string)
    (* errors of http.NewRequestWithContext, client.Do and io.ReadAll *)
| HTTPStatusError (URL : string) (StatusCode : Z) (Status : string)
| RetryAfterError (URL : string) (StatusCode : Z) (Status : string)
                  (RetryAfter : Z)
| InsufficientBytesError (URL : string) (Got Min : Z).

(** The URL, status code and status text an error value carries, if any. *)
Definition statusFields (e : error) : option (string * Z * string) :=
  match e with
  | HTTPStatusError u c s => Some (u, c, s)
  | RetryAfterError u c s _ => Some (u, c, s)
  | _ => None
  end.

(** ** What the engine takes from the Go standard library *)

(** The fields of [url.URL] the engine reads. *)
Record url_URL : Type := mkURL { Scheme : string; Host : string }.

Record GoLib : Type := {
  url_Parse : string -> url_URL + error;
  url_Port : url_URL -> string;                (* [u.Port()] *)
  url_Hostname : url_URL -> string;            (* [u.Hostname()] *)
  strings_TrimSpace : string -> string;
  strconv_Atoi : string -> option Z;
  http_ParseTime : string -> option Z;      (* an instant, in ns *)
  time_Until : Z -> Z -> Z
    (* [time.Until(t)] when the clock reads the second argument *)
}.

(** ** Options *)

Definition CONCURRENT_REQUESTS_FOR_REUSABLE_CONNECTIONS_DEFAULT : Z := 20.
Definition CONCURRENT_REQUESTS_FOR_NON_REUSABLE_CONNECTIONS_DEFAULT : Z := 5.
Definition MAX_CONCURRENT_CONNECTIONS_GLOBAL_DEFAULT : Z := 50.

Record GetHTTPImageOptions : Type := mkOptions {
  ConcurrentRequestsReusable : Z;
  ConcurrentRequestsNonReusable : Z;
  MaxConcurrentConnections : Z
}.

Definition normalizeHTTPImageOptions (options : GetHTTPImageOptions)
  : GetHTTPImageOptions :=
  let options :=
    if ConcurrentRequestsReusable options <? 1 then
      mkOptions CONCURRENT_REQUESTS_FOR_REUSABLE_CONNECTIONS_DEFAULT
                (ConcurrentRequestsNonReusable options)
                (MaxConcurrentConnections options)
    else options in
  let options :=
    if ConcurrentRequestsNonReusable options <? 1 then
      mkOptions (ConcurrentRequestsReusable options)
                CONCURRENT_REQUESTS_FOR_NON_REUSABLE_CONNECTIONS_DEFAULT
                (MaxConcurrentConnections options)
    else options in
  let options :=
    if MaxConcurrentConnections options <? 1 then
      mkOptions (ConcurrentRequestsReusable options)
                (ConcurrentRequestsNonReusable options)
                MAX_CONCURRENT_CONNECTIONS_GLOBAL_DEFAULT
    else options in
  let options :=
    if ConcurrentRequestsReusable options
       <? ConcurrentRequestsNonReusable options then
      mkOptions (ConcurrentRequestsNonReusable options)
                (ConcurrentRequestsNonReusable options)
                (MaxConcurrentConnections options)
    else options in
  options.

(** ** Channels used as counting semaphores, and the origin limiter *)

(** A buffered [chan struct{}]: its capacity and the number of elements
    it currently holds. *)
Record chan : Type := mkChan { chanCap : Z; chanLen : Z }.

Definition make_chan (capacity : Z) : chan := mkChan capacity 0.

Record originLimiter : Type := mkLimiter {
  base : chan;
  extra : option chan;          (* [nil] when there is no extra tier *)
  rangeSupported : bool         (* [atomic.Bool] *)
}.

Definition newOriginLimiter (nonReusableLimit reusableLimit : Z)
  : originLimiter :=
  let nonReusableLimit :=
    if nonReusableLimit <? 1 then 1 else nonReusableLimit in
  let reusableLimit :=
    if reusableLimit <? nonReusableLimit then nonReusableLimit
    else reusableLimit in
  let extra := reusableLimit - nonReusableLimit in
  let extraChan := if 0 <? extra then Some (make_chan extra) else None in
  mkLimiter (make_chan nonReusableLimit) extraChan false.

(** ** Atomic actions of a task on the state it shares with other tasks

    A task is a sequence of atomic actions; any interleaving of the tasks'
    sequences is a run of the batch.  [exec] gives each action its effect
    on the shared gates, and is undefined where the action cannot fire
    (a send on a full channel blocks). *)

Inductive gate : Type := Global | Base | Extra.

Definition gate_eqb (g g' : gate) : bool :=
  match g, g' with
  | Global, Global | Base, Base | Extra, Extra => true
  | _, _ => false
  end.

Inductive action : Type :=
| Send (g : gate)                        (* [limiter <- struct{}{}] *)
| Recv (g : gate)                        (* [<-limiter] *)
| LoadRangeSupported (seen : bool)       (* [l.rangeSupported.Load()] *)
| StoreRangeSupported                    (* [l.rangeSupported.Store(true)] *)
| Request (rawURL : string) (minBytes : Z)
    (* GET rawURL with [Range: bytes=0-(minBytes-1)] handed to client.Do *)
| Sleep (d : Z) (interrupted : bool).    (* [sleepWithContext(ctx, d)] *)

Record gates : Type := mkGates {
  globalLimiter : chan;
  limiter : originLimiter
}.

Definition send (c : chan) : option chan :=
  if chanLen c <? chanCap c then Some (mkChan (chanCap c) (chanLen c + 1))
  else None.

Definition recv (c : chan) : option chan :=
  if 0 <? chanLen c then Some (mkChan (chanCap c) (chanLen c - 1))
  else None.

Definition exec (s : gates) (a : action) : option gates :=
  let l := limiter s in
  match a with
  | Send Global =>
      c ← send (globalLimiter s); Some (mkGates c l)
  | Recv Global =>
      c ← recv (globalLimiter s); Some (mkGates c l)
  | Send Base =>
      c ← send (base l);
      Some (mkGates (globalLimiter s) (mkLimiter c (extra l) (rangeSupported l)))
  | Recv Base =>
      c ← recv (base l);
      Some (mkGates (globalLimiter s) (mkLimiter c (extra l) (rangeSupported l)))
  | Send Extra =>
      e ← extra l; c ← send e;
      Some (mkGates (globalLimiter s)
                    (mkLimiter (base l) (Some c) (rangeSupported l)))
  | Recv Extra =>
      e ← extra l; c ← recv e;
      Some (mkGates (globalLimiter s)
                    (mkLimiter (base l) (Some c) (rangeSupported l)))
  | LoadRangeSupported seen =>
      if Bool.eqb (rangeSupported l) seen then Some s else None
  | StoreRangeSupported =>
      Some (mkGates (globalLimiter s) (mkLimiter (base l) (extra l) true))
  | Request _ _ => Some s
  | Sleep _ _ => Some s
  end.

Fixpoint execs (s : gates) (t : list action) : option gates :=
  match t with
  | [] => Some s
  | a :: t' => s' ← exec s a; execs s' t'
  end.

(** Number of slots of gate [g] a task holds after performing [t]. *)
Fixpoint held (g : gate) (t : list action) : Z :=
  match t with
  | [] => 0
  | Send g' :: t' => (if gate_eqb g g' then 1 else 0) + held g t'
  | Recv g' :: t' => (if gate_eqb g g' then -1 else 0) + held g t'
  | _ :: t' => held g t'
  end.

(** ** Tasks: computations that may panic and that log their actions *)

Definition task (A : Type) : Type := outcome (A * list action).

Definition tret {A} (a : A) : task A := Ret (a, []).

Definition tbind {A B} (m : task A) (k : A -> task B) : task B :=
  let* '(a, t) := m in
  let* '(b, t') := k a in
  Ret (b, (t ++ t')%list).

Definition emit (a : action) : task unit := Ret (tt, [a]).

Definition lift {A} (m : outcome A) : task A := let* a := m in Ret (a, []).

Notation "'let!' x ':=' m 'in' k" := (tbind m (fun x => k))
  (at level 10, x name, m at level 100, k at level 200).
Notation "'let!' ' pat ':=' m 'in' k" :=
  (tbind m (fun x => match x with pat => k end))
  (at level 10, pat pattern, m at level 100, k at level 200).

(** ** The world a task runs in

    Everything a task cannot decide by itself is read from its world: which
    case of a [select] fires, the value an atomic load returns, and what the
    HTTP layer answers to each request. *)

(** [io.ReadAll(io.LimitReader(resp.Body, n))]: the body the server streams
    and the contents of the spare capacity of the buffer returned, or a
    read error. *)
Inductive bodyRead : Type :=
| ReadFails (err : error)
| ReadAll (stream : list byte) (slack : list byte).

Inductive exchange : Type :=
| NewRequestFails (err : error)      (* http.NewRequestWithContext *)
| DoFails (err : error)              (* client.Do *)
| Response (StatusCode : Z) (Status : string) (RetryAfterHeader : string)
           (now : Z) (body : bodyRead).

(** The three-way [select] of [originLimiter.acquire]. *)
Inductive select3 : Type :=
| SelBase
| SelExtra
| SelDone (err : error).

Record taskWorld : Type := {
  w_global : option error;
    (* [acquire(ctx, globalLimiter)]: [None] when the send fires,
       [Some (ctx.Err())] when [ctx.Done()] fires first *)
  w_seen : bool;                 (* what [rangeSupported.Load()] returns *)
  w_origin3 : select3;           (* the select over base, extra and ctx *)
  w_origin2 : option error;      (* the select over base and ctx *)
  w_sleep : option error;        (* [sleepWithContext]: ctx fires first? *)
  w_http : nat -> nat -> exchange
    (* attempt of the retry policy, position in [sizes] *)
}.

(** ** The fetch pipeline of one URL *)

Section Engine.

Context (lib : GoLib).

Definition int64 (x : Z) : Z := (x + 2 ^ 63) mod 2 ^ 64 - 2 ^ 63.

Definition Second : Z := 1000000000.

Definition parseRetryAfter (value : string) (now : Z) : Z * bool :=
  let value := strings_TrimSpace lib value in
  if String.eqb value "" then (0, false)
  else
    match strconv_Atoi lib value with
    | Some seconds =>
        if seconds <=? 0 then (0, false)
        else (int64 (seconds * Second), true)
    | None =>
        match http_ParseTime lib value with
        | Some retryAt =>
            let wait := time_Until lib retryAt now in
            if wait <=? 0 then (0, false) else (wait, true)
        | None => (0, false)
        end
    end.

Definition enableReusable : task unit := emit StoreRangeSupported.

(** The result tuple of [fetchImageInfoOnce]:
    info, retryAfter, error, needMore, readBytes. *)
Definition once : Type := Info * Z * option error * bool * Z.

Definition fetchImageInfoOnce (x : exchange) (rawURL : string) (minBytes : Z)
  : task once :=
  let info := Info0 in
  match x with
  | NewRequestFails err => tret (info, 0, Some err, false, 0)
  | DoFails err =>
      let! _ := emit (Request rawURL minBytes) in
      tret (info, 0, Some err, false, 0)
  | Response StatusCode Status header now body =>
      let! _ := emit (Request rawURL minBytes) in
      let limited :=
        if (StatusCode =? 429) || (StatusCode =? 503) then
          match parseRetryAfter header now with
          | (retryAfter, true) => Some retryAfter
          | (_, false) => None
          end
        else None in
      match limited with
      | Some retryAfter =>
          tret (info, retryAfter,
                Some (RetryAfterError rawURL StatusCode Status retryAfter),
                false, 0)
      | None =>
          let! _ := if StatusCode =? 206 then enableReusable else tret tt in
          if negb (StatusCode =? 200) && negb (StatusCode =? 206) then
            tret (info, 0, Some (HTTPStatusError rawURL StatusCode Status),
                  false, 0)
          else
            match body with
            | ReadFails err => tret (info, 0, Some err, false, 0)
            | ReadAll stream slack =>
                let data := Slice (firstn (Z.to_nat minBytes) stream) slack in
                let readBytes := len data in
                if readBytes <? 80 then
                  tret (info, 0, Some (InsufficientBytesError "" readBytes 80),
                        false, readBytes)
                else
                  let! info := lift (GetInfo data) in
                  if ImageType_eqb (Type_ info) Unknown
                     || (Width info =? 0) || (Height info =? 0)
                  then tret (info, 0, None, true, readBytes)
                  else tret (info, 0, None, false, readBytes)
            end
      end
  end.

(** The [for _, size := range sizes] loop; [k] is the position of the
    head of [sizes] in the original list. *)
Fixpoint progressiveFrom (X : nat -> exchange) (rawURL : string)
  (sizes : list Z) (k : nat) (info : Info) (lastErr : option error)
  (lastRead : Z) : task (Info * Z * option error) :=
  match sizes with
  | [] =>
      let lastErr :=
        match lastErr with
        | None => Some (InsufficientBytesError "" lastRead 80)
        | Some e => Some e
        end in
      tret (info, 0, lastErr)
  | size :: rest =>
      if size <? 80 then
        progressiveFrom X rawURL rest (S k) info lastErr lastRead
      else
        let! '(info, retryAfter, lastErr, needMore, readBytes) :=
          fetchImageInfoOnce (X k) rawURL size in
        let lastRead := if 0 <? readBytes then readBytes else lastRead in
        if 0 <? retryAfter then tret (info, retryAfter, lastErr)
        else
          match lastErr with
          | Some e => tret (info, 0, Some e)
          | None =>
              if negb needMore then tret (info, 0, None)
              else progressiveFrom X rawURL rest (S k) info lastErr lastRead
          end
  end.

Definition fetchImageInfoProgressive (X : nat -> exchange) (rawURL : string)
  (sizes : list Z) : task (Info * Z * option error) :=
  progressiveFrom X rawURL sizes 0 Info0 None 0.

Definition sleepWithContext (w : taskWorld) (d : Z) : task (option error) :=
  match w_sleep w with
  | None => let! _ := emit (Sleep d false) in tret None
  | Some err => let! _ := emit (Sleep d true) in tret (Some err)
  end.

(** The [for attempt := 0; attempt < 2; attempt++] loop; [rounds] counts
    the iterations left, [2 - attempt]. *)
Fixpoint retryFrom (w : taskWorld) (rawURL : string) (sizes : list Z)
  (rounds : nat) (attempt : nat) (info : Info) (lastErr : option error)
  : task (Info * option error) :=
  match rounds with
  | O => tret (info, lastErr)
  | S rounds' =>
      let! '(info, retryAfter, lastErr) :=
        fetchImageInfoProgressive (w_http w attempt) rawURL sizes in
      match lastErr with
      | None => tret (info, None)
      | Some _ =>
          if (retryAfter <=? 0) || Nat.eqb attempt 1 then tret (info, lastErr)
          else
            let! err := sleepWithContext w retryAfter in
            match err with
            | Some err => tret (info, Some err)
            | None =>
                retryFrom w rawURL sizes rounds' (S attempt) info lastErr
            end
      end
  end.

Definition fetchImageInfoWithRetry (w : taskWorld) (rawURL : string)
  (sizes : list Z) : task (Info * option error) :=
  retryFrom w rawURL sizes 2 0 Info0 None.

(** [acquire(ctx, limiter)] on the global limiter. *)
Definition acquire (w : taskWorld) : task (option error) :=
  match w_global w with
  | None => let! _ := emit (Send Global) in tret None
  | Some err => tret (Some err)
  end.

Definition release : task unit := emit (Recv Global).

(** [l.acquire(ctx)]: the tier whose slot was taken (the closure returned
    receives from that tier), or the error of the context. *)
Definition originLimiter_acquire (w : taskWorld) (l : originLimiter)
  : task (gate + error) :=
  let! _ := emit (LoadRangeSupported (w_seen w)) in
  if w_seen w && (if extra l is Some _ then true else false) then
    match w_origin3 w with
    | SelBase => let! _ := emit (Send Base) in tret (inl Base)
    | SelExtra => let! _ := emit (Send Extra) in tret (inl Extra)
    | SelDone err => tret (inr err)
    end
  else
    match w_origin2 w with
    | None => let! _ := emit (Send Base) in tret (inl Base)
    | Some err => tret (inr err)
    end.

(** A nil [*originLimiter] makes the method call panic. *)
Definition fetchImageInfo (w : taskWorld) (rawURL : string)
  (l : option originLimiter) (sizes : list Z) : task (Info * option error) :=
  let info := Info0 in
  let! err := acquire w in
  match err with
  | Some err => tret (info, Some err)
  | None =>
      match l with
      | None => Panic
      | Some l =>
          let! r := originLimiter_acquire w l in
          match r with
          | inr err =>
              let! _ := release in
              tret (info, Some err)
          | inl tier =>
              let! result := fetchImageInfoWithRetry w rawURL sizes in
              (* deferred calls, last registered first *)
              let! _ := release in
              let! _ := emit (Recv tier) in
              tret result
          end
      end
  end.

End Engine.

(** ** The batch orchestrator *)

Record HTTPImageInfo : Type := mkHTTPImageInfo {
  URL : string;
  info : Info
}.

Record GetHTTPImageResult : Type := mkResult {
  httpImageInfo : HTTPImageInfo;      (* the embedded [HTTPImageInfo] *)
  Error : option error
}.

(** The zero value [make] fills the result slice with. *)
Definition Result0 : GetHTTPImageResult :=
  mkResult (mkHTTPImageInfo "" Info0) None.

Definition setURL (u : string) (r : GetHTTPImageResult) : GetHTTPImageResult :=
  mkResult (mkHTTPImageInfo u (info (httpImageInfo r))) (Error r).
Definition setError (e : option error) (r : GetHTTPImageResult)
  : GetHTTPImageResult :=
  mkResult (httpImageInfo r) e.
Definition setHTTPImageInfo (h : HTTPImageInfo) (r : GetHTTPImageResult)
  : GetHTTPImageResult :=
  mkResult h (Error r).

(** [results[i] = f(results[i])]; an index out of range panics. *)
Definition slotUpdate (i : nat) (f : GetHTTPImageResult -> GetHTTPImageResult)
  (results : list GetHTTPImageResult) : outcome (list GetHTTPImageResult) :=
  match results !! i with
  | Some r => Ret (<[i := f r]> results)
  | None => Panic
  end.

Record item : Type := mkItem { index_ : nat; rawURL_ : string }.

Record originWorker : Type := mkWorker {
  client : Z;                          (* [MaxConnsPerHost] of its transport *)
  worker_limiter : option originLimiter
}.

(** The zero value a map lookup returns for a missing key. *)
Definition Worker0 : originWorker := mkWorker 0 None.

(** State of the parsing loop. *)
Record grouping : Type := mkGrouping {
  results_ : list GetHTTPImageResult;
  originGroups : gmap string (list item);
  origins : list string
}.

Fixpoint insertString (s : string) (l : list string) : list string :=
  match l with
  | [] => [s]
  | x :: l' => if String.leb s x then s :: l else x :: insertString s l'
  end.

(** [sort.Strings] *)
Definition sortStrings (l : list string) : list string :=
  foldr insertString [] l.

Definition sizes : list Z := [1024; 4096; 16384; 65536; 262144].

Section Orchestrator.

Context (lib : GoLib).

Definition normalizeOriginHost (u : option url_URL) : string :=
  match u with
  | None => ""
  | Some u =>
      let host := Host u in
      let port := url_Port lib u in
      if String.eqb port "" then host
      else if (String.eqb (Scheme u) "https" && String.eqb port "443")
              || (String.eqb (Scheme u) "http" && String.eqb port "80")
      then
        let h := url_Hostname lib u in
        if negb (String.eqb h "") then h else host
      else host
  end.

(** One round of [for i, rawURL := range urls]. *)
Definition groupURL (st : grouping) (i : nat) (rawURL : string)
  : outcome grouping :=
  let* results := slotUpdate i (setURL rawURL) (results_ st) in
  let reject (err : error) :=
    let* results := slotUpdate i (setError (Some err)) results in
    Ret (mkGrouping results (originGroups st) (origins st)) in
  match url_Parse lib rawURL with
  | inr err => reject err
  | inl parsed =>
      if String.eqb (Scheme parsed) "" || String.eqb (Host parsed) "" then
        reject (URLError "parse" rawURL "invalid URL")
      else
        let host := normalizeOriginHost (Some parsed) in
        let origin := Scheme parsed +:+ "://" +:+ host in
        let origins' :=
          if originGroups st !! origin is Some _ then origins st
          else (origins st ++ [origin])%list in
        let group := default [] (originGroups st !! origin) in
        Ret (mkGrouping results
               (<[origin := (group ++ [mkItem i rawURL])%list]>
                  (originGroups st))
               origins')
  end.

Fixpoint groupURLs (st : grouping) (i : nat) (urls : list string)
  : outcome grouping :=
  match urls with
  | [] => Ret st
  | rawURL :: rest =>
      let* st := groupURL st i rawURL in
      groupURLs st (S i) rest
  end.

Definition makeWorkers (options : GetHTTPImageOptions) (origins : list string)
  : gmap string originWorker :=
  foldl (fun workers origin =>
           <[origin :=
               mkWorker (ConcurrentRequestsReusable options)
                 (Some (newOriginLimiter
                          (ConcurrentRequestsNonReusable options)
                          (ConcurrentRequestsReusable options)))]> workers)
        ∅ origins.

(** The goroutines started for one origin, in the order of [go]. *)
Fixpoint spawnGroup (results : list GetHTTPImageResult) (worker : originWorker)
  (group : list item) : outcome (list (item * originWorker)) :=
  match group with
  | [] => Ret []
  | it :: rest =>
      match results !! index_ it with
      | None => Panic
      | Some r =>
          let* spawned := spawnGroup results worker rest in
          if Error r is Some _ then Ret spawned
          else Ret ((it, worker) :: spawned)
      end
  end.

Fixpoint spawnAll (st : grouping) (originWorkers : gmap string originWorker)
  (origins : list string) : outcome (list (item * originWorker)) :=
  match origins with
  | [] => Ret []
  | origin :: rest =>
      let worker := default Worker0 (originWorkers !! origin) in
      let group := default [] (originGroups st !! origin) in
      let* here := spawnGroup (results_ st) worker group in
      let* there := spawnAll st originWorkers rest in
      Ret (here ++ there)%list
  end.

(** The body of one goroutine, run to its end: the fetch, then the write
    to the goroutine's slot.  A panic in a goroutine ends the program. *)
Definition goroutine (W : nat -> taskWorld) (g : item * originWorker)
  (results : list GetHTTPImageResult)
  : outcome (list GetHTTPImageResult * list action) :=
  let '(it, worker) := g in
  let* '((info, err), t) :=
    fetchImageInfo lib (W (index_ it)) (rawURL_ it) (worker_limiter worker)
                   sizes in
  let* results :=
    match err with
    | Some err => slotUpdate (index_ it) (setError (Some err)) results
    | None =>
        slotUpdate (index_ it)
          (setHTTPImageInfo (mkHTTPImageInfo (rawURL_ it) info)) results
    end in
  Ret (results, t).

(** The goroutines in the order in which they finish; the log pairs every
    action with the slot of the task that performed it. *)
Fixpoint finishAll (W : nat -> taskWorld) (gs : list (item * originWorker))
  (results : list GetHTTPImageResult)
  : outcome (list GetHTTPImageResult * list (nat * action)) :=
  match gs with
  | [] => Ret (results, [])
  | g :: rest =>
      let* '(results, t) := goroutine W g results in
      let* '(results, log) := finishAll W rest results in
      Ret (results, (map (pair (index_ (fst g))) t ++ log)%list)
  end.

(** The part of the batch that runs in the calling goroutine before
    [wg.Wait()]: the parsing loop, the construction of the workers, and the
    loop that starts the goroutines.  It yields the result slice as the
    parsing loop leaves it and the goroutines started, in that order. *)
Definition startGoroutines (urls : list string)
  (options : GetHTTPImageOptions)
  : outcome (list GetHTTPImageResult * list (item * originWorker)) :=
  let results := replicate (length urls) Result0 in
  let* st := groupURLs (mkGrouping results ∅ []) 0 urls in
  let origins := sortStrings (origins st) in
  let originWorkers := makeWorkers options origins in
  let* spawned := spawnAll st originWorkers origins in
  Ret (results_ st, spawned).

(** [order] is the scheduler: it maps the goroutines, listed as started,
    to the order in which they finish. *)
Definition GetHTTPImageDataWithOptions (W : nat -> taskWorld)
  (order : list (item * originWorker) -> list (item * originWorker))
  (urls : list string) (options : GetHTTPImageOptions)
  : outcome (list GetHTTPImageResult * list (nat * action)) :=
  let options := normalizeHTTPImageOptions options in
  let results := replicate (length urls) Result0 in
  if Nat.eqb (length urls) 0 then Ret (results, [])
  else
    let* '(results, spawned) := startGoroutines urls options in
    finishAll W (order spawned) results.

Definition GetHTTPImageInfo (W : nat -> taskWorld)
  (order : list (item * originWorker) -> list (item * originWorker))
  (urls : list string)
  : outcome (list GetHTTPImageResult * list (nat * action)) :=
  GetHTTPImageDataWithOptions W order urls (mkOptions 0 0 0).

End Orchestrator.

(** * The sniffer on an [io.Reader] *)

(** The error of a call of [Read]: [io.EOF] or another error. *)
Inductive io_error : Type :=
| io_EOF
| io_Err (err : error).

(** What a call of [r.Read(tmp)] returns: the bytes it has put at the
    start of [tmp] (their number is [n]) and the error. *)
Record readResult : Type := mkRead {
  read_data : list byte;
  read_err : option io_error
}.

(** An [io.Reader], as what its successive calls of [Read] return. *)
Definition io_Reader : Type := nat -> readResult.

Section Reader.

(** The capacity [append] gives the new array when the old one is full,
    from the old capacity and the length needed; the Go runtime chooses
    it, and it is at least the length needed. *)
Context (growslice : Z -> Z -> Z).

(** [append(buf, data...)]; the memory [make] and [append] allocate is
    zeroed. *)
Definition append (buf : slice) (data : list byte) : slice :=
  let n := len buf + Z.of_nat (length data) in
  if n <=? cap buf then
    Slice (vis buf ++ data) (skipn (length data) (spare buf))
  else
    Slice (vis buf ++ data)
          (replicate (Z.to_nat (growslice (cap buf) n - n)) x00).

(** The [for] loop of [GetInfoReader]; [k] counts the calls of [Read]
    made so far. *)
Fixpoint GetInfoReaderFrom (fuel : nat) (r : io_Reader) (k : nat)
  (buf : slice) : outcome (Info * option error) :=
  match fuel with
  | O => Timeout
  | S fuel' =>
      let data := read_data (r k) in
      let err := read_err (r k) in
      (* [tmp[:n]] *)
      if 4096 <? Z.of_nat (length data) then Panic
      else
        let* '(buf, found) :=
          if 0 <? Z.of_nat (length data) then
            let buf := append buf data in
            let* info := GetInfo buf in
            if negb (ImageType_eqb (Type_ info) Unknown)
               && negb (Width info =? 0) && negb (Height info =? 0)
            then Ret (buf, Some info)
            else Ret (buf, None)
          else Ret (buf, None) in
        match found with
        | Some info => Ret (info, None)
        | None =>
            match err with
            | Some io_EOF => let* info := GetInfo buf in Ret (info, None)
            | Some (io_Err e) => Ret (Info0, Some e)
            | None => GetInfoReaderFrom fuel' r (S k) buf
            end
        end
  end.

Definition GetInfoReader (fuel : nat) (r : io_Reader)
  : outcome (Info * option error) :=
  let buf := Slice [] (replicate 4096 x00) in
  GetInfoReaderFrom fuel r 0 buf.

End Reader.

(** * Vocabulary of the properties *)

(** A computation comes to an end: it returns or it panics. *)
Definition terminates {A} (m : outcome A) : Prop := m <> Timeout.

(** A computation returns. *)
Definition returns {A} (m : outcome A) : Prop := exists a, m = Ret a.

(** The dimensions are unsigned and the type is set exactly when both are
    positive. *)
Definition sized (i : Info) : Prop :=
  0 <= Width i /\ 0 <= Height i /\
  (Type_ i <> Unknown <-> 0 < Width i /\ 0 < Height i).

(** The measure of a forward scan: the distance to the end of the slice. *)
Definition toEnd (b : slice) (j : Z) : Z := if j <? 0 then 0 else len b - j.

(** The budgets of the requests a task has issued, in order. *)
Definition requested (t : list action) : list Z :=
  omap (fun a => match a with Request _ m => Some m | _ => None end) t.

(** The sniffer has resolved a concrete format with both dimensions. *)
Definition resolved (i : Info) : bool :=
  negb (ImageType_eqb (Type_ i) Unknown)
  && negb (Width i =? 0) && negb (Height i =? 0).

(** The actions of an exchange that received a response with [code]. *)
Definition answered (rawURL : string) (size code : Z) : list action :=
  Request rawURL size :: (if code =? 206 then [StoreRangeSupported] else []).

(** The sniffer does not panic on what [x] makes a task read. *)
Definition sniffs (x : exchange) (size : Z) : Prop :=
  forall code status header now stream slack,
  x = Response code status header now (ReadAll stream slack) ->
  GetInfo (Slice (take (Z.to_nat size) stream) slack) <> Panic.

(** The sniffer does not panic on any body the world serves to a task of
    the batch, cut at the budget of the request. *)
Definition sniffable (W : nat -> taskWorld) : Prop :=
  forall i attempt k size,
  sizes !! k = Some size -> sniffs (w_http (W i) attempt k) size.

(** The slots the goroutines [gs] write. *)
Definition slotsOf (gs : list (item * originWorker)) : list nat :=
  map (fun g => index_ (fst g)) gs.

(** The goroutines started for the origins [os], as [spawnAll] lists
    them. *)
Definition spawnedOf (st : grouping) (workers : gmap string originWorker)
  (os : list string) : list (item * originWorker) :=
  flat_map (fun o => map (fun it => (it, default Worker0 (workers !! o)))
                         (default [] (originGroups st !! o))) os.

(** The worker every origin of a batch receives. *)
Definition workerOf (options : GetHTTPImageOptions) : originWorker :=
  let o := normalizeHTTPImageOptions options in
  mkWorker (ConcurrentRequestsReusable o)
    (Some (newOriginLimiter (ConcurrentRequestsNonReusable o)
             (ConcurrentRequestsReusable o))).

Section Vocabulary.

Context (lib : GoLib).

(** The error the parsing loop records for a URL, if any. *)
Definition parseError (rawURL : string) : option error :=
  match url_Parse lib rawURL with
  | inr err => Some err
  | inl parsed =>
      if String.eqb (Scheme parsed) "" || String.eqb (Host parsed) ""
      then Some (URLError "parse" rawURL "invalid URL")
      else None
  end.

(** The URL fails to parse with [e], or parses to an empty scheme or host
    and [e] is the error the loop makes up for it. *)
Definition malformed (u : string) (e : error) : Prop :=
  url_Parse lib u = inr e \/
  exists parsed, url_Parse lib u = inl parsed /\
    (Scheme parsed = "" \/ Host parsed = "") /\
    e = URLError "parse" u "invalid URL".

Definition wellFormed (u : string) : Prop :=
  exists parsed, url_Parse lib u = inl parsed /\
    Scheme parsed <> "" /\ Host parsed <> "".

(** The origin key of a URL that parses. *)
Definition originOf (rawURL : string) : string :=
  match url_Parse lib rawURL with
  | inl parsed =>
      Scheme parsed +:+ "://" +:+ normalizeOriginHost lib (Some parsed)
  | inr _ => ""
  end.

(** The slot of a URL once the parsing loop has passed it. *)
Definition parsedSlot (rawURL : string) : GetHTTPImageResult :=
  mkResult (mkHTTPImageInfo rawURL Info0) (parseError rawURL).

Context (urls : list string).

(** What holds after the first [m] rounds of the parsing loop. *)
Record grouped (m : nat) (st : grouping) : Prop := {
  grouped_length : length (results_ st) = length urls;
  grouped_done : forall j u, (j < m)%nat -> urls !! j = Some u ->
    results_ st !! j = Some (parsedSlot u);
  grouped_todo : forall j, (m <= j)%nat -> (j < length urls)%nat ->
    results_ st !! j = Some Result0;
  grouped_items : forall o items it,
    originGroups st !! o = Some items -> it ∈ items ->
    (index_ it < m)%nat /\ urls !! index_ it = Some (rawURL_ it) /\
    parseError (rawURL_ it) = None;
  grouped_all : forall j u, (j < m)%nat -> urls !! j = Some u ->
    parseError u = None ->
    exists items, originGroups st !! originOf u = Some items /\
                  mkItem j u ∈ items;
  grouped_origins : forall o, is_Some (originGroups st !! o) -> o ∈ origins st
}.

Context (options : GetHTTPImageOptions).

(** A goroutine the batch starts: its slot exists, it carries the URL of
    its slot, that URL parsed, and it runs with the worker of the batch. *)
Definition started (g : item * originWorker) : Prop :=
  (index_ (fst g) < length urls)%nat /\
  urls !! index_ (fst g) = Some (rawURL_ (fst g)) /\
  parseError (rawURL_ (fst g)) = None /\
  snd g = workerOf options.

Context (W : nat -> taskWorld).

(** The result slot of a URL whose task has finished. *)
Definition probed (j : nat) (u : string) : GetHTTPImageResult :=
  match fetchImageInfo lib (W j) u (worker_limiter (workerOf options)) sizes
  with
  | Ret ((inf, None), _) => mkResult (mkHTTPImageInfo u inf) None
  | Ret ((_, Some e), _) => mkResult (mkHTTPImageInfo u Info0) (Some e)
  | _ => Result0
  end.

(** The write of the goroutine of slot [j]. *)
Definition finishedSlot (j : nat) (r : GetHTTPImageResult)
  : GetHTTPImageResult :=
  match urls !! j with
  | None => r
  | Some u =>
      match fetchImageInfo lib (W j) u (worker_limiter (workerOf options))
              sizes with
      | Ret ((inf, None), _) => setHTTPImageInfo (mkHTTPImageInfo u inf) r
      | Ret ((_, Some e), _) => setError (Some e) r
      | _ => r
      end
  end.

End Vocabulary.

(** ** Panics, encodings, readers and traces *)

(** A computation does not panic. *)
Definition safe {A} (m : outcome A) : Prop := m <> Panic.

(** The cases of the [switch] of [GetInfo]: the signature test, the type
    [GetType] returns in that case, and the parser [GetInfo] runs. *)
Definition parsers (p : slice)
  : list (outcome bool * ImageType * outcome Info) :=
  [ (hasJPEG p, JPEG, jpeg p Info0); (hasPNG p, PNG, png p Info0);
    (hasWEBP p, WEBP, webp p Info0); (hasGIF p, GIF, gif p Info0);
    (hasBMP p, BMP, bmp p Info0); (hasPPM p, PPM, ppm p Info0);
    (hasXBM p, XBM, xbm p Info0); (hasXPM p, XPM, xpm p Info0);
    (hasTIFFBig p, TIFF, tiff p Info0 bigEndian);
    (hasTIFFLittle p, TIFF, tiff p Info0 littleEndian);
    (hasPSD p, PSD, psd p Info0); (hasMNG p, MNG, mng p Info0);
    (hasRGB p, RGB, rgb p Info0); (hasRAS p, RAS, ras p Info0);
    (hasPCX p, PCX, pcx p Info0); (hasAVIFFtyp p, AVIF, avif p Info0) ].

(** The type is either unset or [t]. *)
Definition typed (t : ImageType) (i : Info) : Prop :=
  Type_ i = Unknown \/ Type_ i = t.

(** The [n] low bytes of [w], least significant first. *)
Fixpoint littleBytes (n : nat) (w : Z) : list byte :=
  match n with
  | O => []
  | S n' => byte_of_Z (w mod 256) :: littleBytes n' (w / 256)
  end.

(** The [n] low bytes of [w], most significant first. *)
Definition bigBytes (n : nat) (w : Z) : list byte := rev (littleBytes n w).

(** The eight bytes every PNG file begins with. *)
Definition pngSignature : list byte :=
  [x89; "P"; "N"; "G"; x0d; x0a; x1a; x0a]%byte.

(** The type of the first chunk of a PNG file. *)
Definition IHDR : list byte := ["I"; "H"; "D"; "R"]%byte.

(** A JPEG segment: the marker, and a two-byte big-endian length that
    counts itself and the payload. *)
Definition jpegSegment (code : byte) (payload : list byte) : list byte :=
  (xff :: code :: bigBytes 2 (2 + Z.of_nat (length payload))) ++ payload.

(** The markers SOF0 to SOF3, which [jpeg] takes as the frame header. *)
Definition isSOF (code : byte) : bool := (192 <=? u8 code) && (u8 code <=? 195).

(** The number a list of decimal digits writes, most significant first. *)
Definition decimalValue (ds : list Z) : Z :=
  fold_left (fun acc d => acc * 10 + d) ds 0.

(** The ASCII digits of a list of decimal digits. *)
Definition digitBytes (ds : list Z) : list byte :=
  map (fun d => byte_of_Z (48 + d)) ds.

(** The bytes '0' to '9'. *)
Definition isDigit (c : byte) : bool := (48 <=? u8 c) && (u8 c <=? 57).

(** The type [ppm] sets for the digit after "P". *)
Definition ppmType (k : byte) : ImageType :=
  if Byte.eqb k "1" then PBM
  else if Byte.eqb k "2" || Byte.eqb k "5" then PGM
  else if Byte.eqb k "3" || Byte.eqb k "6" then PPM
  else if Byte.eqb k "4" then BPM
  else if Byte.eqb k "7" then XV
  else Unknown.

(** The buffer after the first [n] calls of [Read]. *)
Fixpoint buffered (growslice : Z -> Z -> Z) (r : io_Reader) (n : nat)
  : slice :=
  match n with
  | O => Slice [] (replicate 4096 x00)
  | S n' =>
      if 0 <? Z.of_nat (length (read_data (r n')))
      then append growslice (buffered growslice r n') (read_data (r n'))
      else buffered growslice r n'
  end.

(** The bytes the first [n] calls of [Read] have delivered. *)
Definition delivered (r : io_Reader) (n : nat) : list byte :=
  concat (map (fun k => read_data (r k)) (seq 0 n)).

(** What a task does between taking and giving back its slots: requests
    for its own URL, sleeps of a positive duration, and stores to the
    flag of its origin. *)
Definition fetchAction (rawURL : string) (a : action) : Prop :=
  match a with
  | Request u _ => u = rawURL
  | Sleep d _ => 0 < d
  | StoreRangeSupported => True
  | _ => False
  end.

(** A finished slot: an error and the zero [Info], or no error and a
    resolved [Info]. *)
Definition settled (r : GetHTTPImageResult) : Prop :=
  match Error r with
  | Some _ => info (httpImageInfo r) = Info0
  | None => resolved (info (httpImageInfo r)) = true
  end.

(** The groups of the parsing loop are separated: no origin is listed
    twice, every origin listed has a group, and a group holds items of its
    own origin with different indices. *)
Record separated (lib : GoLib) (st : grouping) : Prop := {
  separated_origins : NoDup (origins st);
  separated_listed : forall o,
    o ∈ origins st -> is_Some (originGroups st !! o);
  separated_index : forall o items,
    originGroups st !! o = Some items -> NoDup (map index_ items);
  separated_origin : forall o items it,
    originGroups st !! o = Some items -> it ∈ items ->
    originOf lib (rawURL_ it) = o
}.

(** The context ends while the task waits in the [select] of
    [originLimiter.acquire] on [l]: the select over base, extra and the
    context when the flag is read as set and [l] has an extra tier, the
    select over base and the context otherwise. *)
Definition cancelledAtOrigin (w : taskWorld) (l : originLimiter) (e : error)
  : Prop :=
  if w_seen w && (if extra l is Some _ then true else false)
  then w_origin3 w = SelDone e
  else w_origin2 w = Some e.

(** * Sample inputs and worlds *)

(** [n] bytes: the given prefix, then zeros. *)
Definition padded (n : nat) (prefix : list Z) : list byte :=
  map byte_of_Z (prefix ++ repeat 0 (n - length prefix)).

(** "GIF89a", width 60, height 40: a complete GIF screen descriptor. *)
Definition gifHeader : list Z := [71; 73; 70; 56; 57; 97; 60; 0; 40; 0; 0; 0; 0].

(** SOI, then an APP0 segment that announces 65535 bytes. *)
Definition jpegLongSegment : list Z := [255; 216; 255; 224; 255; 255].

(** SOI, then a SOF0 frame header whose two dimensions are zero. *)
Definition jpegZeroFrame : list Z := [255; 216; 255; 192; 0; 17; 8; 0; 0; 0; 0].

(** A big-endian TIFF header whose directory offset, 65535, lies beyond
    the slice. *)
Definition tiffFarDirectory : list Z := [77; 77; 0; 42; 0; 0; 255; 255].

(** The XPM signature line, then an empty line. *)
Definition xpmBlankLine : list Z :=
  [47; 42; 32; 88; 80; 77; 32; 42; 47; 10; 10].

(** Decimal numerals without sign. *)
Fixpoint digits (s : string) (acc : Z) : option Z :=
  match s with
  | EmptyString => Some acc
  | String c s' =>
      let d := Z.of_nat (nat_of_ascii c) - 48 in
      if (0 <=? d) && (d <=? 9) then digits s' (acc * 10 + d) else None
  end.

Definition sampleAtoi (s : string) : option Z :=
  match s with
  | EmptyString => None
  | _ => digits s 0
  end.

(** The text of [s] from position [n] on. *)
Definition from (n : nat) (s : string) : string :=
  substring n (String.length s - n) s.

(** [url.Parse] on the shapes the samples use: the empty string is a
    URL without scheme or host, a leading colon is a parse error, and
    "scheme://host/path" splits at the first "://" and the next "/". *)
Definition sampleParse (s : string) : url_URL + error :=
  match s with
  | EmptyString => inl (mkURL "" "")
  | String ":" _ => inr (URLError "parse" s "missing protocol scheme")
  | _ =>
      match String.index 0 "://" s with
      | Some n =>
          let rest := from (n + 3) s in
          let host :=
            match String.index 0 "/" rest with
            | Some m => substring 0 m rest
            | None => rest
            end in
          inl (mkURL (substring 0 n s) host)
      | None => inl (mkURL "" "")
      end
  end.

Definition samplePort (u : url_URL) : string :=
  match String.index 0 ":" (Host u) with
  | Some n => from (n + 1) (Host u)
  | None => ""
  end.

Definition sampleHostname (u : url_URL) : string :=
  match String.index 0 ":" (Host u) with
  | Some n => substring 0 n (Host u)
  | None => Host u
  end.

Definition sampleLib : GoLib := {|
  url_Parse := sampleParse;
  url_Port := samplePort;
  url_Hostname := sampleHostname;
  strings_TrimSpace := fun s => s;
  strconv_Atoi := sampleAtoi;
  http_ParseTime := fun _ => None;
  time_Until := fun t now => t - now
|}.

(** A task that is never held back and receives [x] on every request. *)
Definition worldOf (x : exchange) : taskWorld := {|
  w_global := None;
  w_seen := false;
  w_origin3 := SelBase;
  w_origin2 := None;
  w_sleep := None;
  w_http := fun _ _ => x
|}.

(** A task whose context ends while it waits for the origin gate. *)
Definition worldCancelled : taskWorld := {|
  w_global := None;
  w_seen := true;
  w_origin3 := SelDone (ContextError "context canceled");
  w_origin2 := Some (ContextError "context canceled");
  w_sleep := None;
  w_http := fun _ _ => DoFails (ContextError "context canceled")
|}.

(** A task that finds the flag set and takes a slot of the extra tier. *)
Definition worldExtra (x : exchange) : taskWorld := {|
  w_global := None;
  w_seen := true;
  w_origin3 := SelExtra;
  w_origin2 := None;
  w_sleep := None;
  w_http := fun _ _ => x
|}.

(** A server with range support that serves a 60 x 40 GIF. *)
Definition gifPartial : exchange :=
  Response 206 "206 Partial Content" "" 0 (ReadAll (padded 100 gifHeader) []).

Definition notFound : exchange :=
  Response 404 "404 Not Found" "" 0 (ReadAll [] []).

(** A server that always answers 429 with [Retry-After: 1]. *)
Definition tooMany : exchange :=
  Response 429 "429 Too Many Requests" "1" 0 (ReadAll [] []).

Definition sampleURLs : list string :=
  ["http://a.example/x.gif"; "::not a url"; ""; "https://b.example/y.gif"].

(** A reader that delivers a 60 x 40 GIF in one read and reports the end
    of the input in the next. *)
Definition gifReader : io_Reader := fun k =>
  match k with
  | O => mkRead (padded 100 gifHeader) None
  | _ => mkRead [] (Some io_EOF)
  end.

(** A reader that delivers a JPEG frame header without dimensions together
    with the end of the input. *)
Definition jpegReader : io_Reader := fun _ =>
  mkRead (padded 100 jpegZeroFrame) (Some io_EOF).

(** A reader that delivers ten bytes in two reads and then fails. *)
Definition brokenReader : io_Reader := fun k =>
  match k with
  | O => mkRead (padded 5 gifHeader) None
  | S O => mkRead (padded 5 []) None
  | _ => mkRead [] (Some (io_Err (ContextError "context canceled")))
  end.

(** A runtime that doubles the capacity of a full array. *)
Definition doubling (oldCap needed : Z) : Z := Z.max (2 * oldCap) needed.

(** An APP0 segment with a payload of 14 bytes. *)
Definition app0 : byte * list byte := (xe0, padded 14 [74; 70; 73; 70]).

(** A JPEG file whose frame header, 640 x 480, comes after an APP1
    segment of 1100 bytes: 1215 bytes in all. *)
Definition exifJpegBody : list byte :=
  ([xff; xd8] ++ jpegSegment xe1 (padded 1100 [69; 120; 105; 102])
     ++ [xff; xc0; x00; x11; x08; x01; xe0; x02; x80]
     ++ padded 100 [])%list.

(** A server with range support that serves that file. *)
Definition exifJpeg : exchange :=
  Response 206 "206 Partial Content" "" 0 (ReadAll exifJpegBody []).

(** * Termination of the sniffer *)

Lemma terminates_Ret {A} (a : A) : terminates (Ret a).
Proof. discriminate. Qed.

Lemma terminates_Panic {A} : terminates (@Panic A).
Proof. discriminate. Qed.

Lemma terminates_bind {A B} (m : outcome A) (k : A -> outcome B) :
  terminates m -> (forall a, m = Ret a -> terminates (k a)) ->
  terminates (bind m k).
Proof.
  intros Hm Hk. destruct m as [a| |]; simpl.
  - now apply Hk.
  - discriminate.
  - now elim Hm.
Qed.

Lemma terminates_loop {S R} (body : S -> outcome (step S R)) (mu : S -> Z) :
  (forall s, terminates (body s)) ->
  (forall s s', body s = Ret (Next s') -> 0 <= mu s' < mu s) ->
  forall fuel s, mu s < Z.of_nat fuel -> (0 < fuel)%nat ->
  terminates (loop fuel body s).
Proof.
  intros Hb Hmu. induction fuel as [|fuel IH]; intros s Hs Hf; [lia|].
  simpl. specialize (Hb s). destruct (body s) as [[s'|r]| |] eqn:E;
    try discriminate.
  - destruct (Hmu _ _ E). apply IH; lia.
  - now elim Hb.
Qed.

Lemma terminates_index b i : terminates (index b i).
Proof.
  unfold index. destruct (_ && _); [|discriminate].
  destruct (nth_error _ _); discriminate.
Qed.

Lemma terminates_reslice b i j : terminates (reslice b i j).
Proof. unfold reslice. destruct (_ && _); discriminate. Qed.

Lemma terminates_get b i : terminates (get b i).
Proof.
  unfold get. apply terminates_bind; [apply terminates_index|discriminate].
Qed.

Lemma terminates_at_is b i c : terminates (at_is b i c).
Proof.
  unfold at_is. apply terminates_bind; [apply terminates_index|discriminate].
Qed.

Lemma terminates_andM a b :
  terminates a -> terminates b -> terminates (a &&& b).
Proof.
  intros Ha Hb. unfold andM. apply terminates_bind; [assumption|].
  intros [|] _; [assumption|discriminate].
Qed.

Lemma terminates_orM a b :
  terminates a -> terminates b -> terminates (a ||| b).
Proof.
  intros Ha Hb. unfold orM. apply terminates_bind; [assumption|].
  intros [|] _; [discriminate|assumption].
Qed.

Create HintDb term discriminated.
#[export] Hint Resolve terminates_Ret terminates_Panic terminates_index
  terminates_reslice terminates_get terminates_at_is terminates_andM
  terminates_orM : term.
#[export] Hint Extern 2 (terminates (bind _ _)) =>
  apply terminates_bind; [|intros ? ?] : term.

(** Peels binds, conditionals and matches off a goal [terminates _]. *)
Ltac term_step :=
  match goal with
  | |- terminates (bind _ _) => apply terminates_bind; [|intros ? ?]
  | |- terminates (if ?c then _ else _) => destruct c eqn:?
  | |- terminates (match ?x with _ => _ end) => destruct x eqn:?
  | |- terminates (let '(_, _) := ?x in _) => destruct x eqn:?
  | |- terminates _ => solve [auto 20 with term]
  end.
Ltac term := repeat term_step.

Lemma index_Ret b i x : index b i = Ret x -> 0 <= i < len b.
Proof.
  unfold index. destruct (0 <=? i) eqn:E1; [|discriminate].
  destruct (i <? len b) eqn:E2; [|discriminate]. lia.
Qed.

Lemma get_Ret b i x : get b i = Ret x -> 0 <= i < len b /\ 0 <= x < 256.
Proof.
  unfold get. destruct (index b i) eqn:E; simpl; try discriminate.
  intros [= <-]. split; [eauto using index_Ret|].
  unfold u8. pose proof (Byte.to_N_bounded a) as HH. lia.
Qed.

Lemma reslice_Ret b i j p :
  reslice b i j = Ret p -> 0 <= i <= j /\ j <= cap b /\ len p = j - i.
Proof.
  unfold reslice. destruct (0 <=? i) eqn:E1; [|discriminate].
  destruct (i <=? j) eqn:E2; [|discriminate].
  destruct (j <=? cap b) eqn:E3; [|discriminate].
  simpl. intros [= <-]. unfold len, cap in *. simpl.
  rewrite length_take, length_drop, length_app.
  apply Z.leb_le in E1, E2, E3. rewrite Nat.min_l by lia. lia.
Qed.

Lemma lor_nonneg a b : 0 <= a -> 0 <= b -> 0 <= Z.lor a b.
Proof. intros. now apply Z.lor_nonneg. Qed.

Lemma shiftl_nonneg a n : 0 <= a -> 0 <= Z.shiftl a n.
Proof. intros. now apply Z.shiftl_nonneg. Qed.

Lemma terminates_Uint16 (o : byteOrder) b :
  o = littleEndian \/ o = bigEndian -> terminates (Uint16 b).
Proof. intros [->| ->]; simpl; term. Qed.

Lemma terminates_Uint32 (o : byteOrder) b :
  o = littleEndian \/ o = bigEndian -> terminates (Uint32 b).
Proof. intros [->| ->]; simpl; term. Qed.

Lemma Uint16_nonneg (o : byteOrder) b x :
  o = littleEndian \/ o = bigEndian -> Uint16 b = Ret x -> 0 <= x.
Proof.
  intros [->| ->]; simpl;
    destruct (index b 1); simpl; try discriminate;
    destruct (get b 0) eqn:E0; simpl; try discriminate;
    destruct (get b 1) eqn:E1; simpl; try discriminate;
    intros [= <-]; apply get_Ret in E0, E1;
    apply lor_nonneg; try apply shiftl_nonneg; lia.
Qed.

Lemma toEnd_fuel b i : toEnd b i < Z.of_nat (scanFuel b).
Proof. unfold toEnd, scanFuel, len. destruct (i <? 0) eqn:E; lia. Qed.

Lemma toEnd_advance b j d :
  0 <= j -> 0 < d -> j + d <= len b -> 0 <= toEnd b (j + d) < toEnd b j.
Proof.
  intros. unfold toEnd.
  destruct (j + d <? 0) eqn:E1; destruct (j <? 0) eqn:E2; lia.
Qed.

Lemma scanFuel_pos b : (0 < scanFuel b)%nat.
Proof. unfold scanFuel. lia. Qed.

(** Splits the body of a loop along its tests and binds. *)
Ltac split_body :=
  repeat (simpl;
    match goal with
    | |- context [if ?c then _ else _] => destruct c eqn:?
    | |- context [bind ?m _] => destruct m eqn:?
    | |- context [match ?x with Some _ => _ | None => _ end] =>
        destruct x eqn:?
    | |- context [let '(_, _) := ?x in _] => destruct x eqn:?
    end); simpl; try discriminate.

Lemma terminates_skipSpace b i : terminates (skipSpace b i).
Proof.
  unfold skipSpace. term.
  apply (terminates_loop _ (toEnd b)); auto using toEnd_fuel, scanFuel_pos.
  - intros j. term.
  - intros j j'. split_body. intros [= <-].
    match goal with H : index _ _ = Ret _ |- _ => apply index_Ret in H end.
    apply toEnd_advance; lia.
Qed.

Lemma terminates_readNonSpace b i : terminates (readNonSpace b i).
Proof.
  unfold readNonSpace. term.
  apply (terminates_loop _ (toEnd b)); auto using toEnd_fuel, scanFuel_pos.
  - intros j. term.
  - intros j j'. split_body. intros [= <-].
    match goal with H : index _ _ = Ret _ |- _ => apply index_Ret in H end.
    apply toEnd_advance; lia.
Qed.

Lemma terminates_readLine b i : terminates (readLine b i).
Proof.
  unfold readLine. term.
  apply (terminates_loop _ (toEnd b)); auto using toEnd_fuel, scanFuel_pos.
  - intros j. term.
  - intros j j'. split_body. intros [= <-].
    match goal with H : index _ _ = Ret _ |- _ => apply index_Ret in H end.
    apply toEnd_advance; lia.
Qed.

Lemma terminates_parseUint32 b i : terminates (parseUint32 b i).
Proof.
  unfold parseUint32. term.
  apply (terminates_loop _ (fun s => toEnd b (snd s)));
    auto using toEnd_fuel, scanFuel_pos.
  - intros [n j]. term.
  - intros [n j] [n' j']. split_body. intros [= <- <-].
    match goal with H : get _ _ = Ret _ |- _ => apply get_Ret in H end.
    simpl. apply toEnd_advance; lia.
Qed.

#[export] Hint Resolve terminates_skipSpace terminates_readNonSpace
  terminates_readLine terminates_parseUint32 : term.

Lemma terminates_bigUint32 b : terminates (Uint32 (byteOrder := bigEndian) b).
Proof. apply terminates_Uint32. now right. Qed.

Lemma terminates_readUint64 b : terminates (readUint64 b).
Proof. unfold readUint64. term. Qed.

Lemma terminates_isAVIFBrand b : terminates (isAVIFBrand b).
Proof. unfold isAVIFBrand. term. Qed.

#[export] Hint Resolve terminates_bigUint32 terminates_readUint64
  terminates_isAVIFBrand : term.

Lemma terminates_ftypHasAVIF b header : terminates (ftypHasAVIF b header).
Proof.
  unfold ftypHasAVIF. term.
  apply (terminates_loop _ (toEnd b)); auto using toEnd_fuel, scanFuel_pos.
  - intros i. term.
  - intros i i'. split_body. intros [= <-].
    match goal with H : reslice _ _ _ = Ret _ |- _ => apply reslice_Ret in H end.
    apply toEnd_advance; lia.
Qed.

#[export] Hint Resolve terminates_ftypHasAVIF : term.

Lemma terminates_hasAVIFFtyp b : terminates (hasAVIFFtyp b).
Proof.
  unfold hasAVIFFtyp.
  apply (terminates_loop _ (toEnd b)); auto using toEnd_fuel, scanFuel_pos.
  - intros i. term.
  - intros i i'. split_body; intros [= <-];
      repeat match goal with
        | H : Ret _ = Ret _ |- _ => injection H as H
        | H : bind ?m _ = Ret _ |- _ => destruct m eqn:?; simpl in H
        | H : (if ?c then _ else _) = Ret _ |- _ => destruct c eqn:?
        end; subst; try discriminate;
      match goal with
      | H : reslice _ i _ = Ret _ |- _ => apply reslice_Ret in H
      end;
      apply toEnd_advance; lia.
Qed.

#[export] Hint Resolve terminates_hasAVIFFtyp : term.

Lemma terminates_jpeg b info : terminates (jpeg b info).
Proof.
  unfold jpeg.
  apply (terminates_loop _ (fun i => Z.max 0 (len b - i)));
    auto using scanFuel_pos.
  - intros i. term.
  - intros i i'. split_body. intros [= <-].
    repeat match goal with
      | H : get _ _ = Ret _ |- _ => apply get_Ret in H
      end.
    assert (0 <= Z.lor a (Z.shiftl a0 8))
      by (apply lor_nonneg; [|apply shiftl_nonneg]; lia).
    lia.
  - unfold scanFuel, len. lia.
Qed.

Lemma bind_Ret_inv {A B} (m : outcome A) (k : A -> outcome B) r :
  bind m k = Ret r -> exists a, m = Ret a /\ k a = Ret r.
Proof. destruct m; simpl; try discriminate. eauto. Qed.

(** Inverts hypotheses [bind m k = Ret r] and [Ret a = Ret b]. *)
Ltac inv_bind :=
  repeat match goal with
    | H : bind _ _ = Ret _ |- _ =>
        apply bind_Ret_inv in H as (? & ? & H)
    | H : Ret _ = Ret _ |- _ => injection H as H
    | H : (let '(_, _) := ?x in _) = Ret _ |- _ => destruct x
    end.

Lemma terminates_avifDimensions b : terminates (avifDimensions b).
Proof.
  unfold avifDimensions.
  apply (terminates_loop _ (toEnd b)); auto using toEnd_fuel, scanFuel_pos.
  - intros i. term.
  - intros i i' H.
    destruct (i + 16 <=? len b) eqn:E; [|discriminate].
    apply bind_Ret_inv in H as (miss & Hm & H).
    assert (0 <= i) as Hi.
    { unfold orM, at_is in Hm. inv_bind.
      match goal with H : index b i = Ret _ |- _ => apply index_Ret in H end.
      lia. }
    enough (i' = i + 1) as -> by (apply toEnd_advance; lia).
    destruct miss; [congruence|].
    repeat (inv_bind;
            match type of H with
            | (if ?c then _ else _) = _ => destruct c
            end); congruence.
Qed.

Lemma readLine_advance b i p j :
  readLine b i = Ret (p, j) -> 0 <= i < j /\ j <= cap b.
Proof.
  unfold readLine. intros H. inv_bind. subst.
  match goal with H : reslice _ _ _ = Ret _ |- _ => apply reslice_Ret in H end.
  match goal with
  | H : loop _ _ i = Ret ?j0 |- _ =>
      enough (i <= j0) by lia; revert H; clear; revert i j0
  end.
  generalize (scanFuel b). intros n.
  induction n as [|n IH]; intros i j0; simpl; [discriminate|].
  destruct (i <? len b); simpl.
  - destruct (index b i); simpl; try discriminate.
    destruct (Byte.eqb _ _).
    + intros [= <-]. lia.
    + intros H. apply IH in H. lia.
  - intros [= <-]. lia.
Qed.

Lemma terminates_xpm b info : terminates (xpm b info).
Proof.
  unfold xpm. term.
  apply (terminates_loop _ (fun i => cap b - i)).
  - intros i. term.
  - intros i i'.
    destruct (readLine b i) as [[line j]| |] eqn:E; simpl; try discriminate.
    apply readLine_advance in E.
    split_body. intros [= <-]. lia.
  - unfold capFuel, cap. lia.
  - unfold capFuel. lia.
Qed.

Lemma terminates_tiff b info (o : byteOrder) :
  o = littleEndian \/ o = bigEndian -> terminates (tiff b info o).
Proof.
  intros Ho. unfold tiff.
  pose proof (terminates_Uint16 o) as T16.
  pose proof (terminates_Uint32 o) as T32.
  apply terminates_bind; [auto with term|intros s4 _].
  apply terminates_bind; [auto|intros i0 Hi0].
  apply terminates_bind; [auto with term|intros s2 _].
  apply terminates_bind; [auto|intros n Hn].
  apply (terminates_loop _
           (fun s => Z.max 0 ((n * 12 - fst s + 11) / 12))).
  - intros [i inf]. term; auto.
  - intros [i inf] [i' inf'].
    destruct (i <? n * 12) eqn:E; [|discriminate].
    split_body; intros [= <- <-]; simpl;
      replace (n * 12 - (i + 12) + 11) with ((n * 12 - i + 11) + (-1) * 12)
        by ring;
      rewrite Z.div_add by lia;
      assert (1 <= (n * 12 - i + 11) / 12)
        by (apply Z.div_le_lower_bound; lia);
      lia.
  - simpl. apply Uint16_nonneg in Hn; [|assumption].
    assert (0 <= i0).
    { clear -Ho Hi0. destruct Ho as [-> | ->]; simpl in Hi0;
        destruct (index s4 3); simpl in Hi0; try discriminate;
        repeat match type of Hi0 with
          | bind ?m _ = _ => destruct m eqn:?; simpl in Hi0; try discriminate
          end;
        injection Hi0 as <-;
        repeat match goal with
          | H : get _ _ = Ret _ |- _ => apply get_Ret in H
          end;
        repeat (apply lor_nonneg || apply shiftl_nonneg); lia. }
    assert ((n * 12 - (i0 + 2) + 11) / 12 < n + 1).
    { apply Z.div_lt_upper_bound; lia. }
    lia.
  - lia.
Qed.

#[export] Hint Resolve terminates_jpeg terminates_avifDimensions
  terminates_xpm terminates_hasAVIFFtyp : term.

Lemma terminates_switch {A} (cases : list (outcome bool * outcome A)) d :
  Forall (fun c => terminates (fst c) /\ terminates (snd c)) cases ->
  terminates d -> terminates (switch cases d).
Proof.
  induction 1 as [|[g body] rest [Hg Hb] _ IH]; intros Hd; simpl; [assumption|].
  apply terminates_bind; [assumption|]. intros [|] _; auto.
Qed.

Lemma terminates_word4 b k0 k1 k2 k3 : terminates (word4 b k0 k1 k2 k3).
Proof. unfold word4. term. Qed.

Lemma terminates_word2 b k0 k1 : terminates (word2 b k0 k1).
Proof. unfold word2. term. Qed.

#[export] Hint Resolve terminates_word4 terminates_word2 : term.

(** Every signature test returns: each index is guarded by a length test. *)
Lemma terminates_has b :
  Forall (fun m : outcome bool => terminates m)
    [hasJPEG b; hasPNG b; hasWEBP b; hasGIF b; hasBMP b; hasPPM b; hasXBM b;
     hasXPM b; hasTIFFBig b; hasTIFFLittle b; hasPSD b; hasMNG b; hasRGB b;
     hasRAS b; hasPCX b; hasAVIFFtyp b].
Proof.
  repeat constructor;
    try (unfold hasJPEG, hasPNG, hasWEBP, hasGIF, hasBMP, hasPPM, hasXBM,
         hasXPM, hasTIFFBig, hasTIFFLittle, hasPSD, hasMNG, hasRGB, hasRAS,
         hasPCX; term).
Qed.

(** The sniffer always comes to an end: it returns or it panics. *)
Theorem GetInfo_terminates p : terminates (GetInfo p).
Proof.
  unfold GetInfo. term.
  pose proof (terminates_has p) as Hhas.
  rewrite !Forall_cons in Hhas. destruct_and!.
  apply terminates_switch; [|auto with term].
  repeat constructor; simpl; try assumption;
    try (unfold webp, avif, png, gif, bmp, ppm, xbm, psd, mng, rgb, ras, pcx;
         term);
    auto using terminates_tiff with term.
Qed.

Theorem GetType_terminates p : terminates (GetType p).
Proof.
  unfold GetType. term.
  pose proof (terminates_has p) as Hhas.
  rewrite !Forall_cons in Hhas. destruct_and!.
  apply terminates_switch; [|auto with term].
  repeat constructor; simpl; auto with term.
Qed.

(** * Dimensions and type of the sniffer's result *)

Lemma loop_invariant {S R} (I : S -> Prop) (Q : R -> Prop)
  (body : S -> outcome (step S R)) :
  (forall s s', I s -> body s = Ret (Next s') -> I s') ->
  (forall s r, I s -> body s = Ret (Done r) -> Q r) ->
  forall fuel s r, I s -> loop fuel body s = Ret r -> Q r.
Proof.
  intros Hnext Hdone. induction fuel as [|fuel IH]; intros s r Hs;
    simpl; [discriminate|].
  destruct (body s) as [[s'|r']| |] eqn:E; try discriminate.
  - apply IH. eauto.
  - intros [= <-]. eauto.
Qed.

Lemma sized_Info0 : sized Info0.
Proof. unfold sized. simpl. split; [lia|]. split; [lia|]. split; [tauto|lia]. Qed.

Lemma sized_typeIfSized t w h :
  t <> Unknown -> 0 <= w -> 0 <= h ->
  sized (typeIfSized t (setHeight h (setWidth w Info0))).
Proof.
  intros Ht Hw Hh. unfold sized, typeIfSized. simpl.
  destruct (Z.eqb_spec w 0), (Z.eqb_spec h 0); simpl;
    (split; [lia|]); (split; [lia|]); split; try tauto; try lia;
    intros _; assumption.
Qed.

(** Closes goals [0 <= e] for the bit-level expressions of the parsers. *)
Ltac nonneg :=
  repeat match goal with
    | H : get _ _ = Ret _ |- _ => apply get_Ret in H
    end;
  repeat first
    [ apply Z.lor_nonneg; split
    | apply Z.shiftl_nonneg
    | apply Z.shiftr_nonneg
    | apply Z.land_nonneg; left
    | apply Z.add_nonneg_nonneg
    | lia ].

Lemma word4_nonneg b k0 k1 k2 k3 x : word4 b k0 k1 k2 k3 = Ret x -> 0 <= x.
Proof. unfold word4. intros H. inv_bind. subst. nonneg. Qed.

Lemma word2_nonneg b k0 k1 x : word2 b k0 k1 = Ret x -> 0 <= x.
Proof. unfold word2. intros H. inv_bind. subst. nonneg. Qed.

Lemma Uint32_nonneg (o : byteOrder) b x :
  o = littleEndian \/ o = bigEndian -> Uint32 b = Ret x -> 0 <= x.
Proof. intros [->| ->]; simpl; intros H; inv_bind; subst; nonneg. Qed.

Lemma uint32_nonneg x : 0 <= uint32 x.
Proof. unfold uint32. apply Z.mod_pos_bound. lia. Qed.

Lemma parseUint32_nonneg b i n j : parseUint32 b i = Ret (n, j) -> 0 <= n.
Proof.
  unfold parseUint32. intros H. inv_bind.
  revert H. apply (loop_invariant (fun s => 0 <= fst s) (fun r => 0 <= fst r)
                     _) with (r := (n, j)); [| |simpl; lia].
  - intros [n0 j0] [n1 j1] Hn. simpl in *.
    destruct (j0 <? len b); [|discriminate]. intros H. inv_bind.
    destruct (9 <? _); [discriminate|]. injection H as <- <-.
    apply uint32_nonneg.
  - intros [n0 j0] [n1 j1] Hn. simpl in *.
    destruct (j0 <? len b); [|now intros [= <- <-]]. intros H. inv_bind.
    destruct (9 <? _); [now injection H as <- <-|discriminate].
Qed.

Create HintDb nonneg discriminated.
#[export] Hint Resolve word4_nonneg word2_nonneg parseUint32_nonneg
  uint32_nonneg : nonneg.

(** Inverts the hypotheses that say a monadic computation returned. *)
Ltac inv_ret :=
  repeat (simplify_eq;
          match goal with
          | H : bind _ _ = Ret _ |- _ =>
              apply bind_Ret_inv in H as (? & ? & H)
          | H : (if ?c then _ else _) = Ret _ |- _ => destruct c eqn:?
          | H : (let '(_, _) := ?x in _) = Ret _ |- _ => destruct x
          | H : _ = Ret _ |- _ => progress cbn beta iota in H
          end);
  simplify_eq.

Ltac sized_done :=
  first
    [ exact sized_Info0
    | apply sized_typeIfSized; [discriminate|..];
      first [ solve [eauto with nonneg] | solve [nonneg] ] ].

Lemma sized_png b i : png b Info0 = Ret i -> sized i.
Proof. unfold png. intros H. inv_ret; sized_done. Qed.

Lemma sized_gif b i : gif b Info0 = Ret i -> sized i.
Proof. unfold gif. intros H. inv_ret; sized_done. Qed.

Lemma sized_bmp b i : bmp b Info0 = Ret i -> sized i.
Proof. unfold bmp. intros H. inv_ret; sized_done. Qed.

Lemma sized_psd b i : psd b Info0 = Ret i -> sized i.
Proof. unfold psd. intros H. inv_ret; sized_done. Qed.

Lemma sized_mng b i : mng b Info0 = Ret i -> sized i.
Proof. unfold mng. intros H. inv_ret; sized_done. Qed.

Lemma sized_rgb b i : rgb b Info0 = Ret i -> sized i.
Proof. unfold rgb. intros H. inv_ret; sized_done. Qed.

Lemma sized_ras b i : ras b Info0 = Ret i -> sized i.
Proof. unfold ras. intros H. inv_ret; sized_done. Qed.

Lemma sized_pcx b i : pcx b Info0 = Ret i -> sized i.
Proof. unfold pcx. intros H. inv_ret; sized_done. Qed.

Lemma sized_webp b i : webp b Info0 = Ret i -> sized i.
Proof. unfold webp. intros H. inv_ret; sized_done. Qed.

Lemma avifDimensions_nonneg b w h :
  avifDimensions b = Ret (w, h) -> 0 <= w /\ 0 <= h.
Proof.
  unfold avifDimensions.
  apply (loop_invariant (fun _ => True)
           (fun r : Z * Z => 0 <= fst r /\ 0 <= snd r)) with (r := (w, h));
    [auto| |exact I].
  intros i r _ H. inv_ret; simpl; try lia.
  split; eapply Uint32_nonneg; eauto.
Qed.

Lemma sized_avif b i : avif b Info0 = Ret i -> sized i.
Proof.
  unfold avif. intros H. inv_ret.
  match goal with
  | H : avifDimensions _ = Ret _ |- _ =>
      apply avifDimensions_nonneg in H as [? ?]
  end.
  now apply sized_typeIfSized.
Qed.

Lemma sized_xbm b i : xbm b Info0 = Ret i -> sized i.
Proof.
  unfold xbm. intros H. inv_ret.
  - unfold sized. simpl. split; [eauto with nonneg|]. split; [lia|].
    split; [tauto|lia].
  - sized_done.
Qed.

Lemma sized_xpm b i : xpm b Info0 = Ret i -> sized i.
Proof.
  unfold xpm. intros H. inv_ret.
  match goal with
  | H : loop ?fuel ?body ?s = Ret ?x |- _ =>
      assert (exists w h, 0 <= w /\ 0 <= h /\
                          x = setHeight h (setWidth w Info0))
        as (w & h & ? & ? & ->);
      [ revert H;
        apply (loop_invariant (fun _ => True)
                 (fun x => exists w h, 0 <= w /\ 0 <= h /\
                                       x = setHeight h (setWidth w Info0))
                 body); [auto| |exact I]
      | now apply sized_typeIfSized ]
  end.
  intros s r _ H. inv_ret.
  - exists 0, 0. repeat split; lia.
  - eexists _, _. split; [|split; [|reflexivity]]; eauto with nonneg.
Qed.

Lemma ppm_type (x : byte) :
  (49 <=? u8 x) && (u8 x <=? 55) = true ->
  let t :=
    Type_ (if Byte.eqb x "1" then setType PBM Info0
           else if Byte.eqb x "2" || Byte.eqb x "5" then setType PGM Info0
           else if Byte.eqb x "3" || Byte.eqb x "6" then setType PPM Info0
           else if Byte.eqb x "4" then setType BPM Info0
           else if Byte.eqb x "7" then setType XV Info0
           else Info0) in
  t <> Unknown /\ t <> JPEG.
Proof.
  destruct x; vm_compute; intros H; try discriminate H; split; discriminate.
Qed.

Lemma sized_ppm b i :
  hasPPM b = Ret true -> ppm b Info0 = Ret i ->
  sized i /\ Type_ i <> JPEG.
Proof.
  unfold hasPPM, ppm, get. intros Hhas H. inv_ret.
  all: match goal with
       | H1 : index ?b 1 = Ret ?c, H2 : index ?b 1 = Ret ?d |- _ =>
           rewrite H1 in H2; injection H2 as ->
       end.
  all: apply ppm_type in Hhas as [Ht Hj]; cbv zeta in Ht, Hj.
  all: repeat match goal with
         | H : parseUint32 _ _ = Ret _ |- _ => apply parseUint32_nonneg in H
         end.
  all: match goal with
       | |- context [setWidth _ ?T] => set (info := T) in *
       end.
  all: unfold sized; cbn [Width Height Type_ setType setHeight setWidth] in *.
  all: match goal with
       | H : (_ =? 0) || (_ =? 0) = true |- _ =>
           apply orb_prop in H;
           (split; [|discriminate]); split; [lia|]; split; [lia|];
           split; [tauto|]; intros [? ?];
           destruct H as [E|E]; apply Z.eqb_eq in E; lia
       | H : (_ =? 0) || (_ =? 0) = false |- _ =>
           apply orb_false_elim in H as [E1 E2];
           apply Z.eqb_neq in E1, E2;
           (split; [|assumption]); split; [lia|]; split; [lia|];
           split; [lia|auto]
       end.
Qed.

Lemma tiff_tag tag v inf :
  Type_ inf = Unknown -> 0 <= Width inf -> 0 <= Height inf -> 0 <= v ->
  let inf' := if tag =? 256 then setWidth v inf
              else if tag =? 257 then setHeight v inf else inf in
  Type_ inf' = Unknown /\ 0 <= Width inf' /\ 0 <= Height inf'.
Proof.
  intros. destruct (tag =? 256); [simpl; auto|].
  destruct (tag =? 257); simpl; auto.
Qed.

(** The value of a TIFF directory entry is unsigned. *)
Ltac tiff_value v Ho :=
  first
    [ match goal with
      | H : get _ _ = Ret v |- _ => apply get_Ret in H; lia
      end
    | match goal with
      | H : Uint16 _ = Ret v |- _ => exact (Uint16_nonneg _ _ _ Ho H)
      end
    | match goal with
      | H : Uint32 _ = Ret v |- _ => exact (Uint32_nonneg _ _ _ Ho H)
      end ].

Lemma sized_tiff b (o : byteOrder) i :
  o = littleEndian \/ o = bigEndian -> tiff b Info0 o = Ret i -> sized i.
Proof.
  intros Ho. unfold tiff. intros H. inv_ret.
  lazymatch goal with
  | H : loop _ ?body _ = Ret _ |- _ =>
      revert H;
      apply (loop_invariant
               (fun st : Z * Info =>
                  Type_ (snd st) = Unknown /\ 0 <= Width (snd st) /\
                  0 <= Height (snd st) /\
                  ~ (0 < Width (snd st) /\ 0 < Height (snd st)))
               sized body)
  end.
  - intros [j inf] [j' inf'] (Ht & Hw & Hh & Hno) H. simpl in *. inv_ret.
    all: match goal with
         | H : (0 <? Width ?x) && (0 <? Height ?x) = false
           |- context [if ?tag =? 256 then setWidth ?v _ else _] =>
             assert (0 <= v) as Hv by tiff_value v Ho;
             destruct (tiff_tag tag v inf Ht Hw Hh Hv) as (? & ? & ?);
             apply andb_false_iff in H;
             repeat split; try eassumption;
             intros [? ?]; destruct H as [E|E]; apply Z.ltb_ge in E; lia
         end.
  - intros [j inf] r (Ht & Hw & Hh & Hno) H. simpl in *.
    assert (sized inf) as Hinf.
    { unfold sized. repeat split; try assumption; try tauto; congruence. }
    inv_ret; try assumption.
    all: match goal with
         | H : (0 <? Width ?x) && (0 <? Height ?x) = true |- _ =>
             apply andb_prop in H as [E1 E2]; apply Z.ltb_lt in E1, E2;
             unfold sized; cbn [Width Height Type_ setType];
             repeat split; try lia; discriminate
         end.
  - simpl. repeat split; lia.
Qed.

Lemma jpeg_result b i :
  jpeg b Info0 = Ret i ->
  i = Info0 \/ (Type_ i = JPEG /\ 0 <= Width i /\ 0 <= Height i).
Proof.
  unfold jpeg.
  apply (loop_invariant (fun _ => True)
           (fun i => i = Info0 \/
                     (Type_ i = JPEG /\ 0 <= Width i /\ 0 <= Height i)));
    [auto| |exact I].
  intros s r _ H. inv_ret; [now left|]. right. simpl.
  repeat split; nonneg.
Qed.

Lemma switch_Ret {A} (cases : list (outcome bool * outcome A)) d r :
  switch cases d = Ret r ->
  (exists c, In c cases /\ fst c = Ret true /\ snd c = Ret r) \/ d = Ret r.
Proof.
  induction cases as [|[g body] rest IH]; simpl; [auto|].
  intros H. apply bind_Ret_inv in H as ([|] & Hg & H).
  - left. exists (g, body). auto.
  - destruct (IH H) as [(c & ? & ? & ?)|?]; [left; exists c|]; auto.
Qed.

(** X3. What the sniffer returns has unsigned dimensions; two positive
    dimensions come with a type; and a type other than JPEG comes with two
    positive dimensions. *)
Theorem GetInfo_dimensions p i :
  GetInfo p = Ret i ->
  0 <= Width i /\ 0 <= Height i /\
  (0 < Width i /\ 0 < Height i -> Type_ i <> Unknown) /\
  (Type_ i <> Unknown -> Type_ i <> JPEG -> 0 < Width i /\ 0 < Height i).
Proof.
  assert (forall i, sized i ->
            0 <= Width i /\ 0 <= Height i /\
            (0 < Width i /\ 0 < Height i -> Type_ i <> Unknown) /\
            (Type_ i <> Unknown -> Type_ i <> JPEG ->
             0 < Width i /\ 0 < Height i)) as Hsized.
  { intros j (? & ? & Hiff). repeat split; try assumption; try tauto;
      intros; now apply Hiff. }
  unfold GetInfo. intros H.
  destruct (len p <? minOffset); [injection H as <-; apply Hsized, sized_Info0|].
  apply bind_Ret_inv in H as (_ & _ & H).
  apply switch_Ret in H as [(c & Hin & Hg & Hc)|H];
    [|injection H as <-; apply Hsized, sized_Info0].
  simpl in Hin.
  repeat (destruct Hin as [<-|Hin]; cbn [fst snd] in Hg, Hc;
          [try (apply Hsized;
                lazymatch type of Hc with
                | png _ _ = _ => exact (sized_png _ _ Hc)
                | webp _ _ = _ => exact (sized_webp _ _ Hc)
                | gif _ _ = _ => exact (sized_gif _ _ Hc)
                | bmp _ _ = _ => exact (sized_bmp _ _ Hc)
                | xbm _ _ = _ => exact (sized_xbm _ _ Hc)
                | xpm _ _ = _ => exact (sized_xpm _ _ Hc)
                | psd _ _ = _ => exact (sized_psd _ _ Hc)
                | mng _ _ = _ => exact (sized_mng _ _ Hc)
                | rgb _ _ = _ => exact (sized_rgb _ _ Hc)
                | ras _ _ = _ => exact (sized_ras _ _ Hc)
                | pcx _ _ = _ => exact (sized_pcx _ _ Hc)
                | avif _ _ = _ => exact (sized_avif _ _ Hc)
                | tiff _ _ bigEndian = _ =>
                    exact (sized_tiff p bigEndian i (or_intror eq_refl) Hc)
                | tiff _ _ littleEndian = _ =>
                    exact (sized_tiff p littleEndian i (or_introl eq_refl) Hc)
                end)|]);
    try contradiction.
  - destruct (jpeg_result _ _ Hc) as [->|(Ht & ? & ?)];
      [apply Hsized, sized_Info0|].
    repeat split; try assumption; congruence.
  - destruct (sized_ppm _ _ Hg Hc) as [Hs _]. now apply Hsized.
Qed.

(** * Options *)

(** C8. Normalization replaces every option below 1 by its default
    (20, 5 and 50), then raises the reusable limit to the non-reusable one
    when it is smaller; afterwards the three values are at least 1 and the
    reusable limit is at least the non-reusable one. *)
Theorem normalizeHTTPImageOptions_spec (o : GetHTTPImageOptions) :
  let n := normalizeHTTPImageOptions o in
  let reusable :=
    if ConcurrentRequestsReusable o <? 1 then 20
    else ConcurrentRequestsReusable o in
  let nonReusable :=
    if ConcurrentRequestsNonReusable o <? 1 then 5
    else ConcurrentRequestsNonReusable o in
  let global :=
    if MaxConcurrentConnections o <? 1 then 50
    else MaxConcurrentConnections o in
  ConcurrentRequestsNonReusable n = nonReusable /\
  MaxConcurrentConnections n = global /\
  ConcurrentRequestsReusable n
    = (if reusable <? nonReusable then nonReusable else reusable) /\
  1 <= ConcurrentRequestsReusable n /\
  1 <= ConcurrentRequestsNonReusable n /\
  1 <= MaxConcurrentConnections n /\
  ConcurrentRequestsNonReusable n <= ConcurrentRequestsReusable n.
Proof.
  destruct o as [r nr g]. unfold normalizeHTTPImageOptions. simpl.
  unfold CONCURRENT_REQUESTS_FOR_REUSABLE_CONNECTIONS_DEFAULT,
    CONCURRENT_REQUESTS_FOR_NON_REUSABLE_CONNECTIONS_DEFAULT,
    MAX_CONCURRENT_CONNECTIONS_GLOBAL_DEFAULT.
  destruct (Z.ltb_spec r 1), (Z.ltb_spec nr 1), (Z.ltb_spec g 1); cbn;
    repeat match goal with
      | |- context [?a <? ?b] => destruct (Z.ltb_spec a b); cbn in *
      end; lia.
Qed.

(** * The 80-byte threshold *)

(** C10. On fewer than 80 bytes [GetInfo] returns the zero [Info] and
    [GetType] returns [Unknown], whatever the bytes are. *)
Theorem GetInfo_below_minOffset (p : slice) :
  len p < 80 -> GetInfo p = Ret Info0 /\ GetType p = Ret Unknown.
Proof.
  intros H. unfold GetInfo, GetType, minOffset.
  destruct (len p <? 80) eqn:E; [now split|lia].
Qed.

(** A complete GIF header of 13 bytes: the GIF parser reads 60 x 40 from
    it, yet the sniffer reports nothing. *)
Lemma GetInfo_below_minOffset_witness :
  len (bytes (padded 13 gifHeader)) < 80 /\
  gif (bytes (padded 13 gifHeader)) Info0 = Ret (mkInfo GIF 60 40) /\
  GetInfo (bytes (padded 13 gifHeader)) = Ret Info0 /\
  GetType (bytes (padded 13 gifHeader)) = Ret Unknown.
Proof.
  split; [vm_compute; reflexivity|].
  split; [vm_compute; reflexivity|].
  apply (GetInfo_below_minOffset (bytes (padded 13 gifHeader))).
  vm_compute; reflexivity.
Defined.

(** * Defects of the JPEG parser *)

(** C3. On 80 bytes that start a JPEG whose first segment runs past the
    end of the slice the sniffer panics: [jpeg] indexes the slice at the
    position the segment length announces, without a bounds test. *)
Theorem GetInfo_panics_on_truncated_jpeg :
  GetInfo (bytes (padded 80 jpegLongSegment)) = Panic.
Proof. vm_compute. reflexivity. Qed.

(** [tiff] and [xpm] index the slice without a bounds test as well: a
    directory offset beyond the slice and an empty line make them panic. *)
Example GetInfo_panics_on_tiff_offset :
  GetInfo (bytes (padded 80 tiffFarDirectory)) = Panic.
Proof. vm_compute. reflexivity. Qed.

Example GetInfo_panics_on_xpm_blank_line :
  GetInfo (bytes (padded 80 xpmBlankLine)) = Panic.
Proof. vm_compute. reflexivity. Qed.

(** C2. On 80 bytes that hold a JPEG frame header with zero dimensions the
    sniffer reports the format JPEG with width 0 and height 0: [jpeg] sets
    the type without the test on the dimensions every other parser makes. *)
Theorem GetInfo_jpeg_zero_dimensions :
  GetInfo (bytes (padded 80 jpegZeroFrame)) = Ret (mkInfo JPEG 0 0).
Proof. vm_compute. reflexivity. Qed.

(** ** The defect as the engine meets it *)

(** C4. A JPEG file whose first segment is longer than the first budget:
    the 1024 bytes of the first request end inside the segment, [jpeg]
    indexes beyond them and the sniffer panics, and with it the exchange and
    the whole progressive fetch.  The next budget is never requested,
    though the sniffer resolves the file on the bytes that budget would
    have read. *)
Theorem fetchImageInfoProgressive_panics_on_cut_jpeg :
  GetInfo (Slice (firstn 1024 exifJpegBody) []) = Panic /\
  fetchImageInfoOnce sampleLib exifJpeg "http://a.example/x.jpg" 1024
    = Panic /\
  fetchImageInfoProgressive sampleLib (fun _ => exifJpeg)
    "http://a.example/x.jpg" sizes = Panic /\
  GetInfo (Slice (firstn 4096 exifJpegBody) []) = Ret (mkInfo JPEG 640 480).
Proof. repeat split; vm_compute; reflexivity. Qed.

(** C1. A batch of one URL whose server serves that file: the goroutine of
    the URL panics in the sniffer, nothing recovers from the panic, and the
    batch returns no slice. *)
Theorem GetHTTPImageDataWithOptions_panics_on_cut_jpeg :
  GetHTTPImageDataWithOptions sampleLib (fun _ => worldOf exifJpeg)
    (fun l => l) ["http://a.example/x.jpg"] (mkOptions 0 0 0) = Panic.
Proof. vm_compute. reflexivity. Qed.

(** C7. A batch of a URL that does not parse and a URL whose server serves
    that file: the parsing loop puts the parse error in the first slot and
    starts one goroutine, for the second URL; that goroutine panics in the
    sniffer, and the batch returns no slice, neither the parse error of the
    first URL nor a result for the second. *)
Theorem malformed_URL_batch_panics_on_cut_jpeg :
  parseError sampleLib "::not a url"
    = Some (URLError "parse" "::not a url" "missing protocol scheme") /\
  (exists rs spawned,
     startGoroutines sampleLib ["::not a url"; "http://a.example/x.jpg"]
       (normalizeHTTPImageOptions (mkOptions 0 0 0)) = Ret (rs, spawned) /\
     rs !! 0%nat
       = Some (mkResult (mkHTTPImageInfo "::not a url" Info0)
                 (Some (URLError "parse" "::not a url"
                          "missing protocol scheme"))) /\
     slotsOf spawned = [1%nat]) /\
  GetHTTPImageDataWithOptions sampleLib (fun _ => worldOf exifJpeg)
    (fun l => l) ["::not a url"; "http://a.example/x.jpg"] (mkOptions 0 0 0)
    = Panic.
Proof.
  split; [reflexivity|]. split; [|vm_compute; reflexivity].
  destruct (startGoroutines sampleLib
              ["::not a url"; "http://a.example/x.jpg"]
              (normalizeHTTPImageOptions (mkOptions 0 0 0)))
    as [[rs spawned]| |] eqn:E; try (vm_compute in E; discriminate E).
  exists rs, spawned. split; [reflexivity|].
  vm_compute in E. injection E as <- <-. split; reflexivity.
Qed.

(** * The retry policy *)

Lemma tbind_Ret {A B} (a : A) (t : list action) (k : A -> task B) :
  tbind (Ret (a, t)) k = (let* '(b, t') := k a in Ret (b, (t ++ t')%list)).
Proof. reflexivity. Qed.

Lemma tbind_tret {A B} (a : A) (k : A -> task B) : tbind (tret a) k = k a.
Proof.
  unfold tret. rewrite tbind_Ret. destruct (k a) as [[b t]| |]; reflexivity.
Qed.

(** C5. Let the first run of the progressive fetcher return.  Without an
    error the policy returns its result at once.  With an error and no
    retry-after wait the error is returned and nothing else is done.  With a
    retry-after wait the policy sleeps for that duration: if the context
    ends the sleep, the context's error is returned; otherwise the
    progressive fetcher is run once more on the whole list of budgets and
    what it returns is final, a second retry-after wait included. *)
Theorem fetchImageInfoWithRetry_spec (lib : GoLib) (w : taskWorld)
  (rawURL : string) (budgets : list Z) i ra err t :
  fetchImageInfoProgressive lib (w_http w 0) rawURL budgets
    = Ret ((i, ra, err), t) ->
  (err = None ->
   fetchImageInfoWithRetry lib w rawURL budgets = Ret ((i, None), t)) /\
  (forall e, err = Some e -> ra <= 0 ->
   fetchImageInfoWithRetry lib w rawURL budgets = Ret ((i, Some e), t)) /\
  (forall e ce, err = Some e -> 0 < ra -> w_sleep w = Some ce ->
   fetchImageInfoWithRetry lib w rawURL budgets
     = Ret ((i, Some ce), (t ++ [Sleep ra true])%list)) /\
  (forall e i' ra' err' t', err = Some e -> 0 < ra -> w_sleep w = None ->
   fetchImageInfoProgressive lib (w_http w 1) rawURL budgets
     = Ret ((i', ra', err'), t') ->
   fetchImageInfoWithRetry lib w rawURL budgets
     = Ret ((i', err'), (t ++ Sleep ra false :: t')%list)).
Proof.
  intros H1. unfold fetchImageInfoWithRetry. simpl. rewrite H1, tbind_Ret.
  repeat split.
  - intros ->. simpl. now rewrite app_nil_r.
  - intros e -> Hra. destruct (Z.leb_spec ra 0); [|lia].
    simpl. now rewrite app_nil_r.
  - intros e ce -> Hra Hs. destruct (Z.leb_spec ra 0); [lia|].
    unfold sleepWithContext. rewrite Hs. reflexivity.
  - intros e i' ra' err' t' -> Hra Hs H2. destruct (Z.leb_spec ra 0); [lia|].
    unfold sleepWithContext. rewrite Hs. simpl. rewrite H2. simpl.
    destruct err'; [rewrite orb_true_r|]; simpl; now rewrite app_nil_r.
Qed.

(** * The progressive range fetcher *)

Lemma tbind_Ret_inv {A B} (m : task A) (k : A -> task B) b t :
  tbind m k = Ret (b, t) ->
  exists a t1 t2, m = Ret (a, t1) /\ k a = Ret (b, t2) /\ t = (t1 ++ t2)%list.
Proof.
  unfold tbind. destruct m as [[a t1]| |]; simpl; try discriminate.
  destruct (k a) as [[b' t2]| |] eqn:E; simpl; try discriminate.
  intros [= <- <-]. exists a, t1, t2. auto.
Qed.

Lemma requested_app t1 t2 :
  requested (t1 ++ t2) = (requested t1 ++ requested t2)%list.
Proof. apply omap_app. Qed.

(** One exchange issues at most the request for its budget, and it issues
    it whenever it ends without an error. *)
Lemma fetchImageInfoOnce_requested lib x rawURL size i ra err more n t :
  fetchImageInfoOnce lib x rawURL size = Ret ((i, ra, err, more, n), t) ->
  requested t = [size] \/ (requested t = [] /\ err <> None).
Proof.
  unfold fetchImageInfoOnce, enableReusable, emit, lift.
  destruct x as [e|e|code status hdr now body].
  - intros [= <- <- <- <- <- <-]. right. split; [reflexivity|discriminate].
  - rewrite tbind_Ret. cbn. intros [= <- <- <- <- <- <-]. now left.
  - rewrite tbind_Ret. intros H. left.
    destruct (_ : option Z); [cbn in H; injection H as <- <- <- <- <- <-; reflexivity|].
    destruct (code =? 206); rewrite ?tbind_Ret, ?tbind_tret in H;
      (destruct (negb (code =? 200) && _);
       [cbn in H; injection H as <- <- <- <- <- <-; reflexivity|]);
      (destruct body as [e|stream slack];
       [cbn in H; injection H as <- <- <- <- <- <-; reflexivity|]);
      (destruct (_ <? 80);
       [cbn in H; injection H as <- <- <- <- <- <-; reflexivity|]);
      (destruct (GetInfo _) as [inf| |]; cbn in H; try discriminate);
      (destruct (_ || _); cbn in H; injection H as <- <- <- <- <- <-;
       reflexivity).
Qed.

Lemma progressiveFrom_requested lib X rawURL budgets :
  forall k info lastErr lastRead r t,
  progressiveFrom lib X rawURL budgets k info lastErr lastRead = Ret (r, t) ->
  requested t `prefix_of` filter (fun s => 80 <= s) budgets.
Proof.
  induction budgets as [|size rest IH]; intros k info lastErr lastRead r t.
  - simpl. intros [= <- <-]. apply prefix_nil.
  - simpl. destruct (Z.ltb_spec size 80) as [Hs|Hs].
    + intros H. apply IH in H. rewrite filter_cons_False by lia. exact H.
    + rewrite filter_cons_True by lia. intros H.
      apply tbind_Ret_inv in H
        as ([[[[i ra] err] more] n] & t1 & t2 & H1 & H2 & ->).
      apply fetchImageInfoOnce_requested in H1. rewrite requested_app.
      destruct (0 <? ra).
      { injection H2 as <- <-. rewrite app_nil_r.
        destruct H1 as [-> | [-> _]];
          [apply prefix_cons, prefix_nil | apply prefix_nil]. }
      destruct err as [e|].
      { injection H2 as <- <-. rewrite app_nil_r.
        destruct H1 as [-> | [-> _]];
          [apply prefix_cons, prefix_nil | apply prefix_nil]. }
      destruct H1 as [-> | [_ ?]]; [|congruence].
      destruct (negb more).
      { injection H2 as <- <-. apply prefix_cons, prefix_nil. }
      apply IH in H2. simpl. now apply prefix_cons.
Qed.

(** X29. One round of the progressive fetcher, for the budget [size] at
    the head of the budgets still to try, where the sniffer returns on the
    bytes read.
    - A budget below 80 is skipped.
    - A response whose status is neither 200 nor 206 ends the sequence with
      an error that carries the URL, the status code and the status text,
      after the single request of this round.
    - On 200 or 206 at most [size] bytes are read.  Fewer than 80 bytes end
      the sequence with an insufficient-bytes error that records the bytes
      read and the minimum 80.  Otherwise the sniffer runs on the bytes
      read: a concrete format with both dimensions ends the sequence with
      that result and no further request, anything else hands over to the
      remaining budgets.
    - With no budget left the result is an insufficient-bytes error.
    - The budgets requested in a whole run are, in order, an initial
      segment of the budgets of at least 80. *)
Theorem fetchImageInfoProgressive_rounds (lib : GoLib) (X : nat -> exchange)
  (rawURL : string) (size : Z) (rest : list Z) (k : nat) (info : Info)
  (lastErr : option error) (lastRead : Z) :
  let round := progressiveFrom lib X rawURL (size :: rest) k info lastErr
                 lastRead in
  (size < 80 ->
   round = progressiveFrom lib X rawURL rest (S k) info lastErr lastRead) /\
  (80 <= size ->
   forall code status header now body,
   X k = Response code status header now body -> code <> 200 -> code <> 206 ->
   exists ra e,
     round = Ret ((Info0, ra, Some e), [Request rawURL size]) /\
     statusFields e = Some (rawURL, code, status)) /\
  (80 <= size ->
   forall code status header now stream slack,
   X k = Response code status header now (ReadAll stream slack) ->
   code = 200 \/ code = 206 ->
   let data := Slice (firstn (Z.to_nat size) stream) slack in
   len data <= size /\
   (len data < 80 ->
    round = Ret ((Info0, 0, Some (InsufficientBytesError "" (len data) 80)),
                 answered rawURL size code)) /\
   (80 <= len data ->
    forall i, GetInfo data = Ret i ->
    round =
      if resolved i then Ret ((i, 0, None), answered rawURL size code)
      else
        tbind (Ret (tt, answered rawURL size code))
          (fun _ => progressiveFrom lib X rawURL rest (S k) i None
                      (len data)))) /\
  progressiveFrom lib X rawURL [] k info None lastRead
    = Ret ((info, 0, Some (InsufficientBytesError "" lastRead 80)), []) /\
  (forall budgets r t,
   fetchImageInfoProgressive lib X rawURL budgets = Ret (r, t) ->
   requested t `prefix_of` filter (fun s => 80 <= s) budgets).
Proof.
  intros round. subst round.
  split; [|split; [|split; [|split]]].
  - intros Hs. simpl. destruct (Z.ltb_spec size 80); [reflexivity|lia].
  - intros Hs code status header now body HX H200 H206. simpl.
    destruct (Z.ltb_spec size 80); [lia|]. rewrite HX.
    unfold fetchImageInfoOnce, emit. rewrite !tbind_Ret.
    destruct (Z.eqb_spec code 200); [congruence|].
    destruct (Z.eqb_spec code 206); [congruence|].
    destruct ((code =? 429) || (code =? 503)); simpl.
    + destruct (parseRetryAfter lib header now) as [d [|]]; simpl.
      * destruct (0 <? d); simpl; eauto.
      * eauto.
    + eauto.
  - intros Hs code status header now stream slack HX Hcode data.
    assert (len data <= size) as Hlen.
    { unfold len. simpl. rewrite length_take. lia. }
    assert (fetchImageInfoOnce lib (X k) rawURL size =
            if len data <? 80 then
              Ret ((Info0, 0, Some (InsufficientBytesError "" (len data) 80),
                    false, len data), answered rawURL size code)
            else
              let* i := GetInfo data in
              Ret ((i, 0, None, negb (resolved i), len data),
                   answered rawURL size code)) as Honce.
    { rewrite HX. unfold fetchImageInfoOnce, enableReusable, emit, answered,
        lift, resolved.
      fold data. rewrite !tbind_Ret.
      destruct Hcode as [-> | ->]; simpl;
        (destruct (len data <? 80); [reflexivity|]);
        (destruct (GetInfo data) as [i| |]; simpl; try reflexivity);
        destruct (ImageType_eqb (Type_ i) Unknown), (Width i =? 0),
          (Height i =? 0); reflexivity. }
    split; [exact Hlen|]. split.
    + intros Hlt. simpl. destruct (Z.ltb_spec size 80); [lia|].
      rewrite Honce. destruct (Z.ltb_spec (len data) 80); [|lia].
      rewrite tbind_Ret. simpl. now rewrite app_nil_r.
    + intros Hge i Hi. simpl. destruct (Z.ltb_spec size 80); [lia|].
      rewrite Honce, Hi. destruct (Z.ltb_spec (len data) 80); [lia|].
      cbn [bind]. rewrite tbind_Ret.
      destruct (Z.ltb_spec 0 (len data)); [|lia].
      destruct (resolved i); simpl; [now rewrite app_nil_r|reflexivity].
  - reflexivity.
  - intros budgets r t. apply progressiveFrom_requested.
Qed.

(** * The origin limiter *)

Lemma exec_keeps_rangeSupported s a s' :
  exec s a = Some s' ->
  rangeSupported (limiter s) = true -> rangeSupported (limiter s') = true.
Proof.
  destruct a as [[| |]|[| |]|seen| | |]; simpl; intros H Hf;
    repeat match type of H with
      | context [send ?c] => destruct (send c); simpl in H
      | context [recv ?c] => destruct (recv c); simpl in H
      | context [extra ?l] => destruct (extra l); simpl in H
      | context [if ?c then _ else _] => destruct c
      end; try discriminate; injection H as <-; simpl; auto.
Qed.

Lemma execs_keeps_rangeSupported t : forall s s',
  execs s t = Some s' ->
  rangeSupported (limiter s) = true -> rangeSupported (limiter s') = true.
Proof.
  induction t as [|a t IH]; simpl; intros s s'.
  - now intros [= <-].
  - destruct (exec s a) as [s1|] eqn:E; simpl; [|discriminate].
    intros H Hf. eapply IH; [exact H|]. eauto using exec_keeps_rangeSupported.
Qed.

(** C6. The flag of a new origin limiter is false.  An exchange that
    receives status 206 stores true into it, and storing is idempotent.  No
    action of any task resets it: once true it is true after every run of
    actions.  An acquisition takes a slot of the extra tier only after it
    has read the flag as true (which the flag then is) on a limiter that
    has an extra tier; if it reads false, or there is no extra tier, it
    takes the base tier or nothing.  For normalized options the base tier
    has the non-reusable capacity and the extra tier the reusable capacity
    minus the non-reusable one. *)
Theorem originLimiter_rangeSupported (lib : GoLib) :
  (forall n r, rangeSupported (newOriginLimiter n r) = false) /\
  (forall status header now body rawURL size r t,
     fetchImageInfoOnce lib (Response 206 status header now body) rawURL size
       = Ret (r, t) ->
     In StoreRangeSupported t) /\
  (forall s, exists s',
     exec s StoreRangeSupported = Some s' /\
     rangeSupported (limiter s') = true /\
     exec s' StoreRangeSupported = Some s') /\
  (forall s t s',
     execs s t = Some s' ->
     rangeSupported (limiter s) = true -> rangeSupported (limiter s') = true) /\
  (forall w l g t,
     originLimiter_acquire w l = Ret (inl g, t) ->
     (g = Base \/ g = Extra) /\
     In (Send g) t /\
     (g = Extra ->
      w_seen w = true /\ extra l <> None /\
      forall s s', execs s t = Some s' ->
                   rangeSupported (limiter s) = true) /\
     (w_seen w = false \/ extra l = None -> g = Base)) /\
  (forall options,
     let o := normalizeHTTPImageOptions options in
     let l := newOriginLimiter (ConcurrentRequestsNonReusable o)
                (ConcurrentRequestsReusable o) in
     base l = make_chan (ConcurrentRequestsNonReusable o) /\
     extra l =
       if ConcurrentRequestsNonReusable o <? ConcurrentRequestsReusable o
       then Some (make_chan (ConcurrentRequestsReusable o
                             - ConcurrentRequestsNonReusable o))
       else None).
Proof.
  split; [|split; [|split; [|split; [|split]]]].
  - reflexivity.
  - intros status header now body rawURL size r t.
    unfold fetchImageInfoOnce, enableReusable, emit. rewrite !tbind_Ret.
    simpl. intros H.
    repeat match type of H with
      | context [match ?x with ReadFails _ => _ | _ => _ end] => destruct x
      | context [if ?c then _ else _] => destruct c
      | context [lift ?m] => destruct m; simpl in H
      end; simpl in H; try discriminate;
      injection H as <- <-; simpl; auto.
  - intros s. eexists. simpl. repeat split.
  - intros s t s'. apply execs_keeps_rangeSupported.
  - intros w l g t. unfold originLimiter_acquire, emit. rewrite tbind_Ret.
    destruct (w_seen w) eqn:Eseen; simpl.
    + destruct (extra l) as [c|] eqn:Eextra; simpl.
      * destruct (w_origin3 w); simpl; intros [= <- <-];
          (split; [auto|]); (split; [simpl; auto|]);
          (split; [|intros [|]; congruence]); try discriminate.
        intros _. split; [reflexivity|]. split; [discriminate|].
        intros s s'. simpl.
        destruct (rangeSupported (limiter s)); [reflexivity|discriminate].
      * destruct (w_origin2 w); simpl; intros [= <- <-].
        split; [auto|]. split; [simpl; auto|]. split; [discriminate|auto].
    + destruct (w_origin2 w); simpl; intros [= <- <-].
      split; [auto|]. split; [simpl; auto|]. split; [discriminate|auto].
  - intros options.
    pose proof (normalizeHTTPImageOptions_spec options) as (_ & _ & _ & _ & H1 & _ & H2).
    simpl. unfold newOriginLimiter.
    set (o := normalizeHTTPImageOptions options) in *.
    destruct (Z.ltb_spec (ConcurrentRequestsNonReusable o) 1); [lia|].
    destruct (Z.ltb_spec (ConcurrentRequestsReusable o)
                (ConcurrentRequestsNonReusable o)); [lia|].
    simpl. split; [reflexivity|].
    destruct (Z.ltb_spec 0 (ConcurrentRequestsReusable o
                            - ConcurrentRequestsNonReusable o));
      destruct (Z.ltb_spec (ConcurrentRequestsNonReusable o)
                  (ConcurrentRequestsReusable o)); (reflexivity || lia).
Qed.

(** * Cancellation while acquiring a gate *)

Lemma chan_eta c n : n = chanLen c -> mkChan (chanCap c) n = c.
Proof. intros ->. now destruct c. Qed.

Lemma gates_eta s c l :
  c = globalLimiter s -> l = limiter s -> mkGates c l = s.
Proof. intros -> ->. now destruct s. Qed.

(** C9. An acquisition either takes one slot and returns no error, or
    returns an error and has taken none.  When the context ends while a
    task waits for the global gate, the acquisition returns the context's
    error and performs no send: no slot is held, and the task ends there
    with that error.  The same holds for the origin gate: the acquisition
    only reads the flag and leaves both tiers as they were.  When the
    origin gate fails after the global gate was taken, the task gives the
    global slot back before it returns the error, so the gates end as they
    started.  And the origin gate does fail then: when the context ends
    while the task waits in either select of the origin gate, the
    acquisition returns the context's error without a send, and the task
    returns that error after it has given the global slot back. *)
Theorem acquisition_cancelled (lib : GoLib) (w : taskWorld) :
  (forall r t, acquire w = Ret (r, t) ->
     match r with
     | None => held Global t = 1
     | Some e => w_global w = Some e /\ held Global t = 0
     end) /\
  (forall l r t, originLimiter_acquire w l = Ret (r, t) ->
     match r with
     | inl g => held g t = 1 /\ held Base t + held Extra t = 1
     | inr e => held Base t = 0 /\ held Extra t = 0
     end) /\
  (forall e, w_global w = Some e ->
     acquire w = Ret (Some e, []) /\
     forall rawURL l budgets,
       fetchImageInfo lib w rawURL l budgets = Ret ((Info0, Some e), [])) /\
  (forall l e t, originLimiter_acquire w l = Ret (inr e, t) ->
     t = [LoadRangeSupported (w_seen w)] /\
     (forall s s', execs s t = Some s' -> s' = s) /\
     (w_origin3 w = SelDone e \/ w_origin2 w = Some e)) /\
  (forall l e t rawURL budgets,
     w_global w = None ->
     originLimiter_acquire w l = Ret (inr e, t) ->
     let T := (Send Global :: t ++ [Recv Global])%list in
     fetchImageInfo lib w rawURL (Some l) budgets = Ret ((Info0, Some e), T) /\
     held Global T = 0 /\ held Base T = 0 /\ held Extra T = 0 /\
     (forall s s', execs s T = Some s' -> s' = s)) /\
  (forall l e, cancelledAtOrigin w l e ->
     let t := [LoadRangeSupported (w_seen w)] in
     originLimiter_acquire w l = Ret (inr e, t) /\
     held Base t = 0 /\ held Extra t = 0 /\
     forall rawURL budgets, w_global w = None ->
       fetchImageInfo lib w rawURL (Some l) budgets
       = Ret ((Info0, Some e), (Send Global :: t ++ [Recv Global])%list)).
Proof.
  assert (forall l e t, originLimiter_acquire w l = Ret (inr e, t) ->
            t = [LoadRangeSupported (w_seen w)] /\
            (w_origin3 w = SelDone e \/ w_origin2 w = Some e)) as Horigin.
  { intros l e t. unfold originLimiter_acquire, emit. rewrite tbind_Ret.
    destruct (w_seen w && _).
    - destruct (w_origin3 w); simpl; intros [= <- <-] || intros [=]; auto.
    - destruct (w_origin2 w); simpl; intros [= <- <-] || intros [=]; auto. }
  split; [|split; [|split; [|split; [|split]]]].
  - intros r t. unfold acquire, emit.
    destruct (w_global w) as [e|]; simpl; intros [= <- <-]; auto.
  - intros l r t. unfold originLimiter_acquire, emit. rewrite tbind_Ret.
    destruct (w_seen w && _).
    + destruct (w_origin3 w); simpl; intros [= <- <-]; auto.
    + destruct (w_origin2 w); simpl; intros [= <- <-]; auto.
  - intros e He. unfold fetchImageInfo, acquire. rewrite He. split; reflexivity.
  - intros l e t H. apply Horigin in H as [-> H]. repeat split; try assumption.
    intros s s'. simpl. destruct (Bool.eqb _ _); simpl; congruence.
  - intros l e t rawURL budgets Hg H T. subst T.
    unfold fetchImageInfo, acquire, release, emit. rewrite Hg, !tbind_Ret, H.
    apply Horigin in H as [-> _]. repeat split.
    intros s s'. simpl.
    unfold send. destruct (Z.ltb_spec (chanLen (globalLimiter s))
                             (chanCap (globalLimiter s))); [|discriminate].
    simpl. destruct (Bool.eqb _ _); [|discriminate]. simpl.
    unfold recv. simpl.
    destruct (Z.ltb_spec 0 (chanLen (globalLimiter s) + 1)); [|discriminate].
    simpl. intros [= <-]. apply gates_eta; [|reflexivity].
    apply chan_eta. lia.
  - intros l e He t. subst t. unfold cancelledAtOrigin in He.
    assert (originLimiter_acquire w l
            = Ret (inr e, [LoadRangeSupported (w_seen w)])) as Hacq.
    { unfold originLimiter_acquire, emit. rewrite tbind_Ret.
      destruct (w_seen w && _); rewrite He; reflexivity. }
    split; [exact Hacq|]. split; [reflexivity|]. split; [reflexivity|].
    intros rawURL budgets Hg.
    unfold fetchImageInfo, acquire, release, emit.
    rewrite Hg, !tbind_Ret, Hacq. reflexivity.
Qed.

(** * The batch orchestrator *)

(** ** Tasks return unless the sniffer panics *)

Lemma returns_Ret {A} (a : A) : returns (Ret a).
Proof. now exists a. Qed.

Lemma returns_tret {A} (a : A) : returns (tret a).
Proof. apply returns_Ret. Qed.

Lemma returns_tbind {A B} (m : task A) (k : A -> task B) :
  returns m -> (forall a t, m = Ret (a, t) -> returns (k a)) ->
  returns (tbind m k).
Proof.
  intros [[a t] ->] Hk. destruct (Hk a t eq_refl) as [[b t'] Hb].
  rewrite tbind_Ret, Hb. apply returns_Ret.
Qed.

Lemma returns_emit a : returns (emit a).
Proof. apply returns_Ret. Qed.

Create HintDb rets discriminated.
#[export] Hint Resolve returns_Ret returns_tret returns_emit : rets.

(** Peels binds, conditionals and matches off a goal [returns _]. *)
Ltac rets_step :=
  match goal with
  | |- returns (tbind _ _) => apply returns_tbind; [|intros ? ? ?]
  | |- returns (if ?c then _ else _) => destruct c eqn:?
  | |- returns (match ?x with _ => _ end) => destruct x eqn:?
  | |- returns _ => solve [auto with rets]
  end.
Ltac rets := repeat rets_step.

Lemma fetchImageInfoOnce_returns lib x rawURL size :
  sniffs x size -> returns (fetchImageInfoOnce lib x rawURL size).
Proof.
  intros Hx. unfold fetchImageInfoOnce, enableReusable.
  destruct x as [e|e|code status header now body]; rets.
  unfold lift. specialize (Hx _ _ _ _ _ _ eq_refl).
  match goal with
  | |- returns (bind (GetInfo ?p) _) =>
      pose proof (GetInfo_terminates p) as Ht;
      destruct (GetInfo p); [apply returns_Ret|now elim Hx|now elim Ht]
  end.
Qed.

Lemma progressiveFrom_returns lib X rawURL budgets :
  forall k info lastErr lastRead,
  (forall j size, budgets !! j = Some size -> sniffs (X (k + j)%nat) size) ->
  returns (progressiveFrom lib X rawURL budgets k info lastErr lastRead).
Proof.
  induction budgets as [|size rest IH]; intros k info lastErr lastRead HX;
    simpl.
  - apply returns_Ret.
  - assert (forall i e r, returns (progressiveFrom lib X rawURL rest (S k)
                                     i e r)) as Hrest.
    { intros. apply IH. intros j s Hj.
      replace (S k + j)%nat with (k + S j)%nat by lia. now apply HX. }
    destruct (size <? 80); [apply Hrest|].
    apply returns_tbind.
    + apply fetchImageInfoOnce_returns.
      specialize (HX 0%nat size eq_refl). now rewrite Nat.add_0_r in HX.
    + intros [[[[i ra] err] more] n] t _. rets.
Qed.

Lemma fetchImageInfoWithRetry_returns lib w rawURL budgets :
  (forall attempt k size,
     budgets !! k = Some size -> sniffs (w_http w attempt k) size) ->
  returns (fetchImageInfoWithRetry lib w rawURL budgets).
Proof.
  intros Hw.
  assert (forall attempt,
            returns (fetchImageInfoProgressive lib (w_http w attempt) rawURL
                       budgets)) as Hp.
  { intros attempt. apply progressiveFrom_returns. intros j size Hj.
    now apply Hw. }
  unfold fetchImageInfoWithRetry. simpl.
  apply returns_tbind; [apply Hp|]. intros [[i ra] err] t _.
  unfold sleepWithContext. rets.
Qed.

Lemma fetchImageInfo_returns lib w rawURL l budgets :
  (forall attempt k size,
     budgets !! k = Some size -> sniffs (w_http w attempt k) size) ->
  returns (fetchImageInfo lib w rawURL (Some l) budgets).
Proof.
  intros Hw. unfold fetchImageInfo, acquire, release, originLimiter_acquire.
  rets. apply fetchImageInfoWithRetry_returns, Hw.
Qed.

(** ** Grouping by origin *)

Section Batch.

Context (lib : GoLib).

Context (urls : list string).

Lemma grouped_start :
  grouped lib urls 0 (mkGrouping (replicate (length urls) Result0) ∅ []).
Proof.
  split; simpl.
  - apply length_replicate.
  - intros; lia.
  - intros j _ Hj. now apply lookup_replicate_2.
  - intros o items it H. now rewrite lookup_empty in H.
  - intros; lia.
  - intros o [x H]. now rewrite lookup_empty in H.
Qed.

Lemma slotUpdate_Ret i f (rs : list GetHTTPImageResult) r :
  rs !! i = Some r -> slotUpdate i f rs = Ret (<[i := f r]> rs).
Proof. unfold slotUpdate. now intros ->. Qed.

Lemma groupURL_grouped m st u :
  grouped lib urls m st -> urls !! m = Some u ->
  exists st', groupURL lib st m u = Ret st' /\ grouped lib urls (S m) st'.
Proof.
  intros G Hu. pose proof (lookup_lt_Some _ _ _ Hu) as Hm.
  pose proof (grouped_length _ _ _ _ G) as Hlen.
  unfold groupURL.
  rewrite (slotUpdate_Ret _ _ _ _ (grouped_todo _ _ _ _ G m (le_n _) Hm)).
  cbn [bind].
  assert (forall e, slotUpdate m (setError e)
                      (<[m := setURL u Result0]> (results_ st))
                    = Ret (<[m := mkResult (mkHTTPImageInfo u Info0) e]>
                             (results_ st))) as Hset.
  { intros e. erewrite slotUpdate_Ret
      by (apply list_lookup_insert_eq; lia).
    now rewrite list_insert_insert_eq. }
  assert (forall e j v,
            parseError lib u = e -> (j < S m)%nat -> urls !! j = Some v ->
            <[m := mkResult (mkHTTPImageInfo u Info0) e]> (results_ st) !! j
            = Some (parsedSlot lib v)) as Hdone.
  { intros e j v He Hj Hv.
    destruct (decide (j = m)) as [->|Hne].
    - rewrite list_lookup_insert_eq by lia.
      assert (v = u) as -> by congruence. unfold parsedSlot. now rewrite He.
    - rewrite list_lookup_insert_ne by auto.
      apply (grouped_done _ _ _ _ G); [lia|assumption]. }
  assert (forall e j, (S m <= j)%nat -> (j < length urls)%nat ->
            <[m := mkResult (mkHTTPImageInfo u Info0) e]> (results_ st) !! j
            = Some Result0) as Htodo.
  { intros e j Hj Hn. rewrite list_lookup_insert_ne by lia.
    apply (grouped_todo _ _ _ _ G); [lia|assumption]. }
  assert (forall e, parseError lib u = Some e ->
            grouped lib urls (S m)
              (mkGrouping (<[m := mkResult (mkHTTPImageInfo u Info0) (Some e)]>
                             (results_ st))
                          (originGroups st) (origins st))) as Hreject.
  { intros e He. split; simpl.
    - now rewrite length_insert.
    - intros j v Hj Hv. now apply Hdone.
    - apply Htodo.
    - intros o items it Ho Hit.
      destruct (grouped_items _ _ _ _ G o items it Ho Hit) as (? & ? & ?).
      repeat split; auto with lia.
    - intros j v Hj Hv Hok.
      destruct (decide (j = m)) as [->|Hne]; [congruence|].
      apply (grouped_all _ _ _ _ G); [lia|assumption..].
    - apply (grouped_origins _ _ _ _ G). }
  unfold parseError in Hreject.
  destruct (url_Parse lib u) as [parsed|err] eqn:Eparse.
  2:{ rewrite Hset. cbn [bind]. eexists. split; [reflexivity|].
      now apply Hreject. }
  destruct (String.eqb (Scheme parsed) "" || String.eqb (Host parsed) "")
    eqn:Eempty.
  { rewrite Hset. cbn [bind]. eexists. split; [reflexivity|].
    now apply Hreject. }
  eexists. split; [reflexivity|].
  assert (originOf lib u = Scheme parsed +:+ "://"
                       +:+ normalizeOriginHost lib (Some parsed)) as Ho.
  { unfold originOf. now rewrite Eparse. }
  rewrite <- Ho.
  assert (setURL u Result0 = mkResult (mkHTTPImageInfo u Info0) None) as ->
    by reflexivity.
  split; simpl.
  - now rewrite length_insert.
  - intros j v Hj Hv. apply Hdone; [|assumption..]. unfold parseError. now rewrite Eparse, Eempty.
  - apply Htodo.
  - intros o items it Hitems Hit.
    destruct (decide (o = originOf lib u)) as [->|Hne].
    + rewrite lookup_insert_eq in Hitems. injection Hitems as <-.
      apply elem_of_app in Hit as [Hit|Hit].
      * destruct (originGroups st !! originOf lib u) as [old|] eqn:Eold;
          simpl in Hit; [|now apply elem_of_nil in Hit].
        destruct (grouped_items _ _ _ _ G _ _ _ Eold Hit) as (? & ? & ?).
        repeat split; auto with lia.
      * apply list_elem_of_singleton in Hit as ->. simpl.
        repeat split; [lia|assumption|].
        unfold parseError. now rewrite Eparse, Eempty.
    + rewrite lookup_insert_ne in Hitems by auto.
      destruct (grouped_items _ _ _ _ G _ _ _ Hitems Hit) as (? & ? & ?).
      repeat split; auto with lia.
  - intros j v Hj Hv Hok.
    destruct (decide (j = m)) as [->|Hne].
    + assert (v = u) as -> by congruence.
      rewrite lookup_insert_eq. eexists. split; [reflexivity|].
      apply elem_of_app. right. now apply list_elem_of_singleton.
    + destruct (grouped_all _ _ _ _ G j v) as (items & Hitems & Hin);
        [lia|assumption..|].
      destruct (decide (originOf lib v = originOf lib u)) as [Heq|Hno].
      * rewrite Heq in *. rewrite lookup_insert_eq, Hitems. simpl.
        eexists. split; [reflexivity|]. apply elem_of_app. now left.
      * rewrite lookup_insert_ne by auto. eauto.
  - intros o Hsome.
    destruct (decide (o = originOf lib u)) as [->|Hne].
    + destruct (originGroups st !! originOf lib u) eqn:Eold.
      * apply (grouped_origins _ _ _ _ G). now rewrite Eold.
      * apply elem_of_app. right. now apply list_elem_of_singleton.
    + rewrite lookup_insert_ne in Hsome by auto.
      apply (grouped_origins _ _ _ _ G) in Hsome.
      destruct (originGroups st !! originOf lib u); [assumption|].
      apply elem_of_app. now left.
Qed.

Lemma groupURLs_grouped rest : forall m st,
  grouped lib urls m st -> (m + length rest = length urls)%nat ->
  (forall k u, rest !! k = Some u -> urls !! (m + k)%nat = Some u) ->
  exists st', groupURLs lib st m rest = Ret st' /\ grouped lib urls (length urls) st'.
Proof.
  induction rest as [|u rest IH]; intros m st G Hlen Hrest; simpl in *.
  - exists st. split; [reflexivity|]. now replace (length urls) with m by lia.
  - destruct (groupURL_grouped m st u G) as (st1 & -> & G1).
    { rewrite <- (Nat.add_0_r m). now apply Hrest. }
    cbn [bind]. apply IH; [assumption|lia|].
    intros k v Hk. replace (S m + k)%nat with (m + S k)%nat by lia.
    now apply Hrest.
Qed.

(** ** Workers and goroutines *)

Context (options : GetHTTPImageOptions).

Lemma makeWorkers_lookup os o :
  o ∈ os ->
  makeWorkers (normalizeHTTPImageOptions options) os !! o = Some (workerOf options).
Proof.
  unfold makeWorkers.
  enough (forall acc : gmap string originWorker,
            o ∈ os \/ acc !! o = Some (workerOf options) ->
            foldl (fun workers origin =>
                     <[origin := (workerOf options)]> workers) acc os !! o
            = Some (workerOf options)) as H by (intros; apply H; auto).
  induction os as [|x os IH]; intros acc [Hin|Hacc]; simpl.
  - now apply elem_of_nil in Hin.
  - assumption.
  - apply IH. apply elem_of_cons in Hin as [->|Hin]; [right|now left].
    apply lookup_insert_eq.
  - apply IH. right. destruct (decide (x = o)) as [->|Hne].
    + apply lookup_insert_eq.
    + now rewrite lookup_insert_ne.
Qed.

Lemma insertString_elem x s l : x ∈ insertString s l <-> x = s \/ x ∈ l.
Proof.
  induction l as [|y l IH]; simpl.
  - rewrite list_elem_of_singleton. split; [auto|]. intros [?|H]; [auto|].
    now apply elem_of_nil in H.
  - destruct (String.leb s y); rewrite !elem_of_cons; [tauto|].
    rewrite IH. tauto.
Qed.

Lemma sortStrings_elem x l : x ∈ sortStrings l <-> x ∈ l.
Proof.
  unfold sortStrings. induction l as [|y l IH]; simpl; [reflexivity|].
  rewrite insertString_elem, elem_of_cons, IH. reflexivity.
Qed.

Lemma spawnGroup_all (rs : list GetHTTPImageResult) wk group :
  (forall it, it ∈ group -> exists r, rs !! index_ it = Some r /\
                                      Error r = None) ->
  spawnGroup rs wk group = Ret (map (fun it => (it, wk)) group).
Proof.
  induction group as [|it group IH]; intros H; simpl; [reflexivity|].
  destruct (H it) as (r & -> & Hr); [apply list_elem_of_here|].
  rewrite IH by (intros; apply H; now apply list_elem_of_further).
  cbn [bind]. now rewrite Hr.
Qed.

Lemma spawnAll_spawnedOf st workers os :
  grouped lib urls (length urls) st ->
  spawnAll st workers os = Ret (spawnedOf st workers os).
Proof.
  intros G. induction os as [|o os IH]; simpl; [reflexivity|].
  rewrite spawnGroup_all, IH; [reflexivity|].
  intros it Hit.
  destruct (originGroups st !! o) as [items|] eqn:Eo; simpl in Hit;
    [|now apply elem_of_nil in Hit].
  destruct (grouped_items _ _ _ _ G _ _ _ Eo Hit) as (Hlt & Hu & Hok).
  rewrite (grouped_done _ _ _ _ G _ _ Hlt Hu). eexists. split; [reflexivity|].
  exact Hok.
Qed.

Lemma spawnedOf_started st g :
  grouped lib urls (length urls) st ->
  let os := sortStrings (origins st) in
  In g (spawnedOf st (makeWorkers (normalizeHTTPImageOptions options) os) os)
  -> started lib urls options g.
Proof.
  intros G os Hg. unfold spawnedOf in Hg.
  apply in_flat_map in Hg as (o & Ho & Hg).
  apply in_map_iff in Hg as (it & <- & Hit).
  apply list_elem_of_In in Ho, Hit.
  rewrite (makeWorkers_lookup _ _ Ho). simpl.
  destruct (originGroups st !! o) as [items|] eqn:Eo; simpl in Hit;
    [|now apply elem_of_nil in Hit].
  destruct (grouped_items _ _ _ _ G _ _ _ Eo Hit) as (? & ? & ?).
  repeat split; assumption.
Qed.

Lemma spawnedOf_all st j u :
  grouped lib urls (length urls) st ->
  urls !! j = Some u -> parseError lib u = None ->
  let os := sortStrings (origins st) in
  In (mkItem j u, (workerOf options))
     (spawnedOf st (makeWorkers (normalizeHTTPImageOptions options) os) os).
Proof.
  intros G Hu Hok os.
  destruct (grouped_all _ _ _ _ G j u) as (items & Hitems & Hin);
    [eauto using lookup_lt_Some|assumption..|].
  assert (originOf lib u ∈ os) as Ho.
  { apply sortStrings_elem, (grouped_origins _ _ _ _ G). now rewrite Hitems. }
  apply in_flat_map. exists (originOf lib u). split; [now apply list_elem_of_In|].
  rewrite (makeWorkers_lookup _ _ Ho), Hitems. simpl.
  apply in_map_iff. exists (mkItem j u). split; [reflexivity|].
  now apply list_elem_of_In.
Qed.

(** ** Completion of the goroutines *)

Context (W : nat -> taskWorld).

Lemma finishedSlot_idem j r :
  finishedSlot lib urls options W j (finishedSlot lib urls options W j r) = finishedSlot lib urls options W j r.
Proof.
  unfold finishedSlot. destruct (urls !! j); [|reflexivity].
  destruct (fetchImageInfo _ _ _ _ _) as [[[inf [e|]] t]| |]; reflexivity.
Qed.

Lemma finishedSlot_parsed j u :
  urls !! j = Some u -> parseError lib u = None -> sniffable W ->
  finishedSlot lib urls options W j (parsedSlot lib u) = probed lib options W j u.
Proof.
  intros Hu Hok HW. unfold finishedSlot, probed, parsedSlot.
  rewrite Hu, Hok.
  destruct (fetchImageInfo_returns lib (W j) u
              (newOriginLimiter
                 (ConcurrentRequestsNonReusable
                    (normalizeHTTPImageOptions options))
                 (ConcurrentRequestsReusable
                    (normalizeHTTPImageOptions options))) sizes)
    as [[[inf [e|]] t] Hr]; [intros; now apply HW| |];
    simpl; rewrite Hr; reflexivity.
Qed.

Lemma goroutine_finishes g (rs : list GetHTTPImageResult) :
  started lib urls options g -> sniffable W -> length rs = length urls ->
  exists r t, rs !! index_ (fst g) = Some r /\
    goroutine lib W g rs
    = Ret (<[index_ (fst g) := finishedSlot lib urls options W (index_ (fst g)) r]> rs, t).
Proof.
  destruct g as [[j u] wk]. intros (Hj & Hu & _ & Hwk) HW Hlen.
  simpl in *. subst wk.
  destruct (lookup_lt_is_Some_2 rs j) as [r Hr]; [lia|].
  unfold goroutine, finishedSlot. simpl. rewrite Hu.
  destruct (fetchImageInfo_returns lib (W j) u
              (newOriginLimiter
                 (ConcurrentRequestsNonReusable
                    (normalizeHTTPImageOptions options))
                 (ConcurrentRequestsReusable
                    (normalizeHTTPImageOptions options))) sizes)
    as [[[inf [e|]] t] Hf]; [intros; now apply HW| |];
    rewrite Hf; cbn [bind]; rewrite (slotUpdate_Ret _ _ _ _ Hr);
    cbn [bind]; eauto.
Qed.

Lemma finishAll_finishes gs : forall rs : list GetHTTPImageResult,
  (forall g, In g gs -> started lib urls options g) -> sniffable W ->
  length rs = length urls ->
  exists rs' log,
    finishAll lib W gs rs = Ret (rs', log) /\
    length rs' = length urls /\
    (forall j, rs' !! j = if decide (j ∈ slotsOf gs)
                          then finishedSlot lib urls options W j <$> rs !! j else rs !! j) /\
    (forall j a, In (j, a) log -> j ∈ slotsOf gs).
Proof.
  induction gs as [|g gs IH]; intros rs Hgs HW Hlen; simpl.
  - exists rs, []. repeat split; auto. intros j a [].
  - destruct (goroutine_finishes g rs) as (r & t & Hr & ->);
      [apply Hgs; now left|assumption..|].
    cbn [bind].
    destruct (IH (<[index_ (fst g) := finishedSlot lib urls options W (index_ (fst g)) r]> rs))
      as (rs' & log & -> & Hlen' & Hslots & Hlog);
      [intros; apply Hgs; now right|assumption|now rewrite length_insert|].
    cbn [bind]. eexists _, _. split; [reflexivity|].
    split; [assumption|]. split.
    + intros j. rewrite Hslots.
      change (slotsOf (g :: gs)) with (index_ (fst g) :: slotsOf gs).
      destruct (decide (j = index_ (fst g))) as [->|Hne].
      * rewrite list_lookup_insert_eq by eauto using lookup_lt_Some.
        rewrite Hr.
        destruct (decide (index_ (fst g) ∈ slotsOf gs));
          rewrite decide_True by apply list_elem_of_here;
          simpl; now rewrite ?finishedSlot_idem.
      * rewrite list_lookup_insert_ne by auto.
        destruct (decide (j ∈ slotsOf gs)) as [Hin|Hout].
        -- rewrite decide_True; [reflexivity|now apply list_elem_of_further].
        -- rewrite decide_False; [reflexivity|].
           intros [?|?]%elem_of_cons; auto.
    + intros j a Hin. apply in_app_or in Hin as [Hin|Hin].
      * apply in_map_iff in Hin as (a' & [= <- <-] & _).
        apply list_elem_of_here.
      * apply list_elem_of_further. eauto.
Qed.

(** ** The batch as a whole *)

(** The goroutines the batch starts: one for every URL that parsed, none
    for the others. *)
Lemma startGoroutines_started :
  exists rs spawned,
    startGoroutines lib urls (normalizeHTTPImageOptions options)
      = Ret (rs, spawned) /\
    length rs = length urls /\
    (forall g, In g spawned -> started lib urls options g) /\
    forall j u, urls !! j = Some u ->
      rs !! j = Some (parsedSlot lib u) /\
      match parseError lib u with
      | Some _ => j ∉ slotsOf spawned
      | None => In (mkItem j u, workerOf options) spawned
      end.
Proof.
  unfold startGoroutines.
  destruct (groupURLs_grouped urls 0
              (mkGrouping (replicate (length urls) Result0) ∅ []))
    as (st & -> & G); [apply grouped_start|reflexivity|auto|].
  cbn [bind]. rewrite (spawnAll_spawnedOf _ _ _ G). cbn [bind].
  eexists _, _. split; [reflexivity|].
  split; [apply (grouped_length _ _ _ _ G)|].
  split; [intros g; apply (spawnedOf_started st g G)|].
  intros j u Hu. pose proof (lookup_lt_Some _ _ _ Hu) as Hj.
  split; [apply (grouped_done _ _ _ _ G j u Hj Hu)|].
  destruct (parseError lib u) as [e|] eqn:Eparse.
  - intros Hin. apply list_elem_of_fmap in Hin as (g & -> & Hg).
    apply list_elem_of_In, (spawnedOf_started st g G) in Hg
      as (_ & Hg & Hok & _).
    congruence.
  - now apply spawnedOf_all.
Qed.

Lemma batch_results (order : list (item * originWorker)
                             -> list (item * originWorker)) :
  (forall l, Permutation (order l) l) -> sniffable W ->
  exists results log,
    GetHTTPImageDataWithOptions lib W order urls options
      = Ret (results, log) /\
    length results = length urls /\
    forall j u, urls !! j = Some u ->
      match parseError lib u with
      | Some _ => results !! j = Some (parsedSlot lib u) /\
                  forall a, ~ In (j, a) log
      | None => results !! j = Some (probed lib options W j u)
      end.
Proof.
  intros Horder HW. unfold GetHTTPImageDataWithOptions.
  destruct (Nat.eqb_spec (length urls) 0) as [Hn|Hn].
  { eexists _, _. split; [reflexivity|]. split; [apply length_replicate|].
    intros j u Hu. apply lookup_lt_Some in Hu. lia. }
  destruct startGoroutines_started
    as (rs & spawned & -> & Hrs & Hspawned & Hslot).
  cbn [bind].
  assert (forall g, In g (order spawned) -> started lib urls options g)
    as Hstarted.
  { intros g Hg. apply Hspawned.
    eapply Permutation_in; [apply Horder|exact Hg]. }
  destruct (finishAll_finishes (order spawned) rs Hstarted HW Hrs)
    as (rs' & log & -> & Hlen & Hslots & Hlog).
  exists rs', log. split; [reflexivity|]. split; [assumption|].
  intros j u Hu. destruct (Hslot j u Hu) as [Hj Hgo].
  rewrite Hslots, Hj.
  destruct (parseError lib u) as [e|] eqn:Eparse.
  - assert (j ∉ slotsOf (order spawned)) as Hout.
    { intros Hin. apply Hgo.
      apply list_elem_of_fmap in Hin as (g & -> & Hg).
      apply list_elem_of_fmap. exists g. split; [reflexivity|].
      apply list_elem_of_In. apply list_elem_of_In in Hg.
      eapply Permutation_in; [apply Horder|exact Hg]. }
    rewrite decide_False by assumption. split; [reflexivity|].
    intros a Ha. apply Hout. eauto.
  - rewrite decide_True.
    + simpl. now rewrite finishedSlot_parsed.
    + apply list_elem_of_fmap. exists (mkItem j u, (workerOf options)).
      split; [reflexivity|]. apply list_elem_of_In.
      eapply Permutation_in; [symmetry; apply Horder|exact Hgo].
Qed.

End Batch.

(** ** Sample schedules and worlds *)

Lemma rev_schedule {A} (l : list A) : Permutation (rev l) l.
Proof. symmetry. apply Permutation_rev. Qed.

Lemma sniffable_gifPartial : sniffable (fun _ => worldOf gifPartial).
Proof.
  intros i attempt k size Hk code status header now stream slack H.
  injection H as <- <- <- <- <- <-.
  destruct k as [|[|[|[|[|k]]]]]; simpl in Hk; try discriminate;
    injection Hk as <-; vm_compute; discriminate.
Qed.

(** ** Slots of the results *)

(** The slot of a finished task holds what its fetch returned. *)
Lemma probed_returned lib options W j u :
  sniffable W ->
  exists inf err t,
    fetchImageInfo lib (W j) u (worker_limiter (workerOf options)) sizes
      = Ret ((inf, err), t) /\
    probed lib options W j u =
      match err with
      | None => mkResult (mkHTTPImageInfo u inf) None
      | Some e => mkResult (mkHTTPImageInfo u Info0) (Some e)
      end.
Proof.
  intros HW. unfold probed.
  destruct (fetchImageInfo_returns lib (W j) u
              (newOriginLimiter
                 (ConcurrentRequestsNonReusable
                    (normalizeHTTPImageOptions options))
                 (ConcurrentRequestsReusable
                    (normalizeHTTPImageOptions options))) sizes)
    as [[[inf err] t] Hr]; [intros; now apply HW|].
  simpl. rewrite Hr. exists inf, err, t. split; [reflexivity|].
  now destruct err.
Qed.

Lemma malformed_parseError lib u e :
  malformed lib u e -> parseError lib u = Some e.
Proof.
  unfold parseError. intros [->|(parsed & -> & Hempty & ->)]; [reflexivity|].
  destruct Hempty as [-> | ->]; simpl; [reflexivity|].
  now rewrite orb_true_r.
Qed.

Lemma wellFormed_parseError lib u :
  wellFormed lib u -> parseError lib u = None.
Proof.
  unfold parseError. intros (parsed & -> & Hs & Hh).
  apply String.eqb_neq in Hs, Hh. now rewrite Hs, Hh.
Qed.

(** X30. In every world in which the sniffer does not panic on a body it
    is given, whatever the options and in whatever order the goroutines
    finish, the batch returns a slice of the length of the input whose
    slot [i] carries the URL [urls[i]]; on the empty list it performs no
    action.  A URL that fails to parse, or whose scheme or host is empty,
    gets the parse error in its slot; no goroutine is started for it and
    no action is performed for its slot -- no request and no send on a
    gate.  Every well-formed URL has its goroutine and, in its slot, what
    its own fetch returned. *)
Theorem GetHTTPImageDataWithOptions_slots (lib : GoLib) W order urls options :
  (forall l, Permutation (order l) l) -> sniffable W ->
  exists started results log,
    startGoroutines lib urls (normalizeHTTPImageOptions options)
      = Ret started /\
    GetHTTPImageDataWithOptions lib W order urls options
      = Ret (results, log) /\
    length results = length urls /\
    (urls = [] -> log = []) /\
    (forall i u, urls !! i = Some u ->
       exists r, results !! i = Some r /\ URL (httpImageInfo r) = u) /\
    (forall i u e, urls !! i = Some u -> malformed lib u e ->
       results !! i = Some (mkResult (mkHTTPImageInfo u Info0) (Some e)) /\
       (i ∉ slotsOf (snd started)) /\
       (forall a, ~ In (i, a) log)) /\
    (forall j v, urls !! j = Some v -> wellFormed lib v ->
       In (mkItem j v, workerOf options) (snd started) /\
       exists inf err t,
         fetchImageInfo lib (W j) v (worker_limiter (workerOf options)) sizes
           = Ret ((inf, err), t) /\
         results !! j = Some
           match err with
           | None => mkResult (mkHTTPImageInfo v inf) None
           | Some e' => mkResult (mkHTTPImageInfo v Info0) (Some e')
           end).
Proof.
  intros Horder HW.
  destruct (startGoroutines_started lib urls options)
    as (rs & spawned & Hstart & _ & _ & Hgo).
  destruct (batch_results lib urls options W order Horder HW)
    as (results & log & Hrun & Hlen & Hslots).
  exists (rs, spawned), results, log.
  split; [assumption|]. split; [assumption|]. split; [assumption|].
  split; [|split; [|split]].
  - intros ->. change (Ret ([], []) = Ret (results, log)) in Hrun.
    now injection Hrun as _ <-.
  - intros i u Hu. specialize (Hslots i u Hu).
    destruct (parseError lib u).
    + destruct Hslots as [-> _]. eexists. split; reflexivity.
    + rewrite Hslots. eexists. split; [reflexivity|].
      destruct (probed_returned lib options W i u HW)
        as (inf & err & t & _ & ->).
      now destruct err.
  - intros i u e Hu Hbad.
    pose proof (Hslots i u Hu) as Hi. pose proof (Hgo i u Hu) as [_ Hnone].
    rewrite (malformed_parseError _ _ _ Hbad) in Hi, Hnone.
    destruct Hi as [Hi Hlog].
    split; [|split; assumption].
    rewrite Hi. unfold parsedSlot.
    now rewrite (malformed_parseError _ _ _ Hbad).
  - intros j v Hv Hok. specialize (Hslots j v Hv).
    pose proof (Hgo j v Hv) as [_ Hsome].
    rewrite (wellFormed_parseError _ _ Hok) in Hslots, Hsome.
    split; [assumption|].
    destruct (probed_returned lib options W j v HW)
      as (inf & err & t & Hf & Hp).
    exists inf, err, t. split; [assumption|]. now rewrite Hslots, Hp.
Qed.

Lemma GetHTTPImageDataWithOptions_slots_witness :
  exists started results log,
    startGoroutines sampleLib sampleURLs
      (normalizeHTTPImageOptions (mkOptions 0 0 0)) = Ret started /\
    GetHTTPImageDataWithOptions sampleLib (fun _ => worldOf gifPartial)
      (@rev _) sampleURLs (mkOptions 0 0 0) = Ret (results, log) /\
    length results = length sampleURLs /\
    (sampleURLs = [] -> log = []) /\
    (forall i u, sampleURLs !! i = Some u ->
       exists r, results !! i = Some r /\ URL (httpImageInfo r) = u) /\
    (forall i u e, sampleURLs !! i = Some u -> malformed sampleLib u e ->
       results !! i = Some (mkResult (mkHTTPImageInfo u Info0) (Some e)) /\
       (i ∉ slotsOf (snd started)) /\
       (forall a, ~ In (i, a) log)) /\
    (forall j v, sampleURLs !! j = Some v -> wellFormed sampleLib v ->
       In (mkItem j v, workerOf (mkOptions 0 0 0)) (snd started) /\
       exists inf err t,
         fetchImageInfo sampleLib (worldOf gifPartial) v
           (worker_limiter (workerOf (mkOptions 0 0 0))) sizes
           = Ret ((inf, err), t) /\
         results !! j = Some
           match err with
           | None => mkResult (mkHTTPImageInfo v inf) None
           | Some e' => mkResult (mkHTTPImageInfo v Info0) (Some e')
           end).
Proof.
  apply (GetHTTPImageDataWithOptions_slots sampleLib
           (fun _ => worldOf gifPartial) (@rev _) sampleURLs
           (mkOptions 0 0 0)).
  - intros l. apply rev_schedule.
  - apply sniffable_gifPartial.
Defined.

(** ** Instances of the fetch pipeline *)

(** A server that always answers 429 with [Retry-After: 1]: one sleep of
    one second, one more run, and the rate-limit error of the second run. *)
Lemma fetchImageInfoWithRetry_spec_witness :
  fetchImageInfoWithRetry sampleLib (worldOf tooMany) "http://a.example/x"
    sizes
  = Ret ((Info0,
          Some (RetryAfterError "http://a.example/x" 429
                  "429 Too Many Requests" 1000000000)),
         [Request "http://a.example/x" 1024; Sleep 1000000000 false;
          Request "http://a.example/x" 1024]).
Proof.
  refine (proj2 (proj2 (proj2
           (fetchImageInfoWithRetry_spec sampleLib (worldOf tooMany)
              "http://a.example/x" sizes Info0 1000000000
              (Some (RetryAfterError "http://a.example/x" 429
                       "429 Too Many Requests" 1000000000))
              [Request "http://a.example/x" 1024] _)))
           (RetryAfterError "http://a.example/x" 429
              "429 Too Many Requests" 1000000000)
           Info0 1000000000
           (Some (RetryAfterError "http://a.example/x" 429
                    "429 Too Many Requests" 1000000000))
           [Request "http://a.example/x" 1024] _ _ _ _).
  - vm_compute. reflexivity.
  - reflexivity.
  - lia.
  - reflexivity.
  - vm_compute. reflexivity.
Defined.

(** A budget of 10 is skipped; a 404 ends the sequence with a status
    error; a GIF served with 206 is resolved by the first request. *)
Lemma fetchImageInfoProgressive_rounds_witness :
  progressiveFrom sampleLib (fun _ => gifPartial) "u" (10 :: sizes) 0 Info0
    None 0
  = progressiveFrom sampleLib (fun _ => gifPartial) "u" sizes 1 Info0 None 0
  /\
  (exists ra e,
     progressiveFrom sampleLib (fun _ => notFound) "u" sizes 0 Info0 None 0
     = Ret ((Info0, ra, Some e), [Request "u" 1024]) /\
     statusFields e = Some ("u", 404, "404 Not Found")) /\
  progressiveFrom sampleLib (fun _ => gifPartial) "u" sizes 0 Info0 None 0
  = Ret ((mkInfo GIF 60 40, 0, None),
         [Request "u" 1024; StoreRangeSupported]).
Proof.
  split; [|split].
  - apply (proj1 (fetchImageInfoProgressive_rounds sampleLib
                    (fun _ => gifPartial) "u" 10 sizes 0 Info0 None 0)).
    lia.
  - apply (proj1 (proj2 (fetchImageInfoProgressive_rounds sampleLib
                           (fun _ => notFound) "u" 1024
                           [4096; 16384; 65536; 262144] 0 Info0 None 0))
             ltac:(lia) 404 "404 Not Found" "" 0 (ReadAll [] []));
      [reflexivity|lia|lia].
  - pose proof (proj1 (proj2 (proj2 (fetchImageInfoProgressive_rounds
                   sampleLib (fun _ => gifPartial) "u" 1024
                   [4096; 16384; 65536; 262144] 0 Info0 None 0)))
                  ltac:(lia) 206 "206 Partial Content" "" 0
                  (padded 100 gifHeader) [] eq_refl (or_intror eq_refl))
      as (_ & _ & H).
    apply (H ltac:(vm_compute; discriminate) (mkInfo GIF 60 40)).
    vm_compute. reflexivity.
Defined.

(** A task that reads the flag as true on a limiter with an extra tier
    and takes a slot of it. *)
Lemma originLimiter_rangeSupported_witness :
  originLimiter_acquire (worldExtra gifPartial) (newOriginLimiter 5 20)
    = Ret (inl Extra, [LoadRangeSupported true; Send Extra]) /\
  w_seen (worldExtra gifPartial) = true /\
  extra (newOriginLimiter 5 20) <> None /\
  In StoreRangeSupported [Request "u" 1024; StoreRangeSupported].
Proof.
  pose proof (originLimiter_rangeSupported sampleLib)
    as (_ & H206 & _ & _ & Htier & _).
  split; [reflexivity|].
  destruct (Htier (worldExtra gifPartial) (newOriginLimiter 5 20) Extra
              [LoadRangeSupported true; Send Extra] eq_refl)
    as (_ & _ & Hextra & _).
  destruct (Hextra eq_refl) as (Hseen & Hsome & _).
  split; [exact Hseen|]. split; [exact Hsome|].
  apply (H206 "206 Partial Content" "" 0 (ReadAll (padded 100 gifHeader) [])
           "u" 1024 (mkInfo GIF 60 40, 0, None, false, 100)).
  vm_compute. reflexivity.
Defined.

(** A task whose context ends while it waits for the origin gate: it
    returns the context's error and has given the global slot back. *)
Lemma acquisition_cancelled_witness :
  fetchImageInfo sampleLib worldCancelled "u" (Some (newOriginLimiter 5 20))
    sizes
  = Ret ((Info0, Some (ContextError "context canceled")),
         [Send Global; LoadRangeSupported true; Recv Global]) /\
  held Global [Send Global; LoadRangeSupported true; Recv Global] = 0.
Proof.
  pose proof (proj2 (proj2 (proj2 (proj2 (proj2
                  (acquisition_cancelled sampleLib worldCancelled)))))
                (newOriginLimiter 5 20) (ContextError "context canceled")
                eq_refl)
    as (_ & _ & _ & H).
  split; [exact (H "u" sizes eq_refl)|reflexivity].
Defined.

(** * Panics of the sniffer *)

Lemma safe_Ret {A} (a : A) : safe (Ret a).
Proof. discriminate. Qed.

Lemma safe_bind {A B} (m : outcome A) (k : A -> outcome B) :
  safe m -> (forall a, m = Ret a -> safe (k a)) -> safe (bind m k).
Proof.
  intros Hm Hk. destruct m as [a| |]; simpl.
  - now apply Hk.
  - now elim Hm.
  - discriminate.
Qed.

Lemma safe_index b i : 0 <= i < len b -> safe (index b i).
Proof.
  intros Hi. unfold index, len in *.
  destruct (Z.leb_spec 0 i); [|lia]. destruct (Z.ltb_spec i (Z.of_nat (length (vis b)))); [|lia].
  simpl. destruct (nth_error (vis b) (Z.to_nat i)) eqn:E; [discriminate|].
  apply nth_error_None in E. lia.
Qed.

Lemma safe_get b i : 0 <= i < len b -> safe (get b i).
Proof.
  intros Hi. unfold get. apply safe_bind; [now apply safe_index|discriminate].
Qed.

Lemma safe_at_is b i c : 0 <= i < len b -> safe (at_is b i c).
Proof.
  intros Hi. unfold at_is.
  apply safe_bind; [now apply safe_index|discriminate].
Qed.

Lemma safe_reslice b i j : 0 <= i <= j -> j <= cap b -> safe (reslice b i j).
Proof.
  intros Hi Hj. unfold reslice.
  destruct (Z.leb_spec 0 i); [|lia]. destruct (Z.leb_spec i j); [|lia].
  destruct (Z.leb_spec j (cap b)); [|lia]. discriminate.
Qed.

Lemma safe_andM a b : safe a -> (a = Ret true -> safe b) -> safe (a &&& b).
Proof.
  intros Ha Hb. unfold andM. apply safe_bind; [assumption|].
  intros [|] E; [now apply Hb|discriminate].
Qed.

Lemma safe_orM a b : safe a -> (a = Ret false -> safe b) -> safe (a ||| b).
Proof.
  intros Ha Hb. unfold orM. apply safe_bind; [assumption|].
  intros [|] E; [discriminate|now apply Hb].
Qed.

Lemma safe_loop {S R} (I : S -> Prop) (body : S -> outcome (step S R)) :
  (forall s, I s -> safe (body s)) ->
  (forall s s', I s -> body s = Ret (Next s') -> I s') ->
  forall fuel s, I s -> safe (loop fuel body s).
Proof.
  intros Hs Hn. induction fuel as [|fuel IH]; intros s HI; simpl;
    [discriminate|].
  specialize (Hs s HI). destruct (body s) as [[s'|r]| |] eqn:E.
  - eapply IH, Hn; eauto.
  - discriminate.
  - now elim Hs.
  - discriminate.
Qed.

Lemma len_cap b : 0 <= len b <= cap b.
Proof. unfold len, cap. lia. Qed.

(** Turns boolean comparisons among the hypotheses into propositions. *)
Ltac bools :=
  repeat match goal with
    | H : (_ && _) = true |- _ => apply andb_true_iff in H as [? ?]
    | H : (_ || _) = false |- _ => apply orb_false_iff in H as [? ?]
    | H : negb _ = true |- _ => apply negb_true_iff in H
    | H : negb _ = false |- _ => apply negb_false_iff in H
    | H : (_ <? _) = true |- _ => apply Z.ltb_lt in H
    | H : (_ <? _) = false |- _ => apply Z.ltb_ge in H
    | H : (_ <=? _) = true |- _ => apply Z.leb_le in H
    | H : (_ <=? _) = false |- _ => apply Z.leb_gt in H
    | H : (_ =? _) = true |- _ => apply Z.eqb_eq in H
    | H : (_ =? _) = false |- _ => apply Z.eqb_neq in H
    | H : Ret _ = Ret _ |- _ => injection H as H
    end.

(** Peels a goal [safe _]; index and slice bounds go to [lia]. *)
Ltac safe_step :=
  match goal with
  | |- safe (Ret _) => apply safe_Ret
  | |- safe (bind _ _) => apply safe_bind; [|intros ? ?]
  | |- safe (_ &&& _) => apply safe_andM; [|intros ?]
  | |- safe (_ ||| _) => apply safe_orM; [|intros ?]
  | |- safe (index _ _) => apply safe_index; bools; lia
  | |- safe (get _ _) => apply safe_get; bools; lia
  | |- safe (at_is _ _ _) => apply safe_at_is; bools; lia
  | |- safe (if ?c then _ else _) => destruct c eqn:?
  | |- safe (match ?x with _ => _ end) => destruct x eqn:?
  end.
Ltac safety := repeat safe_step.

Lemma safe_word4 b k0 k1 k2 k3 :
  0 <= k0 < len b -> 0 <= k1 < len b -> 0 <= k2 < len b -> 0 <= k3 < len b ->
  safe (word4 b k0 k1 k2 k3).
Proof. intros. unfold word4. safety. Qed.

Lemma safe_word2 b k0 k1 :
  0 <= k0 < len b -> 0 <= k1 < len b -> safe (word2 b k0 k1).
Proof. intros. unfold word2. safety. Qed.

Lemma safe_Uint16 (o : byteOrder) b :
  o = littleEndian \/ o = bigEndian -> 2 <= len b -> safe (Uint16 b).
Proof. intros [-> | ->] Hb; simpl; safety. Qed.

Lemma safe_Uint32 (o : byteOrder) b :
  o = littleEndian \/ o = bigEndian -> 4 <= len b -> safe (Uint32 b).
Proof. intros [-> | ->] Hb; simpl; safety. Qed.

Lemma safe_readUint64 b : 8 <= len b -> safe (readUint64 b).
Proof. intros Hb. unfold readUint64. safety. Qed.

Lemma safe_isAVIFBrand b : safe (isAVIFBrand b).
Proof.
  unfold isAVIFBrand.
  destruct (Z.leb_spec 4 (len b)) as [Hb|Hb].
  - safety.
  - unfold andM at 4. simpl. discriminate.
Qed.

(** The signature tests index below 12; [GetType] and [GetInfo] call them
    on slices of at least 80 bytes.  Each is safe on any slice, as its
    length test comes first. *)
Lemma andM_true a b : a &&& b = Ret true -> a = Ret true /\ b = Ret true.
Proof.
  unfold andM. destruct a as [[|]| |]; simpl; try discriminate. auto.
Qed.

(** Recovers the length test at the head of a chain of [&&&]. *)
Ltac length_test :=
  repeat match goal with
    | H : _ &&& _ = Ret true |- _ => apply andM_true in H as [H _]
    end;
  bools.

Lemma safe_has b :
  Forall (fun m : outcome bool => safe m)
    [hasJPEG b; hasPNG b; hasWEBP b; hasGIF b; hasBMP b; hasXBM b;
     hasXPM b; hasTIFFBig b; hasTIFFLittle b; hasPSD b; hasMNG b; hasRGB b;
     hasRAS b; hasPCX b].
Proof.
  repeat constructor.
  all: unfold hasJPEG, hasPNG, hasWEBP, hasGIF, hasBMP, hasXBM, hasXPM,
       hasTIFFBig, hasTIFFLittle, hasPSD, hasMNG, hasRGB, hasRAS, hasPCX.
  all: repeat first
         [ apply safe_Ret
         | apply safe_andM; [|intros ?]
         | apply safe_orM; [|intros ?]
         | apply safe_at_is; length_test; lia ].
Qed.

Lemma orM_false a b : a ||| b = Ret false -> a = Ret false /\ b = Ret false.
Proof.
  unfold orM. destruct a as [[|]| |]; simpl; try discriminate. auto.
Qed.

Lemma safe_hasPPM b : safe (hasPPM b).
Proof.
  unfold hasPPM. apply safe_bind.
  - apply safe_orM; [apply safe_Ret|]. intros H. bools. safety.
  - intros [|] H; [apply safe_Ret|].
    apply orM_false in H as [H _]. bools. safety.
Qed.

(** Resolves the length of a slice obtained by re-slicing. *)
Ltac lens :=
  repeat match goal with
    | H : reslice _ _ _ = Ret _ |- _ => apply reslice_Ret in H
    end.

Lemma safe_ftypHasAVIF b header : 0 <= header -> safe (ftypHasAVIF b header).
Proof.
  intros Hh. unfold ftypHasAVIF. pose proof (len_cap b).
  destruct (Z.ltb_spec (len b) (header + 8)); [apply safe_Ret|].
  apply safe_bind; [apply safe_reslice; lia|]. intros major _.
  apply safe_bind; [apply safe_isAVIFBrand|]. intros [|] _; [apply safe_Ret|].
  apply (safe_loop (fun i => 0 <= i)); [| |lia].
  - intros i Hi. destruct (Z.leb_spec (i + 4) (len b)); [|apply safe_Ret].
    apply safe_bind; [apply safe_reslice; lia|]. intros brand _.
    apply safe_bind; [apply safe_isAVIFBrand|]. intros [|] _; apply safe_Ret.
  - intros i i' Hi. destruct (i + 4 <=? len b); [|discriminate].
    intros Hb. inv_ret. lia.
Qed.

Lemma safe_hasAVIFFtyp b : safe (hasAVIFFtyp b).
Proof.
  unfold hasAVIFFtyp. pose proof (len_cap b).
  apply (safe_loop (fun i => 0 <= i)); [| |lia].
  - intros i Hi. destruct (Z.leb_spec (i + 8) (len b)); [|apply safe_Ret].
    apply safe_bind; [apply safe_reslice; lia|]. intros s4 Hs4.
    apply safe_bind; [apply safe_Uint32; [now right|lens; lia]|].
    intros size32 _.
    apply safe_bind.
    { destruct (size32 =? 1); [|destruct (size32 =? 0); apply safe_Ret].
      destruct (Z.ltb_spec (len b) (i + 16)); [apply safe_Ret|].
      apply safe_bind; [apply safe_reslice; lia|]. intros s8 Hs8.
      apply safe_bind; [apply safe_readUint64; lens; lia|]. intros size64 _.
      destruct (_ || _); apply safe_Ret. }
    intros [[size header]|] Hsh; [|apply safe_Ret].
    assert (8 <= header) as Hheader.
    { destruct (size32 =? 1).
      - destruct (len b <? i + 16); [discriminate|].
        apply bind_Ret_inv in Hsh as (s8 & _ & Hsh).
        apply bind_Ret_inv in Hsh as (size64 & _ & Hsh).
        destruct (_ || _); [discriminate|]. injection Hsh as <- <-. lia.
      - destruct (size32 =? 0); injection Hsh as <- <-; lia. }
    destruct (Z.ltb_spec size header); [apply safe_Ret|].
    destruct (Z.ltb_spec (len b) (i + size)); [apply safe_Ret|].
    apply safe_bind.
    { repeat (apply safe_andM; [|intros _]); apply safe_at_is; lia. }
    intros [|] _; [|apply safe_Ret].
    apply safe_bind; [apply safe_reslice; lia|]. intros box _.
    apply safe_bind; [apply safe_ftypHasAVIF; lia|]. intros r _.
    apply safe_Ret.
  - intros i i' Hi Hb.
    destruct (i + 8 <=? len b); [|discriminate].
    apply bind_Ret_inv in Hb as (s4 & _ & Hb).
    apply bind_Ret_inv in Hb as (size32 & _ & Hb).
    apply bind_Ret_inv in Hb as ([[size header]|] & Hsh & Hb);
      [|discriminate].
    assert (8 <= header) as Hheader.
    { destruct (size32 =? 1).
      - destruct (len b <? i + 16); [discriminate|].
        apply bind_Ret_inv in Hsh as (s8 & _ & Hsh).
        apply bind_Ret_inv in Hsh as (size64 & _ & Hsh).
        destruct (_ || _); [discriminate|]. injection Hsh as <- <-. lia.
      - destruct (size32 =? 0); injection Hsh as <- <-; lia. }
    destruct (Z.ltb_spec size header); [discriminate|].
    destruct (len b <? i + size); [discriminate|].
    apply bind_Ret_inv in Hb as ([|] & _ & Hb).
    + inv_ret.
    + injection Hb as <-. lia.
Qed.

Lemma safe_switch {A} (cases : list (outcome bool * outcome A)) d :
  Forall (fun c => safe (fst c) /\ (fst c = Ret true -> safe (snd c))) cases ->
  safe d -> safe (switch cases d).
Proof.
  intros Hc Hd. induction Hc as [|[g body] rest [Hg Hb] _ IH]; simpl;
    [assumption|].
  apply safe_bind; [assumption|]. intros [|] E; [now apply Hb|assumption].
Qed.

Lemma returns_safe {A} (m : outcome A) : terminates m -> safe m -> returns m.
Proof.
  intros Ht Hs. destruct m as [a| |]; [now exists a|now elim Hs|now elim Ht].
Qed.

(** X1. [GetType] returns on every slice: it neither panics nor runs on. *)
Theorem GetType_returns p : exists t, GetType p = Ret t.
Proof.
  apply returns_safe; [apply GetType_terminates|].
  unfold GetType, minOffset.
  destruct (Z.ltb_spec (len p) 80); [apply safe_Ret|].
  apply safe_bind; [apply safe_index; lia|]. intros _ _.
  pose proof (safe_has p) as Hhas. rewrite !Forall_cons in Hhas.
  destruct_and!.
  apply safe_switch; [|apply safe_Ret].
  repeat (apply List.Forall_cons;
          [cbn [fst snd]; split; [|intros _; apply safe_Ret]|]);
    first [assumption | apply safe_hasPPM | apply safe_hasAVIFFtyp
          | apply List.Forall_nil].
Qed.

(** ** The scanning helpers stay inside the slice *)

Lemma skipSpace_range b i j :
  skipSpace b i = Ret j -> 0 <= i <= len b -> i <= j <= len b.
Proof.
  unfold skipSpace. intros H Hi. apply bind_Ret_inv in H as (_ & _ & H).
  revert H.
  apply (loop_invariant (fun j => i <= j <= len b) (fun j => i <= j <= len b)
           (fun j => if j <? len b
                     then let* c := index b j in
                          if negb (isSpace c) then Ret (Done j)
                          else Ret (Next (j + 1))
                     else Ret (Done j))); [| |lia].
  - intros s s' Hs Hb. destruct (Z.ltb_spec s (len b)); [|discriminate].
    inv_ret. lia.
  - intros s r Hs Hb. destruct (Z.ltb_spec s (len b)); inv_ret; lia.
Qed.

Lemma safe_skipSpace b i : 0 < len b -> 0 <= i -> safe (skipSpace b i).
Proof.
  intros Hb Hi. unfold skipSpace.
  apply safe_bind; [apply safe_index; lia|]. intros _ _.
  apply (safe_loop (fun j => 0 <= j)); [| |lia].
  - intros j Hj. destruct (Z.ltb_spec j (len b)); safety.
  - intros j j' Hj Hbody. destruct (j <? len b); inv_ret. lia.
Qed.

Lemma parseUint32_range b i n j :
  parseUint32 b i = Ret (n, j) -> 0 <= i <= len b -> i <= j <= len b.
Proof.
  unfold parseUint32. intros H Hi. apply bind_Ret_inv in H as (_ & _ & H).
  change (i <= snd (n, j) <= len b). revert H.
  apply (loop_invariant (fun s : Z * Z => i <= snd s <= len b)
           (fun r : Z * Z => i <= snd r <= len b)
           (fun '(n, j) =>
              if j <? len b then
                let* c := get b j in
                let x := uint32 (uint8 (c - 48)) in
                if 9 <? x then Ret (Done (n, j))
                else Ret (Next (uint32 (n * 10 + x), j + 1))
              else Ret (Done (n, j)))); [| |simpl; lia].
  - intros [n0 j0] [n1 j1] Hs Hb. simpl in *.
    destruct (Z.ltb_spec j0 (len b)); [|discriminate]. inv_ret. simpl. lia.
  - intros [n0 j0] [n1 j1] Hs Hb. simpl in *.
    destruct (Z.ltb_spec j0 (len b)); inv_ret; simpl; lia.
Qed.

Lemma safe_parseUint32 b i : 0 < len b -> 0 <= i -> safe (parseUint32 b i).
Proof.
  intros Hb Hi. unfold parseUint32.
  apply safe_bind; [apply safe_index; lia|]. intros _ _.
  apply (safe_loop (fun s : Z * Z => 0 <= snd s)); [| |simpl; lia].
  - intros [n j] Hj. simpl in Hj. destruct (Z.ltb_spec j (len b)); safety.
  - intros [n j] [n' j'] Hj Hbody. simpl in *.
    destruct (j <? len b); inv_ret. simpl. lia.
Qed.

Lemma readNonSpace_range b i p j :
  readNonSpace b i = Ret (p, j) -> 0 <= i <= len b ->
  i <= j <= len b /\ len p = j - i.
Proof.
  unfold readNonSpace. intros H Hi. apply bind_Ret_inv in H as (_ & _ & H).
  apply bind_Ret_inv in H as (j0 & Hloop & H).
  apply bind_Ret_inv in H as (p0 & Hp & H). injection H as <- <-.
  apply reslice_Ret in Hp. split; [|lia].
  revert Hloop.
  apply (loop_invariant (fun j => i <= j <= len b) (fun j => i <= j <= len b)
           (fun j => if j <? len b
                     then let* c := index b j in
                          if isSpace c then Ret (Done j)
                          else Ret (Next (j + 1))
                     else Ret (Done j))); [| |lia].
  - intros s s' Hs Hb. destruct (Z.ltb_spec s (len b)); [|discriminate].
    inv_ret. lia.
  - intros s r Hs Hb. destruct (Z.ltb_spec s (len b)); inv_ret; lia.
Qed.

Lemma safe_readNonSpace b i :
  0 < len b -> 0 <= i <= len b -> safe (readNonSpace b i).
Proof.
  intros Hb Hi. unfold readNonSpace. pose proof (len_cap b).
  apply safe_bind; [apply safe_index; lia|]. intros _ _.
  apply safe_bind.
  - apply (safe_loop (fun j => 0 <= j)); [| |lia].
    + intros j Hj. destruct (Z.ltb_spec j (len b)); safety.
    + intros j j' Hj Hbody. destruct (j <? len b); inv_ret. lia.
  - intros j Hloop.
    assert (i <= j <= len b) as Hj.
    { revert Hloop.
      apply (loop_invariant (fun j => i <= j <= len b)
               (fun j => i <= j <= len b)
               (fun j => if j <? len b
                         then let* c := index b j in
                              if isSpace c then Ret (Done j)
                              else Ret (Next (j + 1))
                         else Ret (Done j))); [| |lia].
      - intros s s' Hs Hbody. destruct (Z.ltb_spec s (len b)); [|discriminate].
        inv_ret. lia.
      - intros s r Hs Hbody. destruct (Z.ltb_spec s (len b)); inv_ret; lia. }
    apply safe_bind; [apply safe_reslice; lia|]. intros; apply safe_Ret.
Qed.

(** ** Parsers that test the length before they index *)

Ltac safe_fixed :=
  repeat first
    [ safe_step
    | match goal with
      | |- safe (word4 _ _ _ _ _) => apply safe_word4; bools; lia
      | |- safe (word2 _ _ _) => apply safe_word2; bools; lia
      end ].

Lemma safe_png b info : safe (png b info).
Proof. unfold png. safe_fixed. Qed.

Lemma safe_webp b info : safe (webp b info).
Proof. unfold webp. safe_fixed. Qed.

Lemma safe_gif b info : safe (gif b info).
Proof. unfold gif. safe_fixed. Qed.

Lemma safe_bmp b info : safe (bmp b info).
Proof. unfold bmp. safe_fixed. Qed.

Lemma safe_psd b info : safe (psd b info).
Proof. unfold psd. safe_fixed. Qed.

Lemma safe_mng b info : safe (mng b info).
Proof. unfold mng. safe_fixed. Qed.

Lemma safe_rgb b info : safe (rgb b info).
Proof. unfold rgb. safe_fixed. Qed.

Lemma safe_ras b info : safe (ras b info).
Proof. unfold ras. safe_fixed. Qed.

Lemma safe_pcx b info : safe (pcx b info).
Proof. unfold pcx. safe_fixed. Qed.

Lemma safe_avifDimensions b : safe (avifDimensions b).
Proof.
  unfold avifDimensions. pose proof (len_cap b).
  apply (safe_loop (fun i => 4 <= i)); [| |lia].
  - intros i Hi. destruct (Z.leb_spec (i + 16) (len b)); [|apply safe_Ret].
    apply safe_bind.
    { repeat (apply safe_orM; [|intros _]);
        (apply safe_bind; [apply safe_at_is; lia|intros; apply safe_Ret]). }
    intros [|] _; [apply safe_Ret|].
    apply safe_bind; [apply safe_reslice; lia|]. intros s4 Hs4.
    apply safe_bind; [apply safe_Uint32; [now right|lens; lia]|].
    intros size _.
    destruct (size <? 20); [apply safe_Ret|].
    destruct (len b <? i - 4 + size); [apply safe_Ret|].
    apply safe_bind; [apply safe_reslice; lia|]. intros ws Hws.
    apply safe_bind; [apply safe_Uint32; [now right|lens; lia]|].
    intros width _.
    apply safe_bind; [apply safe_reslice; lia|]. intros hs Hhs.
    apply safe_bind; [apply safe_Uint32; [now right|lens; lia]|].
    intros height _. destruct (_ && _); apply safe_Ret.
  - intros i i' Hi Hb. destruct (i + 16 <=? len b); [|discriminate].
    assert (i' = i + 1) as ->; [|lia].
    inv_ret; reflexivity.
Qed.

Lemma safe_avif b info : safe (avif b info).
Proof.
  unfold avif. apply safe_bind; [apply safe_avifDimensions|].
  intros [w h] _. apply safe_Ret.
Qed.

Lemma safe_ppm b info : 2 <= len b -> safe (ppm b info).
Proof.
  intros Hb. unfold ppm.
  apply safe_bind; [apply safe_index; lia|]. intros c _.
  apply safe_bind; [apply safe_skipSpace; lia|]. intros i Hi.
  apply skipSpace_range in Hi; [|lia].
  apply safe_bind; [apply safe_parseUint32; lia|]. intros [w i1] Hw.
  apply parseUint32_range in Hw; [|lia].
  apply safe_bind; [apply safe_skipSpace; lia|]. intros i2 Hi2.
  apply skipSpace_range in Hi2; [|lia].
  apply safe_bind; [apply safe_parseUint32; lia|]. intros [h i3] _.
  destruct (_ || _); apply safe_Ret.
Qed.

Lemma safe_xbm b info : 0 < len b -> safe (xbm b info).
Proof.
  intros Hb. unfold xbm.
  apply safe_bind; [apply safe_readNonSpace; lia|]. intros [p0 i0] H0.
  apply readNonSpace_range in H0 as [H0 _]; [|lia].
  apply safe_bind; [apply safe_skipSpace; lia|]. intros i1 H1.
  apply skipSpace_range in H1; [|lia].
  apply safe_bind; [apply safe_readNonSpace; lia|]. intros [p2 i2] H2.
  apply readNonSpace_range in H2 as [H2 _]; [|lia].
  apply safe_bind; [apply safe_skipSpace; lia|]. intros i3 H3.
  apply skipSpace_range in H3; [|lia].
  apply safe_bind; [apply safe_parseUint32; lia|]. intros [w i4] H4.
  apply parseUint32_range in H4; [|lia].
  apply safe_bind; [apply safe_skipSpace; lia|]. intros i5 H5.
  apply skipSpace_range in H5; [|lia].
  apply safe_bind; [apply safe_readNonSpace; lia|]. intros [p i6] H6.
  apply readNonSpace_range in H6 as [H6 Hp]; [|lia].
  apply safe_bind.
  { repeat first
      [ apply safe_Ret
      | apply safe_andM; [|intros ?]
      | apply safe_at_is; length_test; lia ]. }
  intros [|] _; [|apply safe_Ret]. cbn [negb].
  apply safe_bind; [apply safe_skipSpace; lia|]. intros i7 H7.
  apply skipSpace_range in H7; [|lia].
  apply safe_bind; [apply safe_readNonSpace; lia|]. intros [p8 i8] H8.
  apply readNonSpace_range in H8 as [H8 _]; [|lia].
  apply safe_bind; [apply safe_skipSpace; lia|]. intros i9 H9.
  apply skipSpace_range in H9; [|lia].
  apply safe_bind; [apply safe_parseUint32; lia|]. intros [h i10] _.
  apply safe_Ret.
Qed.

(** ** [GetType] and [GetInfo] take the same case *)

Lemma returns_has b :
  Forall (fun m : outcome bool => returns m)
    [hasJPEG b; hasPNG b; hasWEBP b; hasGIF b; hasBMP b; hasPPM b; hasXBM b;
     hasXPM b; hasTIFFBig b; hasTIFFLittle b; hasPSD b; hasMNG b; hasRGB b;
     hasRAS b; hasPCX b; hasAVIFFtyp b].
Proof.
  pose proof (terminates_has b) as Ht. pose proof (safe_has b) as Hs.
  rewrite !Forall_cons in Ht. rewrite !Forall_cons in Hs. destruct_and!.
  repeat (apply List.Forall_cons;
          [cbn beta; apply returns_safe; [assumption|]|]);
    first [assumption | apply safe_hasPPM | apply safe_hasAVIFFtyp
          | apply List.Forall_nil].
Qed.

(** Two [switch]es over the same guards take the same case. *)
Lemma switch_same {A B} (l : list (outcome bool * A * outcome B)) da db :
  Forall (fun c => returns (fst (fst c))) l ->
  (exists g a b, In (g, a, b) l /\ g = Ret true /\
     switch (map (fun c => (fst (fst c), Ret (snd (fst c)))) l) (Ret da)
       = Ret a /\
     switch (map (fun c => (fst (fst c), snd c)) l) db = b) \/
  (Forall (fun c => fst (fst c) = Ret false) l /\
   switch (map (fun c => (fst (fst c), Ret (snd (fst c)))) l) (Ret da)
     = Ret da /\
   switch (map (fun c => (fst (fst c), snd c)) l) db = db).
Proof.
  induction 1 as [|[[g a] b] l [[|] Hg] _ IH]; cbn [map switch fst snd] in *.
  - right. split; [constructor|]. split; reflexivity.
  - left. exists g, a, b. rewrite Hg. cbn [bind].
    split; [now left|]. split; [reflexivity|]. split; reflexivity.
  - rewrite Hg. cbn [bind].
    destruct IH as [(g' & a' & b' & Hin & ? & ? & ?)|(Hl & ? & ?)].
    + left. exists g', a', b'. split; [now right|]. auto.
    + right. split; [apply List.Forall_cons; [reflexivity|exact Hl]|]. auto.
Qed.

Lemma GetInfo_case p :
  80 <= len p ->
  (exists g t body,
     In (g, t, body) (parsers p) /\ g = Ret true /\
     GetType p = Ret t /\ GetInfo p = body) \/
  (GetType p = Ret Unknown /\ GetInfo p = Ret Info0).
Proof.
  intros Hp. unfold GetType, GetInfo, minOffset.
  destruct (Z.ltb_spec (len p) 80); [lia|].
  destruct (index p (80 - 1)) as [x| |] eqn:Ex;
    [|exfalso; revert Ex; apply safe_index; lia
     |exfalso; revert Ex; apply terminates_index].
  cbn [bind].
  destruct (switch_same (parsers p) Unknown (Ret Info0)) as
    [(g & t & body & Hin & Hg & Ht & Hb)|(_ & Ht & Hb)].
  - pose proof (returns_has p) as Hhas. unfold parsers.
    rewrite !Forall_cons in Hhas. destruct_and!.
    repeat (apply List.Forall_cons; [cbn [fst]; assumption|]).
    apply List.Forall_nil.
  - left. exists g, t, body. auto.
  - right. auto.
Qed.

(** X2. [GetInfo] comes to an end on every slice, and it returns unless the
    slice carries the signature of JPEG, XPM or TIFF: only those three
    parsers index or slice without a test of the length. *)
Theorem GetInfo_returns_or_panics p :
  (exists i, GetInfo p = Ret i) \/
  (GetInfo p = Panic /\
   exists t, GetType p = Ret t /\ (t = JPEG \/ t = XPM \/ t = TIFF)).
Proof.
  pose proof (GetInfo_terminates p) as Hterm.
  destruct (Z.ltb_spec (len p) 80) as [Hp|Hp].
  { left. exists Info0. unfold GetInfo, minOffset.
    destruct (Z.ltb_spec (len p) 80); [reflexivity|lia]. }
  destruct (GetInfo_case p Hp) as
    [(g & t & body & Hin & Hg & Ht & Hb)|[_ Hb]]; [|left; eauto].
  assert (safe body -> exists i, GetInfo p = Ret i) as Hsafe.
  { intros Hs. apply returns_safe; [assumption|now rewrite Hb]. }
  assert (t = JPEG \/ t = XPM \/ t = TIFF ->
          (exists i, GetInfo p = Ret i) \/
          (GetInfo p = Panic /\
           exists t, GetType p = Ret t /\ (t = JPEG \/ t = XPM \/ t = TIFF)))
    as Hrest.
  { intros Hcase. destruct (GetInfo p) as [i| |]; [left; eauto| |now elim Hterm].
    right. split; [reflexivity|]. exists t. split; assumption. }
  unfold parsers in Hin. cbn [In] in Hin.
  repeat (destruct Hin as [Hin|Hin];
          [injection Hin as <- <- <-;
           first [ apply Hrest; tauto
                 | left; apply Hsafe;
                   first [ apply safe_png | apply safe_webp | apply safe_gif
                         | apply safe_bmp | apply safe_ppm; lia
                         | apply safe_xbm; lia | apply safe_psd
                         | apply safe_mng | apply safe_rgb | apply safe_ras
                         | apply safe_pcx | apply safe_avif ] ]|]).
  contradiction.
Qed.

(** ** The type a parser sets *)

Lemma typed_typeIfSized t info :
  Type_ info = Unknown -> typed t (typeIfSized t info).
Proof.
  intros H. unfold typed, typeIfSized. destruct (_ && _); simpl; auto.
Qed.

Ltac typed_done :=
  first [ now left
        | apply typed_typeIfSized; reflexivity ].

Lemma typed_png b i : png b Info0 = Ret i -> typed PNG i.
Proof. unfold png. intros H. inv_ret; typed_done. Qed.

Lemma typed_webp b i : webp b Info0 = Ret i -> typed WEBP i.
Proof. unfold webp. intros H. inv_ret; typed_done. Qed.

Lemma typed_gif b i : gif b Info0 = Ret i -> typed GIF i.
Proof. unfold gif. intros H. inv_ret; typed_done. Qed.

Lemma typed_bmp b i : bmp b Info0 = Ret i -> typed BMP i.
Proof. unfold bmp. intros H. inv_ret; typed_done. Qed.

Lemma typed_psd b i : psd b Info0 = Ret i -> typed PSD i.
Proof. unfold psd. intros H. inv_ret; typed_done. Qed.

Lemma typed_mng b i : mng b Info0 = Ret i -> typed MNG i.
Proof. unfold mng. intros H. inv_ret; typed_done. Qed.

Lemma typed_rgb b i : rgb b Info0 = Ret i -> typed RGB i.
Proof. unfold rgb. intros H. inv_ret; typed_done. Qed.

Lemma typed_ras b i : ras b Info0 = Ret i -> typed RAS i.
Proof. unfold ras. intros H. inv_ret; typed_done. Qed.

Lemma typed_pcx b i : pcx b Info0 = Ret i -> typed PCX i.
Proof. unfold pcx. intros H. inv_ret; typed_done. Qed.

Lemma typed_avif b i : avif b Info0 = Ret i -> typed AVIF i.
Proof. unfold avif. intros H. inv_ret; typed_done. Qed.

Lemma typed_xbm b i : xbm b Info0 = Ret i -> typed XBM i.
Proof. unfold xbm. intros H. inv_ret; typed_done. Qed.

Lemma typed_jpeg b i : jpeg b Info0 = Ret i -> typed JPEG i.
Proof.
  intros H. destruct (jpeg_result _ _ H) as [->|[Ht _]];
    [now left|now right].
Qed.

Lemma typed_xpm b i : xpm b Info0 = Ret i -> typed XPM i.
Proof.
  unfold xpm. intros H. inv_ret. apply typed_typeIfSized.
  match goal with
  | H : loop ?fuel ?body ?s = Ret ?x |- _ =>
      revert H;
      apply (loop_invariant (fun _ => True) (fun x => Type_ x = Unknown)
               body); [auto| |exact I]
  end.
  intros s r _ H. inv_ret; reflexivity.
Qed.

Lemma typed_tiff b (o : byteOrder) i : tiff b Info0 o = Ret i -> typed TIFF i.
Proof.
  unfold tiff. intros H. inv_ret.
  lazymatch goal with
  | H : loop _ ?body _ = Ret _ |- _ =>
      revert H;
      apply (loop_invariant
               (fun st : Z * Info => Type_ (snd st) = Unknown)
               (typed TIFF) body)
  end.
  - intros [j inf] [j' inf'] Ht H. simpl in *. inv_ret.
    all: simpl;
      repeat match goal with
        | |- context [if ?c then _ else _] => destruct c
        end; assumption.
  - intros [j inf] r Ht H. simpl in *.
    inv_ret; first [now left | now right].
  - reflexivity.
Qed.

Lemma typed_ppm b i :
  ppm b Info0 = Ret i ->
  Type_ i = Unknown \/ In (Type_ i) [PBM; PGM; PPM; BPM; XV].
Proof.
  unfold ppm. intros H. inv_ret; [now left|].
  cbn [Type_ setHeight setWidth].
  repeat match goal with
    | |- context [if ?c then _ else _] => destruct c
    end; simpl; tauto.
Qed.

(** X4. The type in the result of [GetInfo] is the type [GetType] reports for
    the same slice, or is unset; for the signatures "P1" to "P7", which
    [GetType] all reports as PPM, [GetInfo] tells the five formats apart.
    Where [GetType] finds no signature, [GetInfo] returns the zero value. *)
Theorem GetInfo_type p i t :
  GetInfo p = Ret i -> GetType p = Ret t ->
  (t = Unknown -> i = Info0) /\
  (Type_ i = Unknown \/ Type_ i = t \/
   (t = PPM /\ In (Type_ i) [PBM; PGM; BPM; XV])).
Proof.
  intros Hi Ht.
  destruct (Z.ltb_spec (len p) 80) as [Hp|Hp].
  { unfold GetInfo, minOffset in Hi.
    destruct (Z.ltb_spec (len p) 80); [|lia]. injection Hi as <-.
    split; [reflexivity|now left]. }
  destruct (GetInfo_case p Hp) as
    [(g & t' & body & Hin & Hg & Ht' & Hb)|[_ Hb]].
  2: { rewrite Hb in Hi. injection Hi as <-. split; [reflexivity|now left]. }
  rewrite Ht' in Ht. injection Ht as ->. rewrite Hb in Hi.
  unfold parsers in Hin. cbn [In] in Hin.
  assert (forall T, typed T i -> Type_ i = Unknown \/ Type_ i = T \/
            (T = PPM /\ In (Type_ i) [PBM; PGM; BPM; XV])) as Htyped.
  { intros T [?|?]; auto. }
  repeat (destruct Hin as [Hin|Hin];
          [injection Hin as <- <- <-; (split; [discriminate|]);
           try (apply Htyped;
                lazymatch type of Hi with
                | jpeg _ _ = _ => exact (typed_jpeg _ _ Hi)
                | png _ _ = _ => exact (typed_png _ _ Hi)
                | webp _ _ = _ => exact (typed_webp _ _ Hi)
                | gif _ _ = _ => exact (typed_gif _ _ Hi)
                | bmp _ _ = _ => exact (typed_bmp _ _ Hi)
                | xbm _ _ = _ => exact (typed_xbm _ _ Hi)
                | xpm _ _ = _ => exact (typed_xpm _ _ Hi)
                | tiff _ _ _ = _ => exact (typed_tiff _ _ _ Hi)
                | psd _ _ = _ => exact (typed_psd _ _ Hi)
                | mng _ _ = _ => exact (typed_mng _ _ Hi)
                | rgb _ _ = _ => exact (typed_rgb _ _ Hi)
                | ras _ _ = _ => exact (typed_ras _ _ Hi)
                | pcx _ _ = _ => exact (typed_pcx _ _ Hi)
                | avif _ _ = _ => exact (typed_avif _ _ Hi)
                end)|]);
    [|contradiction].
  destruct (typed_ppm _ _ Hi) as [?|Hppm]; [now left|].
  simpl in Hppm. decompose [or] Hppm; try contradiction;
    first [ right; left; congruence
          | right; right; split; [reflexivity|simpl; tauto] ].
Qed.

(** * Decoding integers *)

Lemma u8_byte_of_Z z : 0 <= z < 256 -> u8 (byte_of_Z z) = z.
Proof.
  intros Hz. unfold u8, byte_of_Z.
  destruct (Byte.of_N (Z.to_N z)) as [b|] eqn:E.
  - apply Byte.to_of_N in E. rewrite E. lia.
  - apply Byte.of_N_None_iff in E. lia.
Qed.

Lemma u8_range x : 0 <= u8 x < 256.
Proof. unfold u8. pose proof (Byte.to_N_bounded x). lia. Qed.

(** A disjunction of two numbers that share no bit is their sum. *)
Lemma lor_add a b n q :
  0 <= n -> a = q * 2 ^ n -> 0 <= b < 2 ^ n -> Z.lor a b = a + b.
Proof.
  intros Hn -> Hb.
  assert (Z.land (q * 2 ^ n) b = 0) as Hland.
  { apply Z.bits_inj'. intros m Hm. rewrite Z.land_spec, Z.bits_0.
    destruct (Z.lt_ge_cases m n).
    - rewrite Z.mul_pow2_bits_low by lia. reflexivity.
    - assert (Z.testbit b m = false) as ->; [|apply andb_false_r].
      destruct (Z.eq_dec b 0) as [->|]; [apply Z.bits_0|].
      apply Z.bits_above_log2; [lia|]. apply Z.log2_lt_pow2; [lia|].
      apply Z.lt_le_trans with (2 ^ n); [lia|].
      apply Z.pow_le_mono_r; lia. }
  rewrite <- Z.lxor_lor by exact Hland. symmetry.
  apply Z.add_nocarry_lxor. exact Hland.
Qed.

Lemma index_at l sp i x :
  0 <= i -> nth_error l (Z.to_nat i) = Some x -> index (Slice l sp) i = Ret x.
Proof.
  intros Hi Hx. unfold index, len. simpl.
  assert (Z.to_nat i < length l)%nat as Hlt
    by (apply nth_error_Some; congruence).
  destruct (Z.leb_spec 0 i); [|lia].
  destruct (Z.ltb_spec i (Z.of_nat (length l))); [|lia].
  simpl. now rewrite Hx.
Qed.

Lemma get_at l sp i x :
  0 <= i -> nth_error l (Z.to_nat i) = Some x ->
  get (Slice l sp) i = Ret (u8 x).
Proof. intros Hi Hx. unfold get. now rewrite (index_at _ _ _ _ Hi Hx). Qed.

Lemma at_is_at l sp i x c :
  0 <= i -> nth_error l (Z.to_nat i) = Some x ->
  at_is (Slice l sp) i c = Ret (Byte.eqb x c).
Proof. intros Hi Hx. unfold at_is. now rewrite (index_at _ _ _ _ Hi Hx). Qed.

(** Rewrites the reads at fixed positions of a slice whose leading bytes
    are spelled out. *)
Ltac read_bytes :=
  repeat first
    [ erewrite index_at by first [lia | reflexivity]
    | erewrite get_at by first [lia | reflexivity]
    | erewrite at_is_at by first [lia | reflexivity] ];
  cbn [bind andM orM].

Lemma byte_of_mod w k :
  0 <= k -> u8 (byte_of_Z (w / 2 ^ k mod 256)) = w / 2 ^ k mod 256.
Proof. intros. apply u8_byte_of_Z. apply Z.mod_pos_bound. lia. Qed.

(** Arithmetic on the bytes of a number. *)
Ltac byte_arith :=
  change (2 ^ 8) with 256 in *; change (2 ^ 16) with 65536 in *;
  change (2 ^ 24) with 16777216 in *; change (2 ^ 32) with 4294967296 in *;
  Z.to_euclidean_division_equations; lia.

(** X6. [Uint32] of either order returns the number whose four bytes, in that
    order, the slice starts with; it panics on a slice of fewer than four
    bytes. *)
Theorem Uint32_decodes (w : Z) (rest sp : list byte) :
  0 <= w < 2 ^ 32 ->
  Uint32 (byteOrder := littleEndian) (Slice (littleBytes 4 w ++ rest) sp)
    = Ret w /\
  Uint32 (byteOrder := bigEndian) (Slice (bigBytes 4 w ++ rest) sp) = Ret w /\
  forall (o : byteOrder) b,
    o = littleEndian \/ o = bigEndian -> len b < 4 -> Uint32 b = Panic.
Proof.
  intros Hw.
  assert (forall z, 0 <= z < 256 -> u8 (byte_of_Z z) = z) as Hu
    by apply u8_byte_of_Z.
  assert (Z.lor (Z.lor (Z.lor (w mod 256) (Z.shiftl (w / 256 mod 256) 8))
                   (Z.shiftl (w / 256 / 256 mod 256) 16))
            (Z.shiftl (w / 256 / 256 / 256 mod 256) 24) = w) as Hsum.
  { rewrite !Z.shiftl_mul_pow2 by lia.
    rewrite (Z.lor_comm (w mod 256)).
    rewrite (lor_add _ (w mod 256) 8 (w / 256 mod 256)) by byte_arith.
    rewrite (Z.lor_comm _ (w / 256 / 256 mod 256 * 2 ^ 16)).
    rewrite (lor_add (w / 256 / 256 mod 256 * 2 ^ 16) _ 16
               (w / 256 / 256 mod 256)) by byte_arith.
    rewrite (Z.lor_comm _ (w / 256 / 256 / 256 mod 256 * 2 ^ 24)).
    rewrite (lor_add (w / 256 / 256 / 256 mod 256 * 2 ^ 24) _ 24
               (w / 256 / 256 / 256 mod 256)) by byte_arith.
    byte_arith. }
  split; [|split].
  - unfold Uint32, littleEndian, littleBytes. cbn [app]. read_bytes.
    rewrite !Hu by (apply Z.mod_pos_bound; lia). now rewrite Hsum.
  - unfold Uint32, bigEndian, bigBytes, littleBytes. cbn [rev app].
    read_bytes.
    rewrite !Hu by (apply Z.mod_pos_bound; lia). now rewrite Hsum.
  - intros o b [-> | ->] Hb; unfold Uint32, littleEndian, bigEndian, index;
      destruct (Z.ltb_spec 3 (len b)); try lia; reflexivity.
Qed.

(** * Headers the sniffer decodes *)

(** The value of four bytes, most significant first. *)
Lemma bytes4_value w :
  0 <= w < 2 ^ 32 ->
  Z.lor (Z.lor (Z.lor (Z.shiftl (w / 256 / 256 / 256 mod 256) 24)
                      (Z.shiftl (w / 256 / 256 mod 256) 16))
               (Z.shiftl (w / 256 mod 256) 8))
        (w mod 256) = w.
Proof.
  intros Hw. rewrite !Z.shiftl_mul_pow2 by lia.
  rewrite (lor_add (w / 256 / 256 / 256 mod 256 * 2 ^ 24) _ 24
             (w / 256 / 256 / 256 mod 256)) by byte_arith.
  rewrite (lor_add _ (w / 256 mod 256 * 2 ^ 8) 16
             (w / 256 / 256 / 256 mod 256 * 2 ^ 8 + w / 256 / 256 mod 256))
    by byte_arith.
  rewrite (lor_add _ (w mod 256) 8
             (w / 256 / 256 / 256 mod 256 * 2 ^ 16
              + w / 256 / 256 mod 256 * 2 ^ 8 + w / 256 mod 256))
    by byte_arith.
  byte_arith.
Qed.

(** Decides the tests of the length of a slice whose leading bytes are
    spelled out. *)
Ltac len_tests :=
  repeat match goal with
    | |- context [?k <=? len ?p] =>
        destruct (Z.leb_spec k (len p));
        [|exfalso; unfold len in *; cbn [vis length] in *; lia]
    | |- context [len ?p <? ?k] =>
        destruct (Z.ltb_spec (len p) k);
        [exfalso; unfold len in *; cbn [vis length] in *; lia|]
    end.

(** On a slice of 80 bytes or more [GetInfo] is its [switch]. *)
Lemma GetInfo_switch p :
  80 <= len p ->
  GetInfo p =
  switch
    [ (hasJPEG p, jpeg p Info0); (hasPNG p, png p Info0);
      (hasWEBP p, webp p Info0); (hasGIF p, gif p Info0);
      (hasBMP p, bmp p Info0); (hasPPM p, ppm p Info0);
      (hasXBM p, xbm p Info0); (hasXPM p, xpm p Info0);
      (hasTIFFBig p, tiff p Info0 bigEndian);
      (hasTIFFLittle p, tiff p Info0 littleEndian);
      (hasPSD p, psd p Info0); (hasMNG p, mng p Info0);
      (hasRGB p, rgb p Info0); (hasRAS p, ras p Info0);
      (hasPCX p, pcx p Info0); (hasAVIFFtyp p, avif p Info0) ]
    (Ret Info0).
Proof.
  intros Hp. unfold GetInfo, minOffset.
  destruct (Z.ltb_spec (len p) 80); [lia|].
  destruct (index p (80 - 1)) as [x| |] eqn:Ex; [reflexivity| |].
  - exfalso. revert Ex. apply safe_index. lia.
  - exfalso. revert Ex. apply terminates_index.
Qed.

(** The first signature tests as functions of the leading bytes. *)
Lemma has_leading (x0 x1 x2 x3 x4 x5 x6 x7 x8 x9 x10 x11 : byte)
  (rest sp : list byte) :
  let p := Slice (x0 :: x1 :: x2 :: x3 :: x4 :: x5 :: x6 :: x7 :: x8 :: x9
                  :: x10 :: x11 :: rest) sp in
  hasJPEG p = Ret (Byte.eqb x0 xff && Byte.eqb x1 xd8) /\
  hasPNG p = Ret (Byte.eqb x0 x89 && Byte.eqb x1 "P" && Byte.eqb x2 "N"
                  && Byte.eqb x3 "G" && Byte.eqb x4 x0d && Byte.eqb x5 x0a
                  && Byte.eqb x6 x1a && Byte.eqb x7 x0a) /\
  hasWEBP p = Ret (Byte.eqb x0 "R" && Byte.eqb x1 "I" && Byte.eqb x2 "F"
                   && Byte.eqb x3 "F" && Byte.eqb x8 "W" && Byte.eqb x9 "E"
                   && Byte.eqb x10 "B" && Byte.eqb x11 "P") /\
  hasGIF p = Ret (Byte.eqb x0 "G" && Byte.eqb x1 "I" && Byte.eqb x2 "F"
                  && Byte.eqb x3 "8"
                  && (Byte.eqb x4 "7" || Byte.eqb x4 "," || Byte.eqb x4 "9")
                  && Byte.eqb x5 "a") /\
  hasBMP p = Ret (Byte.eqb x0 "B" && Byte.eqb x1 "M").
Proof.
  intros p. subst p.
  unfold hasJPEG, hasPNG, hasWEBP, hasGIF, hasBMP. len_tests. read_bytes.
  repeat split;
    repeat match goal with
      | |- context [Byte.eqb ?a ?b] => destruct (Byte.eqb a b)
      end; reflexivity.
Qed.

(** Evaluates the comparisons of spelled-out bytes, left to right. *)
Ltac eval_eqb :=
  repeat match goal with
    | |- context [Byte.eqb ?a ?b] =>
        let v := eval vm_compute in (Byte.eqb a b) in
        lazymatch v with true => idtac | false => idtac end;
        change (Byte.eqb a b) with v; cbn [andb orb negb]
    end;
  cbn [bind andM orM].

(** The signature tests on the slice of the goal. *)
Ltac leading :=
  match goal with
  | |- context [Slice (?x0 :: ?x1 :: ?x2 :: ?x3 :: ?x4 :: ?x5 :: ?x6 :: ?x7
                       :: ?x8 :: ?x9 :: ?x10 :: ?x11 :: ?rest) ?sp] =>
      let HJ := fresh "HJ" in let HP := fresh "HP" in
      let HW := fresh "HW" in let HG := fresh "HG" in
      let HB := fresh "HB" in
      destruct (has_leading x0 x1 x2 x3 x4 x5 x6 x7 x8 x9 x10 x11 rest sp)
        as (HJ & HP & HW & HG & HB)
  end.

(** X12. A PNG file begins with the signature, the length of the first chunk,
    "IHDR", and the width and the height as big-endian 32-bit numbers:
    [GetInfo] returns them, with the type PNG unless one of them is 0. *)
Theorem GetInfo_png (c rest sp : list byte) (w h : Z) :
  length c = 4%nat -> (56 <= length rest)%nat ->
  0 <= w < 2 ^ 32 -> 0 <= h < 2 ^ 32 ->
  GetInfo (Slice (pngSignature ++ c ++ IHDR ++ bigBytes 4 w ++ bigBytes 4 h
                    ++ rest) sp)
  = Ret (if (w =? 0) || (h =? 0) then mkInfo Unknown w h
         else mkInfo PNG w h).
Proof.
  intros Hc Hrest Hw Hh.
  destruct c as [|c0 [|c1 [|c2 [|c3 [|]]]]]; try discriminate.
  unfold pngSignature, IHDR, bigBytes, littleBytes. cbn [rev app].
  rewrite GetInfo_switch by (unfold len; cbn [vis length]; lia).
  leading. cbn [switch]. rewrite HJ, HP. eval_eqb. cbn [bind].
  unfold png, word4. len_tests. read_bytes. eval_eqb. cbn [bind].
  rewrite !u8_byte_of_Z by (apply Z.mod_pos_bound; lia).
  rewrite !bytes4_value by assumption.
  unfold typeIfSized. cbn [Width Height setWidth setHeight setType Type_ Info0].
  destruct (w =? 0), (h =? 0); reflexivity.
Qed.

(** The value of two bytes, most significant first. *)
Lemma bytes2_value w :
  0 <= w < 2 ^ 16 ->
  Z.lor (Z.shiftl (w / 256 mod 256) 8) (w mod 256) = w.
Proof.
  intros Hw. rewrite !Z.shiftl_mul_pow2 by lia.
  rewrite (lor_add _ (w mod 256) 8 (w / 256 mod 256)) by byte_arith.
  byte_arith.
Qed.

(** X13. A GIF file begins with "GIF87a" or "GIF89a" (the sniffer also takes
    "GIF8,a"), then the width and the height of the screen as little-endian
    16-bit numbers. *)
Theorem GetInfo_gif (v : byte) (rest sp : list byte) (w h : Z) :
  v = "7"%byte \/ v = "9"%byte \/ v = ","%byte ->
  (70 <= length rest)%nat -> 0 <= w < 2 ^ 16 -> 0 <= h < 2 ^ 16 ->
  GetInfo (Slice (["G"; "I"; "F"; "8"; v; "a"]%byte ++ littleBytes 2 w
                    ++ littleBytes 2 h ++ rest) sp)
  = Ret (if (w =? 0) || (h =? 0) then mkInfo Unknown w h
         else mkInfo GIF w h).
Proof.
  intros Hv Hrest Hw Hh.
  destruct rest as [|r0 [|r1 rest]]; simpl in Hrest; try lia.
  unfold littleBytes. cbn [app].
  rewrite GetInfo_switch by (unfold len; cbn [vis length]; lia).
  leading. cbn [switch]. rewrite HJ, HP, HW, HG.
  destruct Hv as [-> | [-> | ->]]; eval_eqb.
  all: unfold gif, word2; len_tests; read_bytes.
  all: rewrite !u8_byte_of_Z by (apply Z.mod_pos_bound; lia).
  all: rewrite !bytes2_value by assumption.
  all: unfold typeIfSized;
       cbn [Width Height setWidth setHeight setType Type_ Info0].
  all: destruct (w =? 0), (h =? 0); reflexivity.
Qed.

(** X14. A BMP file begins with "BM"; the width and the height are the
    little-endian 32-bit numbers at offsets 18 and 22. *)
Theorem GetInfo_bmp (c rest sp : list byte) (w h : Z) :
  length c = 16%nat -> (54 <= length rest)%nat ->
  0 <= w < 2 ^ 32 -> 0 <= h < 2 ^ 32 ->
  GetInfo (Slice (["B"; "M"]%byte ++ c ++ littleBytes 4 w ++ littleBytes 4 h
                    ++ rest) sp)
  = Ret (if (w =? 0) || (h =? 0) then mkInfo Unknown w h
         else mkInfo BMP w h).
Proof.
  intros Hc Hrest Hw Hh.
  do 17 (destruct c as [|? c]; try discriminate).
  unfold littleBytes. cbn [app].
  rewrite GetInfo_switch by (unfold len; cbn [vis length]; lia).
  leading. cbn [switch]. rewrite HJ, HP, HW, HG, HB. eval_eqb.
  unfold bmp, word4. len_tests. read_bytes.
  rewrite !u8_byte_of_Z by (apply Z.mod_pos_bound; lia).
  rewrite !bytes4_value by assumption.
  unfold typeIfSized. cbn [Width Height setWidth setHeight setType Type_ Info0].
  destruct (w =? 0), (h =? 0); reflexivity.
Qed.

Lemma get_app pre l sp i k x :
  i = Z.of_nat (length pre) -> 0 <= k ->
  nth_error l (Z.to_nat k) = Some x ->
  get (Slice (pre ++ l) sp) (i + k) = Ret (u8 x).
Proof.
  intros -> Hk Hx. apply get_at; [lia|].
  replace (Z.to_nat (Z.of_nat (length pre) + k))
    with (length pre + Z.to_nat k)%nat by lia.
  now rewrite nth_error_app2, Nat.add_comm, Nat.add_sub by lia.
Qed.

Lemma get_app0 pre x l sp :
  get (Slice (pre ++ x :: l) sp) (Z.of_nat (length pre)) = Ret (u8 x).
Proof.
  rewrite <- (Z.add_0_r (Z.of_nat (length pre))).
  now apply get_app.
Qed.

Lemma jpeg_walk (segs : list (byte * list byte)) (code l1 l0 precision : byte)
  (w h : Z) (rest sp : list byte) :
  Forall (fun s => isSOF (fst s) = false /\
                   2 + Z.of_nat (length (snd s)) < 2 ^ 16) segs ->
  isSOF code = true -> 0 <= w < 2 ^ 16 -> 0 <= h < 2 ^ 16 ->
  forall (pre data : list byte) fuel,
  data = (pre ++ concat (map (fun s => jpegSegment (fst s) (snd s)) segs)
              ++ [xff; code; l1; l0; precision] ++ bigBytes 2 h
              ++ bigBytes 2 w ++ rest)%list ->
  (length segs < fuel)%nat ->
  loop fuel
    (fun i =>
       let* l3 := get (Slice data sp) (i + 3) in
       let* l2 := get (Slice data sp) (i + 2) in
       let length := Z.lor l3 (Z.shiftl l2 8) in
       let* code := get (Slice data sp) (i + 1) in
       let* marker := get (Slice data sp) i in
       let i := i + 4 in
       if negb (marker =? 255) then Ret (Done Info0)
       else if (192 <=? code) && (code <=? 195) then
         let info := setType JPEG Info0 in
         let* w4 := get (Slice data sp) (i + 4) in
         let* w3 := get (Slice data sp) (i + 3) in
         let info := setWidth (Z.lor w4 (Z.shiftl w3 8)) info in
         let* h2 := get (Slice data sp) (i + 2) in
         let* h1 := get (Slice data sp) (i + 1) in
         let info := setHeight (Z.lor h2 (Z.shiftl h1 8)) info in
         Ret (Done info)
       else Ret (Next (i + (length - 2))))
    (Z.of_nat (length pre))
  = Ret (mkInfo JPEG w h).
Proof.
  intros Hsegs Hcode Hw Hh.
  induction Hsegs as [|[c payload] segs [Hc Hlen] _ IH];
    intros pre data fuel -> Hfuel; (destruct fuel as [|fuel]; [simpl in *; lia|]);
    cbn [loop map concat fst snd].
  - unfold bigBytes, littleBytes. cbn [rev app].
    rewrite (get_app pre _ sp _ 3 l0) by first [reflexivity | lia].
    rewrite (get_app pre _ sp _ 2 l1) by first [reflexivity | lia].
    rewrite (get_app pre _ sp _ 1 code) by first [reflexivity | lia].
    rewrite get_app0.
    cbn [bind]. change (u8 xff =? 255) with true. cbn [negb].
    unfold isSOF in Hcode. rewrite Hcode.
    replace (Z.of_nat (length pre) + 4 + 4)
      with (Z.of_nat (length pre) + 8) by lia.
    replace (Z.of_nat (length pre) + 4 + 3)
      with (Z.of_nat (length pre) + 7) by lia.
    replace (Z.of_nat (length pre) + 4 + 2)
      with (Z.of_nat (length pre) + 6) by lia.
    replace (Z.of_nat (length pre) + 4 + 1)
      with (Z.of_nat (length pre) + 5) by lia.
    erewrite (get_app pre _ sp _ 8) by first [reflexivity | lia].
    erewrite (get_app pre _ sp _ 7) by first [reflexivity | lia].
    erewrite (get_app pre _ sp _ 6) by first [reflexivity | lia].
    erewrite (get_app pre _ sp _ 5) by first [reflexivity | lia].
    cbn [bind].
    rewrite !u8_byte_of_Z by (apply Z.mod_pos_bound; lia).
    rewrite !(Z.lor_comm (_ mod 256)).
    rewrite !bytes2_value by assumption. reflexivity.
  - cbn [fst snd] in Hc, Hlen.
    set (tail := concat _). unfold jpegSegment, bigBytes, littleBytes.
    cbn [rev app]. rewrite <- !app_assoc. cbn [app].
    erewrite (get_app pre _ sp _ 3) by first [reflexivity | lia].
    erewrite (get_app pre _ sp _ 2) by first [reflexivity | lia].
    erewrite (get_app pre _ sp _ 1) by first [reflexivity | lia].
    rewrite get_app0.
    cbn [bind]. change (u8 xff =? 255) with true. cbn [negb].
    unfold isSOF in Hc. rewrite Hc.
    rewrite !u8_byte_of_Z by (apply Z.mod_pos_bound; lia).
    rewrite (Z.lor_comm (_ mod 256)).
    rewrite bytes2_value by lia.
    replace (Z.of_nat (length pre) + 4 + (2 + Z.of_nat (length payload) - 2))
      with (Z.of_nat (length
              (pre ++ xff :: c
                 :: byte_of_Z ((2 + Z.of_nat (length payload)) / 256 mod 256)
                 :: byte_of_Z ((2 + Z.of_nat (length payload)) mod 256)
                 :: payload)%list))
      by (rewrite length_app; cbn [length]; lia).
    apply IH; [|simpl in Hfuel; lia].
    subst tail. rewrite <- !app_assoc. reflexivity.
Qed.

Lemma length_segments (segs : list (byte * list byte)) :
  (length segs
   <= length (concat (map (fun s => jpegSegment (fst s) (snd s)) segs)))%nat.
Proof.
  induction segs as [|[c payload] segs IH]; [reflexivity|].
  cbn [map concat fst snd]. rewrite length_app.
  unfold jpegSegment at 1. cbn [app length]. lia.
Qed.

(** X11. A JPEG file begins with the marker SOI; then come segments, each a
    marker and a big-endian 16-bit length that counts itself and the
    payload.  [jpeg] steps over the segments that are not a frame header
    and reads the height and the width, two big-endian 16-bit numbers, from
    the first frame header SOF0 to SOF3.  It sets the type whatever the two
    numbers are. *)
Theorem GetInfo_jpeg (segs : list (byte * list byte))
  (code l1 l0 precision : byte) (w h : Z) (rest sp : list byte) :
  Forall (fun s => isSOF (fst s) = false /\
                   2 + Z.of_nat (length (snd s)) < 2 ^ 16) segs ->
  isSOF code = true -> 0 <= w < 2 ^ 16 -> 0 <= h < 2 ^ 16 ->
  let data :=
    ([xff; xd8] ++ concat (map (fun s => jpegSegment (fst s) (snd s)) segs)
       ++ [xff; code; l1; l0; precision] ++ bigBytes 2 h ++ bigBytes 2 w
       ++ rest)%list in
  (80 <= length data)%nat ->
  GetInfo (Slice data sp) = Ret (mkInfo JPEG w h).
Proof.
  intros Hsegs Hcode Hw Hh data Hdata.
  rewrite GetInfo_switch by (unfold len; cbn [vis]; lia).
  cbn [switch].
  assert (hasJPEG (Slice data sp) = Ret true) as ->.
  { unfold hasJPEG. destruct (Z.leb_spec 2 (len (Slice data sp)));
      [|unfold len in *; cbn [vis] in *; lia].
    subst data. cbn [app]. read_bytes. reflexivity. }
  cbn [bind]. unfold jpeg.
  apply (jpeg_walk segs code l1 l0 precision w h rest sp Hsegs Hcode Hw Hh
           [xff; xd8]); [reflexivity|].
  pose proof (length_segments segs) as Hlen.
  unfold scanFuel. cbn [vis]. subst data.
  rewrite !length_app. lia.
Qed.

(** * The scanning helpers on text *)

Lemma index_app0 pre x l sp :
  index (Slice (pre ++ x :: l) sp) (Z.of_nat (length pre)) = Ret x.
Proof.
  apply index_at; [lia|]. rewrite Nat2Z.id.
  now rewrite nth_error_app2, Nat.sub_diag by lia.
Qed.

Lemma len_app pre l sp :
  len (Slice (pre ++ l) sp) = Z.of_nat (length pre) + Z.of_nat (length l).
Proof. unfold len. cbn [vis]. rewrite length_app. lia. Qed.

(** A loop that scans forward while [stop] is false runs over a stretch of
    bytes on which [stop] is false and halts at the end of the slice or at
    the next byte, on which [stop] is true. *)
Lemma scan_run (stop : byte -> bool) (run : list byte) :
  forall (pre tl sp : list byte) fuel,
  Forall (fun c => stop c = false) run ->
  match tl with [] => True | x :: _ => stop x = true end ->
  (length run < fuel)%nat ->
  loop fuel
    (fun j =>
       if j <? len (Slice (pre ++ run ++ tl) sp) then
         let* c := index (Slice (pre ++ run ++ tl) sp) j in
         if stop c then Ret (Done j) else Ret (Next (j + 1))
       else Ret (Done j))
    (Z.of_nat (length pre))
  = Ret (Z.of_nat (length pre) + Z.of_nat (length run)).
Proof.
  induction run as [|c run IH]; intros pre tl sp fuel Hrun Htl Hfuel;
    (destruct fuel as [|fuel]; [simpl in Hfuel; lia|]); cbn [loop app].
  - destruct tl as [|x tl].
    + pose proof (len_app pre [] sp) as Hlen. cbn [length] in Hlen.
      destruct (Z.ltb_spec (Z.of_nat (length pre))
                  (len (Slice (pre ++ []) sp))); [lia|].
      f_equal. simpl. lia.
    + pose proof (len_app pre (x :: tl) sp) as Hlen. cbn [length] in Hlen.
      destruct (Z.ltb_spec (Z.of_nat (length pre))
                  (len (Slice (pre ++ x :: tl) sp))); [|lia].
      rewrite index_app0. cbn [bind]. rewrite Htl. f_equal. simpl. lia.
  - pose proof (len_app pre (c :: run ++ tl) sp) as Hlen.
    cbn [length] in Hlen.
    destruct (Z.ltb_spec (Z.of_nat (length pre))
                (len (Slice (pre ++ c :: run ++ tl) sp))); [|lia].
    rewrite index_app0. cbn [bind].
    inversion Hrun as [|? ? Hc Hrun']; subst. rewrite Hc.
    specialize (IH (pre ++ [c])%list tl sp fuel Hrun' Htl).
    rewrite <- !app_assoc in IH. cbn [app] in IH.
    rewrite length_app in IH. cbn [length] in IH.
    replace (Z.of_nat (length pre) + 1)
      with (Z.of_nat (length pre + 1)) by lia.
    rewrite IH by (simpl in Hfuel; lia). f_equal. cbn [length]. lia.
Qed.

Lemma digit_test x : (9 <? uint32 (uint8 (u8 x - 48))) = negb (isDigit x).
Proof. destruct x; vm_compute; reflexivity. Qed.

Lemma digit_value d :
  0 <= d <= 9 -> uint32 (uint8 (u8 (byte_of_Z (48 + d)) - 48)) = d.
Proof.
  intros Hd. rewrite u8_byte_of_Z by lia. unfold uint32, uint8.
  replace (48 + d - 48) with d by lia.
  change (2 ^ 8) with 256. change (2 ^ 32) with 4294967296.
  rewrite (Z.mod_small d 256) by lia. rewrite Z.mod_small by lia.
  reflexivity.
Qed.

Lemma uint32_step a d : uint32 (uint32 a * 10 + d) = uint32 (a * 10 + d).
Proof.
  unfold uint32. rewrite <- Z.add_mod_idemp_l by lia.
  rewrite Z.mul_mod_idemp_l by lia. rewrite Z.add_mod_idemp_l by lia.
  reflexivity.
Qed.

Lemma fold_uint32 ds a :
  fold_left (fun acc d => uint32 (acc * 10 + d)) ds (uint32 a)
  = uint32 (fold_left (fun acc d => acc * 10 + d) ds a).
Proof.
  revert a. induction ds as [|d ds IH]; intros a; cbn [fold_left].
  - reflexivity.
  - rewrite uint32_step. apply IH.
Qed.

(** The loop of [parseUint32] over a run of digits. *)
Lemma parse_run (ds : list Z) :
  forall (pre tl sp : list byte) fuel acc,
  Forall (fun d => 0 <= d <= 9) ds ->
  match tl with [] => True | x :: _ => isDigit x = false end ->
  (length ds < fuel)%nat ->
  loop fuel
    (fun '(n, j) =>
       if j <? len (Slice (pre ++ digitBytes ds ++ tl) sp) then
         let* c := get (Slice (pre ++ digitBytes ds ++ tl) sp) j in
         let x := uint32 (uint8 (c - 48)) in
         if 9 <? x then Ret (Done (n, j))
         else Ret (Next (uint32 (n * 10 + x), j + 1))
       else Ret (Done (n, j)))
    (acc, Z.of_nat (length pre))
  = Ret (fold_left (fun acc d => uint32 (acc * 10 + d)) ds acc,
         Z.of_nat (length pre) + Z.of_nat (length ds)).
Proof.
  induction ds as [|d ds IH]; intros pre tl sp fuel acc Hds Htl Hfuel;
    (destruct fuel as [|fuel]; [simpl in Hfuel; lia|]);
    cbn [loop app digitBytes map fold_left].
  - destruct tl as [|x tl].
    + pose proof (len_app pre [] sp) as Hlen. cbn [length] in Hlen.
      destruct (Z.ltb_spec (Z.of_nat (length pre))
                  (len (Slice (pre ++ []) sp))); [lia|].
      f_equal. f_equal. simpl. lia.
    + pose proof (len_app pre (x :: tl) sp) as Hlen. cbn [length] in Hlen.
      destruct (Z.ltb_spec (Z.of_nat (length pre))
                  (len (Slice (pre ++ x :: tl) sp))); [|lia].
      rewrite get_app0. cbn [bind]. cbv zeta.
      rewrite digit_test, Htl. cbn [negb]. f_equal. f_equal. simpl. lia.
  - change (map (fun d => byte_of_Z (48 + d)) ds) with (digitBytes ds).
    pose proof (len_app pre (byte_of_Z (48 + d) :: digitBytes ds ++ tl) sp)
      as Hlen.
    cbn [length] in Hlen.
    destruct (Z.ltb_spec (Z.of_nat (length pre))
                (len (Slice (pre ++ byte_of_Z (48 + d) :: digitBytes ds ++ tl)
                        sp))); [|lia].
    rewrite get_app0. cbn [bind]. cbv zeta.
    inversion Hds as [|? ? Hd Hds']; subst.
    rewrite digit_value by assumption.
    destruct (Z.ltb_spec 9 d); [lia|].
    specialize (IH (pre ++ [byte_of_Z (48 + d)])%list tl sp fuel
                  (uint32 (acc * 10 + d)) Hds' Htl).
    rewrite <- !app_assoc in IH. cbn [app] in IH.
    rewrite length_app in IH. cbn [length] in IH.
    replace (Z.of_nat (length pre) + 1)
      with (Z.of_nat (length pre + 1)) by lia.
    rewrite IH by (simpl in Hfuel; lia). f_equal. f_equal. cbn [length]. lia.
Qed.

Lemma index_last (data sp : list byte) :
  data <> [] -> exists x, index (Slice data sp) (len (Slice data sp) - 1) = Ret x.
Proof.
  intros Hne.
  destruct (index (Slice data sp) (len (Slice data sp) - 1)) as [x| |] eqn:E;
    [now exists x| |].
  - exfalso. revert E. apply safe_index. unfold len. cbn [vis].
    destruct data; [contradiction|]. cbn [length]. lia.
  - exfalso. revert E. apply terminates_index.
Qed.

Lemma skipSpace_at (data sp pre run tl : list byte) i :
  data = (pre ++ run ++ tl)%list -> i = Z.of_nat (length pre) ->
  data <> [] ->
  Forall (fun c => isSpace c = true) run ->
  match tl with [] => True | x :: _ => isSpace x = false end ->
  skipSpace (Slice data sp) i = Ret (i + Z.of_nat (length run)).
Proof.
  intros -> -> Hne Hrun Htl. unfold skipSpace.
  destruct (index_last _ sp Hne) as [x ->]. cbn [bind].
  apply (scan_run (fun c => negb (isSpace c)) run pre tl sp).
  - eapply Forall_impl; [exact Hrun|]. intros c Hc. simpl in *. now rewrite Hc.
  - destruct tl; [exact I|]. now rewrite Htl.
  - unfold scanFuel. cbn [vis]. rewrite !length_app. lia.
Qed.

Lemma parseUint32_at (data sp pre tl : list byte) (ds : list Z) i :
  data = (pre ++ digitBytes ds ++ tl)%list -> i = Z.of_nat (length pre) ->
  data <> [] ->
  Forall (fun d => 0 <= d <= 9) ds ->
  match tl with [] => True | x :: _ => isDigit x = false end ->
  parseUint32 (Slice data sp) i
  = Ret (uint32 (decimalValue ds), i + Z.of_nat (length ds)).
Proof.
  intros -> -> Hne Hds Htl. unfold parseUint32.
  destruct (index_last _ sp Hne) as [x ->]. cbn [bind].
  unfold decimalValue. rewrite <- fold_uint32.
  apply (parse_run ds pre tl sp); [assumption..|].
  unfold scanFuel, digitBytes. cbn [vis].
  rewrite !length_app, length_map. lia.
Qed.

(** X8. [skipSpace] steps over a run of blanks, tabs, carriage returns and
    line feeds and stops at the first other byte or at the end of the
    slice; on the empty slice it panics. *)
Theorem skipSpace_spec (pre run tl sp : list byte) :
  Forall (fun c => isSpace c = true) run ->
  match tl with [] => True | x :: _ => isSpace x = false end ->
  (pre ++ run ++ tl)%list <> [] ->
  skipSpace (Slice (pre ++ run ++ tl) sp) (Z.of_nat (length pre))
    = Ret (Z.of_nat (length pre) + Z.of_nat (length run)) /\
  forall i, skipSpace (Slice [] sp) i = Panic.
Proof.
  intros Hrun Htl Hne. split; [|reflexivity].
  now apply (skipSpace_at _ sp pre run tl).
Qed.

(** X9. [parseUint32] reads a run of decimal digits as a number in base 10,
    reduced modulo 2^32, and stops at the first byte that is not a digit
    or at the end of the slice. *)
Theorem parseUint32_spec (pre tl sp : list byte) (ds : list Z) :
  Forall (fun d => 0 <= d <= 9) ds ->
  match tl with [] => True | x :: _ => isDigit x = false end ->
  (pre ++ digitBytes ds ++ tl)%list <> [] ->
  parseUint32 (Slice (pre ++ digitBytes ds ++ tl) sp) (Z.of_nat (length pre))
  = Ret (decimalValue ds mod 2 ^ 32,
         Z.of_nat (length pre) + Z.of_nat (length ds)).
Proof.
  intros Hds Htl Hne. now apply (parseUint32_at _ sp pre tl ds).
Qed.

Lemma space_not_digit x : isSpace x = true -> isDigit x = false.
Proof. destruct x; vm_compute; congruence. Qed.

Lemma digit_not_space d : 0 <= d <= 9 -> isSpace (byte_of_Z (48 + d)) = false.
Proof.
  intros Hd.
  assert (d = 0 \/ d = 1 \/ d = 2 \/ d = 3 \/ d = 4 \/ d = 5 \/ d = 6 \/
          d = 7 \/ d = 8 \/ d = 9) as Hcases by lia.
  decompose [or] Hcases; subst; reflexivity.
Qed.

(** The signature tests that come before [hasPPM] fail on a slice that
    starts with "P". *)
Lemma has_P (k : byte) (more sp : list byte) :
  (78 <= length more)%nat ->
  let p := Slice ("P"%byte :: k :: more) sp in
  hasJPEG p = Ret false /\ hasPNG p = Ret false /\ hasWEBP p = Ret false /\
  hasGIF p = Ret false /\ hasBMP p = Ret false /\
  hasPPM p = Ret ((49 <=? u8 k) && (u8 k <=? 55)).
Proof.
  intros Hmore p. subst p.
  unfold hasJPEG, hasPNG, hasWEBP, hasGIF, hasBMP, hasPPM. len_tests.
  rewrite !(at_is_at _ sp 0 "P"%byte) by first [lia | reflexivity].
  rewrite (at_is_at _ sp 1 k) by first [lia | reflexivity].
  rewrite (get_at _ sp 1 k) by first [lia | reflexivity].
  eval_eqb. repeat split; reflexivity.
Qed.

(** X16. A portable anymap begins with "P" and a digit from 1 to 7, then
    white space, the width in decimal, white space, the height in
    decimal.  [GetInfo] returns the two numbers, with the type of the
    digit unless one of them is 0. *)
Theorem GetInfo_ppm (k : byte) (ws1 ws2 tl sp : list byte) (dw dh : list Z) :
  49 <= u8 k <= 55 ->
  Forall (fun c => isSpace c = true) ws1 ->
  Forall (fun c => isSpace c = true) ws2 -> ws2 <> [] ->
  Forall (fun d => 0 <= d <= 9) dw -> dw <> [] ->
  Forall (fun d => 0 <= d <= 9) dh -> dh <> [] ->
  match tl with [] => True | x :: _ => isDigit x = false end ->
  let data :=
    ("P"%byte :: k :: ws1 ++ digitBytes dw ++ ws2 ++ digitBytes dh ++ tl)%list
  in
  (80 <= length data)%nat ->
  GetInfo (Slice data sp)
  = Ret (let w := decimalValue dw mod 2 ^ 32 in
         let h := decimalValue dh mod 2 ^ 32 in
         if (w =? 0) || (h =? 0) then mkInfo Unknown w h
         else mkInfo (ppmType k) w h).
Proof.
  intros Hk Hws1 Hws2 Hne2 Hdw Hnew Hdh Hneh Htl data Hdata.
  rewrite GetInfo_switch by (unfold len; cbn [vis]; lia).
  destruct (has_P k (ws1 ++ digitBytes dw ++ ws2 ++ digitBytes dh ++ tl) sp)
    as (HJ & HP & HW & HG & HB & HPPM);
    [subst data; cbn [length] in Hdata; lia|].
  fold data in HJ, HP, HW, HG, HB, HPPM.
  cbn [switch]. rewrite HJ, HP, HW, HG, HB, HPPM. cbn [bind].
  destruct (Z.leb_spec 49 (u8 k)); [|lia].
  destruct (Z.leb_spec (u8 k) 55); [|lia]. cbn [andb].
  destruct dw as [|d0 dw]; [contradiction|].
  destruct dh as [|e0 dh]; [contradiction|].
  destruct ws2 as [|s0 ws2]; [contradiction|].
  inversion Hdw as [|? ? Hd0 Hdw']; subst.
  inversion Hdh as [|? ? He0 Hdh']; subst.
  inversion Hws2 as [|? ? Hs0 Hws2']; subst.
  unfold ppm.
  rewrite (index_at _ sp 1 k) by first [lia | reflexivity]. cbn [bind].
  rewrite (skipSpace_at data sp ["P"%byte; k] ws1
             (digitBytes (d0 :: dw) ++ (s0 :: ws2) ++ digitBytes (e0 :: dh)
                ++ tl) 2);
    [|reflexivity|reflexivity|discriminate|assumption
     |cbn [digitBytes map app]; now apply digit_not_space].
  cbn [bind].
  rewrite (parseUint32_at data sp ("P"%byte :: k :: ws1)
             ((s0 :: ws2) ++ digitBytes (e0 :: dh) ++ tl) (d0 :: dw));
    [|subst data; cbn [app]; rewrite <- ?app_assoc; cbn [app]; reflexivity
     |cbn [length]; lia|discriminate|assumption
     |cbn [app]; now apply space_not_digit].
  cbn [bind].
  rewrite (skipSpace_at data sp
             ("P"%byte :: k :: ws1 ++ digitBytes (d0 :: dw)) (s0 :: ws2)
             (digitBytes (e0 :: dh) ++ tl));
    [|subst data; cbn [app]; rewrite <- ?app_assoc; cbn [app]; reflexivity
     |unfold digitBytes; cbn [length];
      rewrite ?length_app, ?length_map; cbn [length]; lia
     |discriminate|assumption
     |cbn [digitBytes map app]; now apply digit_not_space].
  cbn [bind].
  rewrite (parseUint32_at data sp
             ("P"%byte :: k :: ws1 ++ digitBytes (d0 :: dw) ++ s0 :: ws2)
             tl (e0 :: dh));
    [|subst data; cbn [app]; rewrite <- ?app_assoc; cbn [app]; reflexivity
     |unfold digitBytes; cbn [length];
      rewrite ?length_app, ?length_map; cbn [length];
      rewrite ?length_app, ?length_map; cbn [length]; lia
     |discriminate|assumption|assumption].
  cbn [bind]. unfold uint32, ppmType.
  cbn [Width Height Type_ setType setWidth setHeight Info0].
  destruct (_ || _); [reflexivity|].
  repeat match goal with
    | |- context [if ?c then _ else _] => destruct c
    end; try reflexivity.
Qed.

(** * Wider integers, WebP and lines *)

(** X5. [Uint16] of either order returns the number whose two bytes, in that
    order, the slice starts with; it panics on a slice of fewer than two
    bytes. *)
Theorem Uint16_decodes (w : Z) (rest sp : list byte) :
  0 <= w < 2 ^ 16 ->
  Uint16 (byteOrder := littleEndian) (Slice (littleBytes 2 w ++ rest) sp)
    = Ret w /\
  Uint16 (byteOrder := bigEndian) (Slice (bigBytes 2 w ++ rest) sp) = Ret w /\
  forall (o : byteOrder) b,
    o = littleEndian \/ o = bigEndian -> len b < 2 -> Uint16 b = Panic.
Proof.
  intros Hw. split; [|split].
  - unfold Uint16, littleEndian, littleBytes. cbn [app]. read_bytes.
    rewrite !u8_byte_of_Z by (apply Z.mod_pos_bound; lia).
    rewrite Z.lor_comm. now rewrite bytes2_value.
  - unfold Uint16, bigEndian, bigBytes, littleBytes. cbn [rev app].
    read_bytes.
    rewrite !u8_byte_of_Z by (apply Z.mod_pos_bound; lia).
    rewrite Z.lor_comm. now rewrite bytes2_value.
  - intros o b [-> | ->] Hb; unfold Uint16, littleEndian, bigEndian, index;
      destruct (Z.ltb_spec 1 (len b)); try lia; reflexivity.
Qed.

(** Arithmetic on the bytes of a 64-bit number. *)
Ltac byte_arith64 :=
  change (2 ^ 8) with 256 in *; change (2 ^ 16) with 65536 in *;
  change (2 ^ 24) with 16777216 in *; change (2 ^ 32) with 4294967296 in *;
  change (2 ^ 40) with 1099511627776 in *;
  change (2 ^ 48) with 281474976710656 in *;
  change (2 ^ 56) with 72057594037927936 in *;
  change (2 ^ 64) with 18446744073709551616 in *;
  Z.to_euclidean_division_equations; lia.

(** X7. [readUint64] returns the number whose eight bytes, most significant
    first, the slice starts with; it panics on a slice of fewer than eight
    bytes. *)
Theorem readUint64_decodes (w : Z) (rest sp : list byte) :
  0 <= w < 2 ^ 64 ->
  readUint64 (Slice (bigBytes 8 w ++ rest) sp) = Ret w /\
  forall b, len b < 8 -> readUint64 b = Panic.
Proof.
  intros Hw. split.
  - unfold readUint64, bigBytes, littleBytes. cbn [rev app]. read_bytes.
    rewrite !u8_byte_of_Z by (apply Z.mod_pos_bound; lia).
    f_equal. rewrite !Z.shiftl_mul_pow2 by lia.
    set (b0 := w mod 256). set (b1 := w / 256 mod 256).
    set (b2 := w / 256 / 256 mod 256).
    set (b3 := w / 256 / 256 / 256 mod 256).
    set (b4 := w / 256 / 256 / 256 / 256 mod 256).
    set (b5 := w / 256 / 256 / 256 / 256 / 256 mod 256).
    set (b6 := w / 256 / 256 / 256 / 256 / 256 / 256 mod 256).
    set (b7 := w / 256 / 256 / 256 / 256 / 256 / 256 / 256 mod 256).
    assert (0 <= b0 < 256 /\ 0 <= b1 < 256 /\ 0 <= b2 < 256 /\
            0 <= b3 < 256 /\ 0 <= b4 < 256 /\ 0 <= b5 < 256 /\
            0 <= b6 < 256 /\ 0 <= b7 < 256) as Hb
      by (repeat split; apply Z.mod_pos_bound; lia).
    assert (w = b7 * 2 ^ 56 + b6 * 2 ^ 48 + b5 * 2 ^ 40 + b4 * 2 ^ 32
                + b3 * 2 ^ 24 + b2 * 2 ^ 16 + b1 * 2 ^ 8 + b0) as Hsum
      by (subst b0 b1 b2 b3 b4 b5 b6 b7; byte_arith64).
    clearbody b0 b1 b2 b3 b4 b5 b6 b7.
    rewrite (lor_add (b7 * 2 ^ 56) (b6 * 2 ^ 48) 56 b7) by byte_arith64.
    rewrite (lor_add _ (b5 * 2 ^ 40) 48 (b7 * 2 ^ 8 + b6)) by byte_arith64.
    rewrite (lor_add _ (b4 * 2 ^ 32) 40 (b7 * 2 ^ 16 + b6 * 2 ^ 8 + b5))
      by byte_arith64.
    rewrite (lor_add _ (b3 * 2 ^ 24) 32
               (b7 * 2 ^ 24 + b6 * 2 ^ 16 + b5 * 2 ^ 8 + b4))
      by byte_arith64.
    rewrite (lor_add _ (b2 * 2 ^ 16) 24
               (b7 * 2 ^ 32 + b6 * 2 ^ 24 + b5 * 2 ^ 16 + b4 * 2 ^ 8 + b3))
      by byte_arith64.
    rewrite (lor_add _ (b1 * 2 ^ 8) 16
               (b7 * 2 ^ 40 + b6 * 2 ^ 32 + b5 * 2 ^ 24 + b4 * 2 ^ 16
                + b3 * 2 ^ 8 + b2))
      by byte_arith64.
    rewrite (lor_add _ b0 8
               (b7 * 2 ^ 48 + b6 * 2 ^ 40 + b5 * 2 ^ 32 + b4 * 2 ^ 24
                + b3 * 2 ^ 16 + b2 * 2 ^ 8 + b1))
      by byte_arith64.
    lia.
  - intros b Hb. unfold readUint64, index.
    destruct (Z.ltb_spec 7 (len b)); try lia; reflexivity.
Qed.

(** The value of three bytes, least significant first. *)
Lemma bytes3_little v :
  0 <= v < 2 ^ 24 ->
  Z.lor (Z.lor (v mod 256) (Z.shiftl (v / 256 mod 256) 8))
        (Z.shiftl (v / 256 / 256 mod 256) 16) = v.
Proof.
  intros Hv. rewrite !Z.shiftl_mul_pow2 by lia.
  rewrite (Z.lor_comm (v mod 256)).
  rewrite (lor_add _ (v mod 256) 8 (v / 256 mod 256)) by byte_arith.
  rewrite Z.lor_comm.
  rewrite (lor_add (v / 256 / 256 mod 256 * 2 ^ 16) _ 16
             (v / 256 / 256 mod 256)) by byte_arith.
  byte_arith.
Qed.

(** X15. An extended WebP file: "RIFF", the file size, "WEBP", "VP8X", eight
    bytes of chunk size, flags and reserved bytes, then the width minus one
    and the height minus one as little-endian 24-bit numbers. *)
Theorem GetInfo_webp_extended (c d rest sp : list byte) (w h : Z) :
  length c = 4%nat -> length d = 8%nat -> (50 <= length rest)%nat ->
  1 <= w <= 2 ^ 24 -> 1 <= h <= 2 ^ 24 ->
  GetInfo (Slice (["R"; "I"; "F"; "F"]%byte ++ c
                    ++ ["W"; "E"; "B"; "P"; "V"; "P"; "8"; "X"]%byte ++ d
                    ++ littleBytes 3 (w - 1) ++ littleBytes 3 (h - 1)
                    ++ rest) sp)
  = Ret (mkInfo WEBP w h).
Proof.
  intros Hc Hd Hrest Hw Hh.
  do 5 (destruct c as [|? c]; try discriminate).
  do 9 (destruct d as [|? d]; try discriminate).
  unfold littleBytes. cbn [app].
  rewrite GetInfo_switch by (unfold len; cbn [vis length]; lia).
  leading. cbn [switch]. rewrite HJ, HP, HW. eval_eqb.
  unfold webp. len_tests. read_bytes. eval_eqb.
  rewrite !u8_byte_of_Z by (apply Z.mod_pos_bound; lia).
  rewrite !bytes3_little by lia.
  unfold typeIfSized. cbn [Width Height setWidth setHeight setType Type_ Info0].
  destruct (Z.eqb_spec (w - 1 + 1) 0); [lia|].
  destruct (Z.eqb_spec (h - 1 + 1) 0); [lia|].
  cbn [negb andb setType Width Height Type_].
  replace (w - 1 + 1) with w by lia. replace (h - 1 + 1) with h by lia.
  reflexivity.
Qed.

(** Re-slicing cuts the backing array. *)
Lemma reslice_app (v sp a m c : list byte) i j :
  (v ++ sp = a ++ m ++ c)%list ->
  i = Z.of_nat (length a) -> j = Z.of_nat (length a) + Z.of_nat (length m) ->
  reslice (Slice v sp) i j = Ret (Slice m c).
Proof.
  intros Harr -> ->. unfold reslice, cap. cbn [vis spare].
  assert (length v + length sp = length a + (length m + length c))%nat as Hlen
    by (rewrite <- !length_app, Harr; reflexivity).
  destruct (Z.leb_spec 0 (Z.of_nat (length a))); [|lia].
  destruct (Z.leb_spec (Z.of_nat (length a))
              (Z.of_nat (length a) + Z.of_nat (length m))); [|lia].
  destruct (Z.leb_spec (Z.of_nat (length a) + Z.of_nat (length m))
              (Z.of_nat (length v + length sp))); [|lia].
  cbn [andb]. rewrite Harr. f_equal. f_equal.
  - rewrite Nat2Z.id.
    replace (Z.to_nat (Z.of_nat (length a) + Z.of_nat (length m)
                       - Z.of_nat (length a))) with (length m) by lia.
    change skipn with (@drop byte). change firstn with (@take byte).
    now rewrite drop_app_length, take_app_length.
  - replace (Z.to_nat (Z.of_nat (length a) + Z.of_nat (length m)))
      with (length (a ++ m)) by (rewrite length_app; lia).
    change skipn with (@drop byte). rewrite app_assoc.
    now rewrite drop_app_length.
Qed.

(** X10. [readLine] returns the bytes up to and including the next line feed
    and the position after it.  Where no line feed is left it slices one
    byte beyond the end of the slice: it takes the first byte of the spare
    capacity into the line, and panics where there is none. *)
Theorem readLine_spec (pre line tl sp : list byte) (x : byte) :
  Forall (fun c => Byte.eqb c x0a = false) line ->
  readLine (Slice (pre ++ line ++ x0a :: tl) sp) (Z.of_nat (length pre))
    = Ret (Slice (line ++ [x0a]) (tl ++ sp),
           Z.of_nat (length pre) + Z.of_nat (length line) + 1) /\
  ((pre ++ line)%list <> [] ->
   readLine (Slice (pre ++ line) []) (Z.of_nat (length pre)) = Panic /\
   readLine (Slice (pre ++ line) (x :: sp)) (Z.of_nat (length pre))
     = Ret (Slice (line ++ [x]) sp,
            Z.of_nat (length pre) + Z.of_nat (length line) + 1)).
Proof.
  intros Hline. split; [|intros Hne; split].
  - unfold readLine.
    destruct (index_last (pre ++ line ++ x0a :: tl) sp) as [y ->];
      [destruct pre, line; discriminate|].
    cbn [bind].
    rewrite (scan_run (fun c => Byte.eqb c x0a) line pre (x0a :: tl) sp);
      [|assumption|reflexivity
       |unfold scanFuel; cbn [vis]; rewrite !length_app; lia].
    cbn [bind].
    rewrite (reslice_app _ sp pre (line ++ [x0a]) (tl ++ sp));
      [reflexivity| |reflexivity|rewrite length_app; cbn [length]; lia].
    rewrite <- !app_assoc. reflexivity.
  - unfold readLine. destruct (index_last (pre ++ line) [] Hne) as [y ->].
    cbn [bind].
    pose proof (scan_run (fun c => Byte.eqb c x0a) line pre [] []
                  (scanFuel (Slice (pre ++ line) [])) Hline I) as Hscan.
    rewrite app_nil_r in Hscan. rewrite Hscan
      by (unfold scanFuel; cbn [vis]; rewrite !length_app; lia).
    cbn [bind]. unfold reslice, cap. cbn [vis spare length].
    rewrite length_app.
    destruct (Z.leb_spec 0 (Z.of_nat (length pre))); [|lia].
    destruct (Z.leb_spec (Z.of_nat (length pre))
                (Z.of_nat (length pre) + Z.of_nat (length line) + 1)); [|lia].
    destruct (Z.leb_spec (Z.of_nat (length pre) + Z.of_nat (length line) + 1)
                (Z.of_nat (length pre + length line + 0))); [lia|].
    reflexivity.
  - unfold readLine.
    destruct (index_last (pre ++ line) (x :: sp) Hne) as [y ->].
    cbn [bind].
    pose proof (scan_run (fun c => Byte.eqb c x0a) line pre [] (x :: sp)
                  (scanFuel (Slice (pre ++ line) (x :: sp))) Hline I)
      as Hscan.
    rewrite app_nil_r in Hscan. rewrite Hscan
      by (unfold scanFuel; cbn [vis]; rewrite !length_app; lia).
    cbn [bind].
    rewrite (reslice_app _ (x :: sp) pre (line ++ [x]) sp);
      [reflexivity| |reflexivity|rewrite length_app; cbn [length]; lia].
    rewrite <- !app_assoc. reflexivity.
Qed.

(** * Names of the types *)

(** X17. Different types have different names, and only Unknown has the empty
    name and the empty MIME type.  The MIME type tells the types apart too,
    except BPM, PPM and XV, which share "image/x-portable-pixmap". *)
Theorem Type_String_injective (t t' : ImageType) :
  (Type_String t = Type_String t' -> t = t') /\
  (Type_String t = "" <-> t = Unknown) /\
  (Mime t = "" <-> t = Unknown) /\
  (Mime t = Mime t' ->
   t = t' \/ (In t [BPM; PPM; XV] /\ In t' [BPM; PPM; XV])).
Proof.
  split; [|split; [|split]].
  - destruct t, t'; first [reflexivity | discriminate].
  - destruct t; split; first [reflexivity | discriminate].
  - destruct t; split; first [reflexivity | discriminate].
  - destruct t, t'; intros H;
      first [ left; reflexivity | discriminate H | right; simpl; tauto ].
Qed.

(** * One goroutine for each URL that parses *)

Section Separated.

Context (lib : GoLib) (urls : list string).

Lemma separated_start rs : separated lib (mkGrouping rs ∅ []).
Proof.
  split; simpl.
  - constructor.
  - intros o H. now apply elem_of_nil in H.
  - intros o items H. now rewrite lookup_empty in H.
  - intros o items it H. now rewrite lookup_empty in H.
Qed.

(** What a round of the parsing loop does to the groups. *)
Lemma groupURL_groups st m u st' :
  groupURL lib st m u = Ret st' ->
  (originGroups st' = originGroups st /\ origins st' = origins st) \/
  (parseError lib u = None /\
   originGroups st'
   = <[originOf lib u :=
         (default [] (originGroups st !! originOf lib u) ++ [mkItem m u])%list]>
       (originGroups st) /\
   origins st' = if originGroups st !! originOf lib u is Some _
                 then origins st else (origins st ++ [originOf lib u])%list).
Proof.
  unfold groupURL, parseError, originOf. intros H.
  apply bind_Ret_inv in H as (rs & _ & H).
  destruct (url_Parse lib u) as [parsed|err].
  - destruct (_ || _).
    + apply bind_Ret_inv in H as (rs' & _ & H). injection H as <-. now left.
    + injection H as <-. right. repeat split.
  - apply bind_Ret_inv in H as (rs' & _ & H). injection H as <-. now left.
Qed.

Lemma groupURL_separated m st u st' :
  grouped lib urls m st -> separated lib st -> urls !! m = Some u ->
  groupURL lib st m u = Ret st' -> separated lib st'.
Proof.
  intros G O Hu H.
  apply groupURL_groups in H as [[Hg Ho]|(Hok & Hg & Ho)].
  { destruct O. split; rewrite ?Hg, ?Ho; assumption. }
  split; rewrite ?Hg, ?Ho.
  - destruct (originGroups st !! originOf lib u) eqn:Eold;
      [apply (separated_origins lib _ O)|].
    apply NoDup_app. split; [apply (separated_origins lib _ O)|].
    split; [|apply NoDup_singleton].
    intros o Hin Hin'. apply list_elem_of_singleton in Hin' as ->.
    apply (separated_listed lib _ O) in Hin. rewrite Eold in Hin.
    now destruct Hin.
  - intros o Hin. destruct (decide (o = originOf lib u)) as [->|Hne];
      [rewrite lookup_insert_eq; eauto|].
    rewrite lookup_insert_ne by auto. apply (separated_listed lib _ O).
    destruct (originGroups st !! originOf lib u); [assumption|].
    apply elem_of_app in Hin as [?|Hin]; [assumption|].
    apply list_elem_of_singleton in Hin. contradiction.
  - intros o items Hitems.
    destruct (decide (o = originOf lib u)) as [->|Hne].
    + rewrite lookup_insert_eq in Hitems. injection Hitems as <-.
      rewrite map_app. apply NoDup_app. split; [|split].
      * destruct (originGroups st !! originOf lib u) eqn:Eold;
          [apply (separated_index lib _ O _ _ Eold)|constructor].
      * intros j Hj Hj'. simpl in Hj'.
        apply list_elem_of_singleton in Hj' as ->.
        apply list_elem_of_fmap in Hj as (it & Hit & Hin).
        destruct (originGroups st !! originOf lib u) eqn:Eold;
          simpl in Hin; [|now apply elem_of_nil in Hin].
        destruct (grouped_items _ _ _ _ G _ _ _ Eold Hin) as (Hlt & _).
        simpl in Hit. lia.
      * apply NoDup_singleton.
    + rewrite lookup_insert_ne in Hitems by auto.
      apply (separated_index lib _ O _ _ Hitems).
  - intros o items it Hitems Hit.
    destruct (decide (o = originOf lib u)) as [->|Hne].
    + rewrite lookup_insert_eq in Hitems. injection Hitems as <-.
      apply elem_of_app in Hit as [Hit|Hit].
      * destruct (originGroups st !! originOf lib u) eqn:Eold;
          simpl in Hit; [|now apply elem_of_nil in Hit].
        apply (separated_origin lib _ O _ _ _ Eold Hit).
      * now apply list_elem_of_singleton in Hit as ->.
    + rewrite lookup_insert_ne in Hitems by auto.
      apply (separated_origin lib _ O _ _ _ Hitems Hit).
Qed.

Lemma groupURLs_separated rest : forall m st st',
  grouped lib urls m st -> separated lib st ->
  (forall k u, rest !! k = Some u -> urls !! (m + k)%nat = Some u) ->
  groupURLs lib st m rest = Ret st' -> separated lib st'.
Proof.
  induction rest as [|u rest IH]; intros m st st' G O Hrest H; simpl in H.
  - now injection H as <-.
  - assert (urls !! m = Some u) as Hu.
    { rewrite <- (Nat.add_0_r m). now apply Hrest. }
    destruct (groupURL_grouped lib urls m st u G Hu) as (st1 & H1 & G1).
    rewrite H1 in H. cbn [bind] in H.
    apply (IH (S m) st1 st' G1); [|intros k v Hk|assumption].
    + exact (groupURL_separated m st u st1 G O Hu H1).
    + replace (S m + k)%nat with (m + S k)%nat by lia. now apply Hrest.
Qed.

Lemma insertString_perm s l : Permutation (insertString s l) (s :: l).
Proof.
  induction l as [|x l IH]; simpl; [reflexivity|].
  destruct (String.leb s x); [reflexivity|].
  rewrite IH. apply perm_swap.
Qed.

Lemma sortStrings_perm l : Permutation (sortStrings l) l.
Proof.
  unfold sortStrings. induction l as [|x l IH]; simpl; [reflexivity|].
  rewrite insertString_perm. now constructor.
Qed.

Lemma NoDup_flat_map {A B} (f : A -> list B) (l : list A) :
  NoDup l -> (forall a, a ∈ l -> NoDup (f a)) ->
  (forall a a' b, a ∈ l -> a' ∈ l -> b ∈ f a -> b ∈ f a' -> a = a') ->
  NoDup (flat_map f l).
Proof.
  induction 1 as [|a l Ha Hl IH]; intros Hf Hdisj; simpl; [constructor|].
  apply NoDup_app. split; [apply Hf, list_elem_of_here|]. split.
  - intros b Hb Hb'. apply list_elem_of_In, in_flat_map in Hb'
      as (a' & Ha' & Hb').
    apply list_elem_of_In in Ha', Hb'.
    assert (a = a') as <-; [|contradiction].
    eapply Hdisj; eauto using list_elem_of_here, list_elem_of_further.
  - apply IH.
    + intros; apply Hf. now apply list_elem_of_further.
    + intros a1 a2 b ? ?. apply Hdisj; now apply list_elem_of_further.
Qed.

End Separated.

Lemma slotsOf_spawnedOf st workers os :
  slotsOf (spawnedOf st workers os)
  = flat_map (fun o => map index_ (default [] (originGroups st !! o))) os.
Proof.
  unfold slotsOf, spawnedOf. induction os as [|o os IH]; [reflexivity|].
  cbn [flat_map]. rewrite map_app, IH. f_equal.
  rewrite map_map. reflexivity.
Qed.

(** X26. The goroutines of a batch: no two of them write the same slot, and
    the slots they write are those of the URLs that parsed; each carries
    the URL of its slot. *)
Theorem startGoroutines_slots lib urls options rs spawned :
  startGoroutines lib urls (normalizeHTTPImageOptions options)
    = Ret (rs, spawned) ->
  NoDup (slotsOf spawned) /\
  (forall j, j ∈ slotsOf spawned <->
             exists u, urls !! j = Some u /\ parseError lib u = None) /\
  (forall g, In g spawned ->
             urls !! index_ (fst g) = Some (rawURL_ (fst g))).
Proof.
  unfold startGoroutines. intros H.
  destruct (groupURLs_grouped lib urls urls 0
              (mkGrouping (replicate (length urls) Result0) ∅ []))
    as (st & Hst & G); [apply grouped_start|reflexivity|auto|].
  pose proof (groupURLs_separated lib urls urls 0 _ st (grouped_start lib urls)
                (separated_start lib _) ltac:(auto) Hst) as O.
  rewrite Hst in H. cbn [bind] in H.
  rewrite (spawnAll_spawnedOf _ _ _ _ _ G) in H. cbn [bind] in H.
  injection H as _ <-.
  split; [|split].
  - rewrite slotsOf_spawnedOf. apply NoDup_flat_map.
    + rewrite sortStrings_perm. apply (separated_origins _ _ O).
    + intros o _. destruct (originGroups st !! o) as [items|] eqn:Eo;
        simpl; [apply (separated_index _ _ O _ _ Eo)|constructor].
    + intros o o' j _ _ Hj Hj'.
      apply list_elem_of_fmap in Hj as (it & -> & Hit).
      apply list_elem_of_fmap in Hj' as (it' & Heq & Hit').
      destruct (originGroups st !! o) as [items|] eqn:Eo;
        simpl in Hit; [|now apply elem_of_nil in Hit].
      destruct (originGroups st !! o') as [items'|] eqn:Eo';
        simpl in Hit'; [|now apply elem_of_nil in Hit'].
      destruct (grouped_items _ _ _ _ G _ _ _ Eo Hit) as (_ & Hu & _).
      destruct (grouped_items _ _ _ _ G _ _ _ Eo' Hit') as (_ & Hu' & _).
      rewrite <- (separated_origin _ _ O _ _ _ Eo Hit).
      rewrite <- (separated_origin _ _ O _ _ _ Eo' Hit').
      rewrite Heq in Hu. congruence.
  - intros j. split.
    + intros Hj. apply list_elem_of_fmap in Hj as (g & -> & Hg).
      apply list_elem_of_In, (spawnedOf_started lib urls options st g G) in Hg
        as (_ & Hu & Hok & _).
      eauto.
    + intros (u & Hu & Hok).
      apply list_elem_of_fmap. exists (mkItem j u, workerOf options).
      split; [reflexivity|]. apply list_elem_of_In.
      exact (spawnedOf_all lib urls options st j u G Hu Hok).
  - intros g Hg.
    now apply (spawnedOf_started lib urls options st g G) in Hg
      as (_ & Hu & _).
Qed.

(** * Reading from a reader *)

Section ReaderFacts.

Context (growslice : Z -> Z -> Z).

Lemma vis_append buf data : vis (append growslice buf data) = (vis buf ++ data)%list.
Proof. unfold append. destruct (_ <=? _); reflexivity. Qed.

Lemma delivered_S r n :
  delivered r (S n) = (delivered r n ++ read_data (r n))%list.
Proof.
  unfold delivered. rewrite seq_S, map_app, concat_app. cbn.
  now rewrite app_nil_r.
Qed.

Lemma vis_buffered r n : vis (buffered growslice r n) = delivered r n.
Proof.
  induction n as [|n IH]; [reflexivity|].
  rewrite delivered_S. cbn [buffered].
  destruct (Z.ltb_spec 0 (Z.of_nat (length (read_data (r n))))).
  - now rewrite vis_append, IH.
  - destruct (read_data (r n)); [|cbn [length] in *; lia].
    now rewrite app_nil_r.
Qed.

(** One round of the loop either returns or goes on with the buffer of
    the next round. *)
Lemma GetInfoReaderFrom_sound fuel r :
  forall k i err,
  GetInfoReaderFrom growslice fuel r k (buffered growslice r k)
    = Ret (i, err) ->
  match err with
  | Some _ => i = Info0
  | None => exists n, GetInfo (buffered growslice r n) = Ret i
  end.
Proof.
  induction fuel as [|fuel IH]; intros k i err; [discriminate|].
  cbn [GetInfoReaderFrom].
  destruct (4096 <? _); [discriminate|].
  assert (buffered growslice r (S k)
          = if 0 <? Z.of_nat (length (read_data (r k)))
            then append growslice (buffered growslice r k) (read_data (r k))
            else buffered growslice r k) as Hnext by reflexivity.
  destruct (0 <? Z.of_nat (length (read_data (r k)))).
  - rewrite <- Hnext.
    destruct (GetInfo (buffered growslice r (S k))) as [inf| |] eqn:Hinf;
      [|discriminate..].
    cbn [bind]. destruct (_ && _).
    + cbn [bind]. intros [= <- <-]. now exists (S k).
    + cbn [bind]. destruct (read_err (r k)) as [[|e]|].
      * rewrite Hinf. cbn [bind]. intros [= <- <-]. now exists (S k).
      * now intros [= <- <-].
      * apply IH.
  - rewrite <- Hnext. cbn [bind]. destruct (read_err (r k)) as [[|e]|].
    + destruct (GetInfo (buffered growslice r (S k))) as [inf| |] eqn:Hinf;
        [|discriminate..].
      cbn [bind]. intros [= <- <-]. now exists (S k).
    + now intros [= <- <-].
    + apply IH.
Qed.

(** X18. What [GetInfoReader] returns without an error is what the sniffer
    returns on the buffer after some number of reads, which holds the bytes
    those reads delivered; with an error it returns the zero [Info]. *)
Theorem GetInfoReader_sound fuel r i err :
  GetInfoReader growslice fuel r = Ret (i, err) ->
  match err with
  | Some _ => i = Info0
  | None =>
      exists n, GetInfo (buffered growslice r n) = Ret i /\
                vis (buffered growslice r n) = delivered r n
  end.
Proof.
  intros H. apply (GetInfoReaderFrom_sound fuel r 0) in H.
  destruct err; [assumption|]. destruct H as [n Hn].
  exists n. split; [assumption|apply vis_buffered].
Qed.

Lemma GetInfo_small p : len p < 80 -> GetInfo p = Ret Info0.
Proof.
  intros Hp. unfold GetInfo, minOffset.
  destruct (Z.ltb_spec (len p) 80); [reflexivity|lia].
Qed.

Lemma delivered_le r n m :
  (n <= m)%nat -> (length (delivered r n) <= length (delivered r m))%nat.
Proof.
  induction 1 as [|m _ IH]; [lia|].
  rewrite delivered_S, length_app. lia.
Qed.

Lemma GetInfoReaderFrom_short r k e :
  (forall j, (j < k)%nat -> read_err (r j) = None) ->
  read_err (r k) = Some e ->
  (length (delivered r (S k)) < 80)%nat ->
  forall d j fuel, (j + d = k)%nat -> (d < fuel)%nat ->
  GetInfoReaderFrom growslice fuel r j (buffered growslice r j)
  = Ret (Info0, match e with io_EOF => None | io_Err err => Some err end).
Proof.
  intros Hnone Herr Hlen.
  assert (forall n, (n <= S k)%nat ->
            GetInfo (buffered growslice r n) = Ret Info0) as Hsmall.
  { intros n Hn. apply GetInfo_small. unfold len. rewrite vis_buffered.
    pose proof (delivered_le r n (S k) Hn). lia. }
  assert (forall n, (n <= k)%nat ->
            (Z.of_nat (length (read_data (r n))) <= 4096)) as Hchunk.
  { intros n Hn. pose proof (delivered_le r (S n) (S k) ltac:(lia)) as Hle.
    rewrite delivered_S, length_app in Hle. lia. }
  induction d as [|d IH]; intros j fuel Hj Hfuel;
    (destruct fuel as [|fuel]; [lia|]); cbn [GetInfoReaderFrom].
  all: destruct (Z.ltb_spec 4096 (Z.of_nat (length (read_data (r j)))));
    [specialize (Hchunk j ltac:(lia)); lia|].
  all: assert (buffered growslice r (S j)
               = if 0 <? Z.of_nat (length (read_data (r j)))
                 then append growslice (buffered growslice r j)
                        (read_data (r j))
                 else buffered growslice r j) as Hnext by reflexivity.
  all: destruct (0 <? Z.of_nat (length (read_data (r j))));
    rewrite <- Hnext, ?(Hsmall (S j)) by lia;
    cbn [bind Type_ Width Height Info0 ImageType_eqb negb andb].
  - replace j with k by lia. rewrite Herr.
    replace (S j) with (S k) by lia.
    destruct e; [rewrite Hsmall by lia|]; reflexivity.
  - replace j with k by lia. rewrite Herr.
    replace (S j) with (S k) by lia.
    destruct e; [rewrite Hsmall by lia|]; reflexivity.
  - rewrite Hnone by lia. apply IH; lia.
  - rewrite Hnone by lia. apply IH; lia.
Qed.

(** X19. A reader that delivers fewer than 80 bytes before it reports the end
    of the input, or an error, makes [GetInfoReader] return the zero
    [Info], with no error at the end of the input and with the reader's
    error otherwise -- however the bytes are split over the reads. *)
Theorem GetInfoReader_short r k e fuel :
  (forall j, (j < k)%nat -> read_err (r j) = None) ->
  read_err (r k) = Some e ->
  (length (delivered r (S k)) < 80)%nat ->
  (k < fuel)%nat ->
  GetInfoReader growslice fuel r
  = Ret (Info0, match e with io_EOF => None | io_Err err => Some err end).
Proof.
  intros Hnone Herr Hlen Hfuel.
  apply (GetInfoReaderFrom_short r k e Hnone Herr Hlen k 0%nat fuel); lia.
Qed.

(** X20. A reader that delivers all its bytes, at most 4096, in one read and
    then reports the end of the input, in that read or in the next: the
    result is what [GetInfo] returns on those bytes in the buffer of
    capacity 4096. *)
Theorem GetInfoReader_single r data i fuel :
  read_data (r 0%nat) = data -> (0 < length data <= 4096)%nat ->
  read_err (r 0%nat) = Some io_EOF \/
  (read_err (r 0%nat) = None /\ r 1%nat = mkRead [] (Some io_EOF)) ->
  GetInfo (Slice data (replicate (4096 - length data) x00)) = Ret i ->
  (1 < fuel)%nat ->
  GetInfoReader growslice fuel r = Ret (i, None).
Proof.
  intros Hdata Hlen Hend Hinfo Hfuel.
  destruct fuel as [|[|fuel]]; try lia.
  unfold GetInfoReader. cbn [GetInfoReaderFrom]. rewrite Hdata.
  destruct (Z.ltb_spec 4096 (Z.of_nat (length data))); [lia|].
  destruct (Z.ltb_spec 0 (Z.of_nat (length data))); [|lia].
  assert (append growslice (Slice [] (replicate 4096 x00)) data
          = Slice data (replicate (4096 - length data) x00)) as ->.
  { unfold append, len, cap. cbn [vis spare length app].
    rewrite length_replicate.
    destruct (Z.leb_spec (Z.of_nat 0 + Z.of_nat (length data))
                (Z.of_nat (0 + 4096))); [|lia].
    now rewrite drop_replicate. }
  rewrite Hinfo. cbn [bind].
  destruct (_ && _); [reflexivity|]. cbn [bind].
  destruct Hend as [-> | [-> Hnext]].
  - rewrite Hinfo. reflexivity.
  - rewrite Hnext. cbn [read_data read_err length].
    destruct (Z.ltb_spec 4096 (Z.of_nat 0)); [lia|].
    destruct (Z.ltb_spec 0 (Z.of_nat 0)); [lia|]. cbn [bind].
    rewrite Hinfo. reflexivity.
Qed.

End ReaderFacts.

(** * Options, once more *)

Lemma normalizeHTTPImageOptions_fixed r nr g :
  1 <= r -> 1 <= nr -> 1 <= g -> nr <= r ->
  normalizeHTTPImageOptions (mkOptions r nr g) = mkOptions r nr g.
Proof.
  intros. unfold normalizeHTTPImageOptions.
  cbn [ConcurrentRequestsReusable ConcurrentRequestsNonReusable
       MaxConcurrentConnections].
  destruct (Z.ltb_spec r 1); [lia|].
  cbn [ConcurrentRequestsReusable ConcurrentRequestsNonReusable
       MaxConcurrentConnections].
  destruct (Z.ltb_spec nr 1); [lia|].
  cbn [ConcurrentRequestsReusable ConcurrentRequestsNonReusable
       MaxConcurrentConnections].
  destruct (Z.ltb_spec g 1); [lia|].
  cbn [ConcurrentRequestsReusable ConcurrentRequestsNonReusable
       MaxConcurrentConnections].
  destruct (Z.ltb_spec r nr); [lia|reflexivity].
Qed.

Lemma normalizeHTTPImageOptions_range o :
  let n := normalizeHTTPImageOptions o in
  1 <= ConcurrentRequestsReusable n /\ 1 <= ConcurrentRequestsNonReusable n /\
  1 <= MaxConcurrentConnections n /\
  ConcurrentRequestsNonReusable n <= ConcurrentRequestsReusable n.
Proof.
  destruct o as [r nr g]. unfold normalizeHTTPImageOptions. simpl.
  unfold CONCURRENT_REQUESTS_FOR_REUSABLE_CONNECTIONS_DEFAULT,
    CONCURRENT_REQUESTS_FOR_NON_REUSABLE_CONNECTIONS_DEFAULT,
    MAX_CONCURRENT_CONNECTIONS_GLOBAL_DEFAULT.
  destruct (Z.ltb_spec r 1), (Z.ltb_spec nr 1), (Z.ltb_spec g 1); cbn;
    repeat match goal with
      | |- context [?a <? ?b] => destruct (Z.ltb_spec a b); cbn in *
      end; lia.
Qed.

(** X21. Normalizing twice is normalizing once; the batch sees its options only
    through [normalizeHTTPImageOptions]; and [GetHTTPImageInfo] is the batch
    with the three defaults. *)
Theorem normalizeHTTPImageOptions_idempotent (o : GetHTTPImageOptions) :
  normalizeHTTPImageOptions (normalizeHTTPImageOptions o)
    = normalizeHTTPImageOptions o /\
  (forall lib W order urls,
     GetHTTPImageDataWithOptions lib W order urls (normalizeHTTPImageOptions o)
     = GetHTTPImageDataWithOptions lib W order urls o) /\
  (forall lib W order urls,
     GetHTTPImageInfo lib W order urls
     = GetHTTPImageDataWithOptions lib W order urls (mkOptions 20 5 50)).
Proof.
  assert (normalizeHTTPImageOptions (normalizeHTTPImageOptions o)
          = normalizeHTTPImageOptions o) as Hidem.
  { pose proof (normalizeHTTPImageOptions_range o) as (? & ? & ? & ?).
    destruct (normalizeHTTPImageOptions o) as [r nr g]. simpl in *.
    now apply normalizeHTTPImageOptions_fixed. }
  split; [exact Hidem|]. split.
  - intros. unfold GetHTTPImageDataWithOptions. now rewrite Hidem.
  - intros. reflexivity.
Qed.

(** * What one task does *)

Lemma resolved_test i :
  ImageType_eqb (Type_ i) Unknown || (Width i =? 0) || (Height i =? 0) = false ->
  resolved i = true.
Proof.
  unfold resolved. intros H.
  apply orb_false_iff in H as [H ->]. apply orb_false_iff in H as [-> ->].
  reflexivity.
Qed.

(** One exchange: at most a request for the task's URL and a store to the
    flag; a wait comes with an error; a result that needs no more bytes is
    resolved. *)
Lemma fetchImageInfoOnce_shape lib x rawURL size i ra err more n t :
  fetchImageInfoOnce lib x rawURL size = Ret ((i, ra, err, more, n), t) ->
  Forall (fetchAction rawURL) t /\
  (err = None -> more = false -> resolved i = true) /\
  (err = None -> ra = 0).
Proof.
  unfold fetchImageInfoOnce, enableReusable, emit, lift.
  assert (Forall (fetchAction rawURL) [Request rawURL size]) as H1
    by (repeat constructor).
  assert (Forall (fetchAction rawURL)
            [Request rawURL size; StoreRangeSupported]) as H2
    by (repeat constructor).
  destruct x as [e|e|code status hdr now body].
  - intros [= <- <- <- <- <- <-]. split; [constructor|].
    split; discriminate.
  - rewrite tbind_Ret. cbn. intros [= <- <- <- <- <- <-].
    split; [assumption|]. split; discriminate.
  - rewrite tbind_Ret. intros H.
    destruct (_ : option Z);
      [cbn in H; injection H as <- <- <- <- <- <-;
       split; [assumption|split; discriminate]|].
    destruct (code =? 206); rewrite ?tbind_Ret, ?tbind_tret in H;
      (destruct (negb (code =? 200) && _);
       [cbn in H; injection H as <- <- <- <- <- <-;
        split; [assumption|split; discriminate]|]);
      (destruct body as [e|stream slack];
       [cbn in H; injection H as <- <- <- <- <- <-;
        split; [assumption|split; discriminate]|]);
      (destruct (_ <? 80);
       [cbn in H; injection H as <- <- <- <- <- <-;
        split; [assumption|split; discriminate]|]);
      (destruct (GetInfo _) as [inf| |]; cbn in H; try discriminate);
      (destruct (_ || _) eqn:Etest; cbn in H;
       injection H as <- <- <- <- <- <-;
       (split; [assumption|]); split; try discriminate; try reflexivity;
       intros _ _; now apply resolved_test).
Qed.

Lemma progressiveFrom_shape lib X rawURL budgets :
  forall k info lastErr lastRead i ra err t,
  progressiveFrom lib X rawURL budgets k info lastErr lastRead
    = Ret ((i, ra, err), t) ->
  Forall (fetchAction rawURL) t /\
  (err = None -> resolved i = true /\ requested t <> []) /\
  (err = None -> ra = 0).
Proof.
  induction budgets as [|size rest IH];
    intros k info lastErr lastRead i ra err t.
  - simpl. destruct lastErr; intros [= <- <- <- <-];
      (split; [constructor|split; discriminate]).
  - simpl. destruct (size <? 80); [apply IH|]. intros H.
    apply tbind_Ret_inv in H
      as ([[[[i1 ra1] err1] more] n] & t1 & t2 & Honce & H & ->).
    pose proof (fetchImageInfoOnce_requested _ _ _ _ _ _ _ _ _ _ Honce)
      as Hreq.
    apply fetchImageInfoOnce_shape in Honce as (Ht1 & Hres & Hra).
    destruct (Z.ltb_spec 0 ra1).
    { injection H as <- <- <- <-. rewrite app_nil_r.
      split; [assumption|]. split; intros ->; specialize (Hra eq_refl); lia. }
    destruct err1 as [e|].
    { injection H as <- <- <- <-. rewrite app_nil_r.
      split; [assumption|]. split; discriminate. }
    destruct Hreq as [Hreq|[_ ?]]; [|congruence].
    destruct more; cbn [negb] in H.
    + apply IH in H as (Ht2 & Hres2 & Hra2).
      split; [now apply Forall_app|]. split; [|assumption].
      intros E. destruct (Hres2 E) as [? _]. split; [assumption|].
      rewrite requested_app, Hreq. discriminate.
    + injection H as <- <- <- <-. rewrite app_nil_r.
      split; [assumption|]. split; [|reflexivity].
      intros _. split; [now apply Hres|]. rewrite Hreq. discriminate.
Qed.

Lemma requested_quiet rawURL d b :
  requested [Sleep d b] = [] /\ (0 < d -> Forall (fetchAction rawURL) [Sleep d b]).
Proof. split; [reflexivity|]. intros. repeat constructor. assumption. Qed.

Lemma fetchImageInfoWithRetry_shape lib w rawURL budgets i err t :
  fetchImageInfoWithRetry lib w rawURL budgets = Ret ((i, err), t) ->
  Forall (fetchAction rawURL) t /\
  (err = None -> resolved i = true /\ requested t <> []) /\
  exists r1 r2,
    requested t = (r1 ++ r2)%list /\
    r1 `prefix_of` filter (fun s => 80 <= s) budgets /\
    r2 `prefix_of` filter (fun s => 80 <= s) budgets /\
    (r2 <> [] -> exists d, In (Sleep d false) t).
Proof.
  unfold fetchImageInfoWithRetry. cbn [retryFrom]. intros H.
  apply tbind_Ret_inv in H as ([[i1 ra1] err1] & t1 & t2 & Hp1 & H & ->).
  pose proof (progressiveFrom_requested _ _ _ _ _ _ _ _ _ _ Hp1) as Hr1.
  apply progressiveFrom_shape in Hp1 as (Ht1 & Hres1 & Hra1).
  destruct err1 as [e1|].
  2: { injection H as <- <- <-. rewrite app_nil_r.
       split; [assumption|]. split; [auto|].
       exists (requested t1), []. rewrite app_nil_r.
       split; [reflexivity|]. split; [assumption|].
       split; [apply prefix_nil|congruence]. }
  destruct (Z.leb_spec ra1 0).
  { cbn [orb] in H. injection H as <- <- <-. rewrite app_nil_r.
    split; [assumption|]. split; [discriminate|].
    exists (requested t1), []. rewrite app_nil_r.
    split; [reflexivity|]. split; [assumption|].
    split; [apply prefix_nil|congruence]. }
  cbn [orb Nat.eqb] in H. unfold sleepWithContext in H.
  destruct (w_sleep w) as [ce|].
  { unfold emit in H. rewrite !tbind_Ret in H. cbn in H.
    injection H as <- <- <-.
    split; [apply Forall_app; split; [assumption|];
            now apply requested_quiet|].
    split; [discriminate|].
    exists (requested t1), []. rewrite requested_app, app_nil_r.
    split; [now rewrite app_nil_r|]. split; [assumption|].
    split; [apply prefix_nil|congruence]. }
  unfold emit in H. rewrite !tbind_Ret in H. cbn [bind tret] in H.
  rewrite tbind_Ret in H. cbn [bind] in H.
  destruct (tbind _ _) as [[[i2 err2] t2']| |] eqn:H2 in H;
    [|discriminate..].
  cbn in H. injection H as <- <- <-.
  apply tbind_Ret_inv in H2 as ([[i3 ra3] err3] & t3 & t4 & Hp2 & H & ->).
  pose proof (progressiveFrom_requested _ _ _ _ _ _ _ _ _ _ Hp2) as Hr2.
  apply progressiveFrom_shape in Hp2 as (Ht3 & Hres3 & Hra3).
  assert (t4 = [] /\ i2 = i3 /\ err2 = err3) as (-> & -> & ->).
  { cbn [Nat.eqb] in H. rewrite ?orb_true_r in H. unfold tret in H.
    destruct err3; injection H as <- <- <-; auto. }
  rewrite app_nil_r.
  split.
  { apply Forall_app. split; [assumption|].
    apply Forall_cons. split; [simpl; lia|assumption]. }
  split.
  { intros E. destruct (Hres3 E) as [? Hne]. split; [assumption|].
    rewrite requested_app. cbn. intros Hnil.
    apply app_eq_nil in Hnil as [_ Hnil]. contradiction. }
  exists (requested t1), (requested t3).
  rewrite requested_app. cbn.
  split; [reflexivity|]. split; [assumption|]. split; [assumption|].
  intros _. exists ra1. apply in_or_app. right. now left.
Qed.

Lemma held_app g t1 t2 : held g (t1 ++ t2) = held g t1 + held g t2.
Proof.
  induction t1 as [|a t1 IH]; [reflexivity|].
  destruct a as [g'|g'| | | |]; cbn [app held]; rewrite IH; lia.
Qed.

Lemma held_fetchAction rawURL g t : Forall (fetchAction rawURL) t -> held g t = 0.
Proof.
  induction 1 as [|a t Ha _ IH]; [reflexivity|].
  destruct a; cbn [held]; try assumption; contradiction.
Qed.

Lemma originLimiter_acquire_shape w l r t :
  originLimiter_acquire w l = Ret (r, t) ->
  (exists e, r = inr e /\ t = [LoadRangeSupported (w_seen w)]) \/
  (exists tier, r = inl tier /\ (tier = Base \/ tier = Extra) /\
     (tier = Extra -> w_seen w = true /\ extra l <> None) /\
     t = [LoadRangeSupported (w_seen w); Send tier]).
Proof.
  unfold originLimiter_acquire, emit. rewrite tbind_Ret.
  destruct (w_seen w) eqn:Eseen; cbn [andb].
  - destruct (extra l) as [c|] eqn:Eextra.
    + destruct (w_origin3 w) as [| |e]; cbn; intros [= <- <-].
      * right. exists Base. repeat split; auto; discriminate.
      * right. exists Extra. repeat split; auto; discriminate.
      * left. eauto.
    + destruct (w_origin2 w) as [e|]; cbn; intros [= <- <-].
      * left. eauto.
      * right. exists Base. repeat split; auto; discriminate.
  - destruct (w_origin2 w) as [e|]; cbn; intros [= <- <-].
    + left. eauto.
    + right. exists Base. repeat split; auto; discriminate.
Qed.

(** A run of [fetchImageInfo]: nothing at all, or the global slot taken
    and given back, or both slots around the fetch. *)
Lemma fetchImageInfo_shape lib w rawURL l budgets r t :
  fetchImageInfo lib w rawURL (Some l) budgets = Ret (r, t) ->
  (t = [] /\ snd r <> None) \/
  (t = [Send Global; LoadRangeSupported (w_seen w); Recv Global] /\
   snd r <> None) \/
  exists tier mid,
    (tier = Base \/ tier = Extra) /\
    (tier = Extra -> w_seen w = true /\ extra l <> None) /\
    fetchImageInfoWithRetry lib w rawURL budgets = Ret (r, mid) /\
    t = ([Send Global; LoadRangeSupported (w_seen w); Send tier] ++ mid
           ++ [Recv Global; Recv tier])%list.
Proof.
  unfold fetchImageInfo. intros H.
  apply tbind_Ret_inv in H as (e & t1 & t2 & Hacq & H & ->).
  unfold acquire, emit in Hacq. destruct (w_global w) as [e0|].
  { injection Hacq as <- <-. injection H as <- <-.
    left. split; [reflexivity|discriminate]. }
  cbn in Hacq. injection Hacq as <- <-.
  apply tbind_Ret_inv in H as (ra & t3 & t4 & Hol & H & ->).
  apply originLimiter_acquire_shape in Hol
    as [(e & -> & ->)|(tier & -> & Htier & Hextra & ->)].
  { cbn in H. injection H as <- <-. right. left.
    split; [reflexivity|discriminate]. }
  apply tbind_Ret_inv in H as (res & mid & t5 & Hretry & H & ->).
  cbn in H. injection H as <- <-.
  right. right. exists tier, mid.
  split; [exact Htier|]. split; [exact Hextra|].
  split; [exact Hretry|reflexivity].
Qed.

(** A task that returns no error returns a resolved result. *)
Lemma fetchImageInfo_resolved lib w rawURL l budgets i t :
  fetchImageInfo lib w rawURL (Some l) budgets = Ret ((i, None), t) ->
  resolved i = true.
Proof.
  intros H. apply fetchImageInfo_shape in H
    as [[_ Herr]|[[_ Herr]|(tier & mid & _ & _ & Hretry & _)]];
    try (now elim Herr).
  apply fetchImageInfoWithRetry_shape in Hretry as (_ & Hres & _).
  now destruct (Hres eq_refl).
Qed.

(** X24. A task that has returned holds no slot: every slot it took, of the
    global gate and of either tier of its origin, it has given back.  All
    its requests, sleeps and stores to the flag lie between taking the two
    slots and giving them back, and every request is for its own URL. *)
Theorem fetchImageInfo_slots lib w rawURL l budgets r t :
  fetchImageInfo lib w rawURL (Some l) budgets = Ret (r, t) ->
  held Global t = 0 /\ held Base t = 0 /\ held Extra t = 0 /\
  (requested t = [] /\ snd r <> None \/
   exists tier mid,
     (tier = Base \/ tier = Extra) /\
     (tier = Extra -> w_seen w = true /\ extra l <> None) /\
     t = ([Send Global; LoadRangeSupported (w_seen w); Send tier] ++ mid
            ++ [Recv Global; Recv tier])%list /\
     Forall (fetchAction rawURL) mid).
Proof.
  intros H. apply fetchImageInfo_shape in H
    as [[-> Herr]|[[-> Herr]|(tier & mid & Htier & Hextra & Hretry & ->)]].
  - repeat split; try reflexivity. now left.
  - repeat split; try reflexivity. now left.
  - destruct r as [i err].
    apply fetchImageInfoWithRetry_shape in Hretry as (Hmid & _ & _).
    rewrite !held_app, !(held_fetchAction rawURL _ mid Hmid).
    split; [destruct Htier as [-> | ->]; cbn [held gate_eqb]; lia|].
    split; [destruct Htier as [-> | ->]; cbn [held gate_eqb]; lia|].
    split; [destruct Htier as [-> | ->]; cbn [held gate_eqb]; lia|].
    right. exists tier, mid.
    split; [exact Htier|]. split; [exact Hextra|].
    split; [reflexivity|exact Hmid].
Qed.

(** X25. The requests of a task: at most two passes over the budgets of at
    least 80 bytes, each pass an initial segment in order, the second one
    only after a sleep that ran to its end.  A task that returns without
    an error has made a request and returns a resolved result. *)
Theorem fetchImageInfo_requests lib w rawURL l budgets i err t :
  fetchImageInfo lib w rawURL (Some l) budgets = Ret ((i, err), t) ->
  (exists r1 r2,
     requested t = (r1 ++ r2)%list /\
     r1 `prefix_of` filter (fun s => 80 <= s) budgets /\
     r2 `prefix_of` filter (fun s => 80 <= s) budgets /\
     (r2 <> [] -> exists d, In (Sleep d false) t)) /\
  (length (requested t)
   <= 2 * length (filter (fun s => (80 <= s)%Z) budgets))%nat /\
  (err = None -> resolved i = true /\ requested t <> []).
Proof.
  intros H.
  assert ((exists r1 r2,
             requested t = (r1 ++ r2)%list /\
             r1 `prefix_of` filter (fun s => 80 <= s) budgets /\
             r2 `prefix_of` filter (fun s => 80 <= s) budgets /\
             (r2 <> [] -> exists d, In (Sleep d false) t)) /\
          (err = None -> resolved i = true /\ requested t <> [])) as [Hr He].
  { apply fetchImageInfo_shape in H
      as [[-> Herr]|[[-> Herr]|(tier & mid & _ & _ & Hretry & ->)]].
    - split; [|intros ->; now elim Herr].
      exists [], []. repeat split; try apply prefix_nil; congruence.
    - split; [|intros ->; now elim Herr].
      exists [], []. repeat split; try apply prefix_nil; congruence.
    - apply fetchImageInfoWithRetry_shape in Hretry
        as (_ & Hres & r1 & r2 & Hreq & Hp1 & Hp2 & Hsleep).
      assert (requested
                ([Send Global; LoadRangeSupported (w_seen w); Send tier]
                   ++ mid ++ [Recv Global; Recv tier]) = requested mid)
        as ->.
      { rewrite !requested_app. cbn. now rewrite app_nil_r. }
      split; [|exact Hres].
      exists r1, r2. repeat split; try assumption.
      intros Hne. destruct (Hsleep Hne) as [d Hd]. exists d.
      apply in_or_app. right. apply in_or_app. now left. }
  split; [exact Hr|]. split; [|exact He].
  destruct Hr as (r1 & r2 & -> & Hp1 & Hp2 & _).
  apply prefix_length in Hp1, Hp2. rewrite length_app. lia.
Qed.

(** * What the batch returns *)

(** X27. Every slot of the result carries either an error and the zero [Info]
    or no error and a resolved [Info]: a type other than Unknown and two
    dimensions other than 0. *)
Theorem GetHTTPImageDataWithOptions_settled lib W order urls options :
  (forall l, Permutation (order l) l) -> sniffable W ->
  exists results log,
    GetHTTPImageDataWithOptions lib W order urls options
      = Ret (results, log) /\
    Forall settled results.
Proof.
  intros Horder HW.
  destruct (batch_results lib urls options W order Horder HW)
    as (results & log & Hrun & Hlen & Hslots).
  exists results, log. split; [assumption|].
  apply Forall_lookup. intros j r Hr.
  destruct (lookup_lt_is_Some_2 urls j) as [u Hu];
    [rewrite <- Hlen; eauto using lookup_lt_Some|].
  specialize (Hslots j u Hu). unfold settled.
  destruct (parseError lib u) as [e|] eqn:Eparse.
  - destruct Hslots as [Hslot _]. rewrite Hslot in Hr. injection Hr as <-.
    unfold parsedSlot. rewrite Eparse. reflexivity.
  - rewrite Hslots in Hr. injection Hr as <-.
    destruct (probed_returned lib options W j u HW)
      as (inf & err & t & Hf & ->).
    destruct err as [e|]; [reflexivity|]. cbn [Error info httpImageInfo].
    unfold workerOf in Hf. cbn [worker_limiter] in Hf.
    exact (fetchImageInfo_resolved _ _ _ _ _ _ _ Hf).
Qed.

(** X28. The result of the batch does not depend on the order in which the
    goroutines finish. *)
Theorem GetHTTPImageDataWithOptions_schedule lib W order order' urls options :
  (forall l, Permutation (order l) l) ->
  (forall l, Permutation (order' l) l) -> sniffable W ->
  exists results log log',
    GetHTTPImageDataWithOptions lib W order urls options
      = Ret (results, log) /\
    GetHTTPImageDataWithOptions lib W order' urls options
      = Ret (results, log').
Proof.
  intros Horder Horder' HW.
  destruct (batch_results lib urls options W order Horder HW)
    as (results & log & Hrun & Hlen & Hslots).
  destruct (batch_results lib urls options W order' Horder' HW)
    as (results' & log' & Hrun' & Hlen' & Hslots').
  exists results, log, log'. split; [assumption|].
  rewrite Hrun'. f_equal. f_equal. apply list_eq. intros j.
  destruct (urls !! j) as [u|] eqn:Hu.
  - specialize (Hslots j u Hu). specialize (Hslots' j u Hu).
    destruct (parseError lib u).
    + destruct Hslots as [-> _]. now destruct Hslots' as [-> _].
    + now rewrite Hslots, Hslots'.
  - apply lookup_ge_None in Hu.
    rewrite !lookup_ge_None_2 by lia. reflexivity.
Qed.

(** * Retry-After and the limiter of an origin *)

(** X23. [parseRetryAfter] reports no wait with the duration 0.  A number of
    seconds from 1 up to 9223372036, the largest whose nanoseconds fit in
    an int64, is reported as that many seconds; a date is reported as the
    time until it, when that is positive; a number of seconds that is not
    positive is never read as a date. *)
Theorem parseRetryAfter_spec lib (value : string) (now : Z) :
  (forall d, parseRetryAfter lib value now = (d, false) -> d = 0) /\
  (forall s, strings_TrimSpace lib value <> "" ->
     strconv_Atoi lib (strings_TrimSpace lib value) = Some s ->
     (0 < s <= 9223372036 ->
      parseRetryAfter lib value now = (s * 1000000000, true)) /\
     (s <= 0 -> parseRetryAfter lib value now = (0, false))) /\
  (forall at_, strings_TrimSpace lib value <> "" ->
     strconv_Atoi lib (strings_TrimSpace lib value) = None ->
     http_ParseTime lib (strings_TrimSpace lib value) = Some at_ ->
     parseRetryAfter lib value now
     = if time_Until lib at_ now <=? 0 then (0, false)
       else (time_Until lib at_ now, true)).
Proof.
  unfold parseRetryAfter. split; [|split].
  - intros d.
    destruct (String.eqb _ ""); [now intros [= <-]|].
    destruct (strconv_Atoi _ _) as [s|].
    + destruct (s <=? 0); [now intros [= <-]|discriminate].
    + destruct (http_ParseTime _ _) as [at_|]; [|now intros [= <-]].
      destruct (_ <=? 0); [now intros [= <-]|discriminate].
  - intros s Hne ->. apply String.eqb_neq in Hne. rewrite Hne.
    split; intros Hs.
    + destruct (Z.leb_spec s 0); [lia|]. f_equal.
      unfold int64, Second.
      change (2 ^ 63) with 9223372036854775808.
      change (2 ^ 64) with 18446744073709551616.
      rewrite Z.mod_small by lia. lia.
    + destruct (Z.leb_spec s 0); [reflexivity|lia].
  - intros at_ Hne -> ->. apply String.eqb_neq in Hne. rewrite Hne.
    reflexivity.
Qed.

(** X22. The limiter of an origin, for any two limits, also outside the range
    the options are normalized to: the base tier has the non-reusable
    limit, raised to 1; the two tiers together have the largest of 1 and the
    two limits; an extra tier is made only with a positive capacity; both
    tiers are empty and the flag is unset. *)
Theorem newOriginLimiter_capacity (nonReusableLimit reusableLimit : Z) :
  let l := newOriginLimiter nonReusableLimit reusableLimit in
  let extraCap := match extra l with Some c => chanCap c | None => 0 end in
  chanCap (base l) = Z.max 1 nonReusableLimit /\
  chanCap (base l) + extraCap
  = Z.max (Z.max 1 nonReusableLimit) reusableLimit /\
  (extra l = None <-> reusableLimit <= Z.max 1 nonReusableLimit) /\
  (forall c, extra l = Some c -> 0 < chanCap c /\ chanLen c = 0) /\
  chanLen (base l) = 0 /\ rangeSupported l = false.
Proof.
  unfold newOriginLimiter, make_chan.
  cbn [base extra rangeSupported chanCap chanLen].
  destruct (Z.ltb_spec nonReusableLimit 1);
    [destruct (Z.ltb_spec reusableLimit 1)
    |destruct (Z.ltb_spec reusableLimit nonReusableLimit)];
    match goal with
    | |- context [0 <? ?x] => destruct (Z.ltb_spec 0 x)
    end;
    cbn [chanCap];
    repeat match goal with
      | |- _ /\ _ => split
      | |- _ <-> _ => split
      end;
    intros;
    repeat match goal with
      | H : Some _ = Some _ |- _ => injection H as <-
      | H : None = Some _ |- _ => discriminate H
      | H : Some _ = None |- _ => discriminate H
      end;
    cbn [chanCap chanLen]; first [lia | reflexivity].
Qed.

(** * Instances *)

(** ** Instances of the sniffer's properties *)

Lemma GetInfo_dimensions_witness :
  0 <= Width (mkInfo GIF 60 40) /\ 0 <= Height (mkInfo GIF 60 40) /\
  (0 < Width (mkInfo GIF 60 40) /\ 0 < Height (mkInfo GIF 60 40) ->
   Type_ (mkInfo GIF 60 40) <> Unknown) /\
  (Type_ (mkInfo GIF 60 40) <> Unknown -> Type_ (mkInfo GIF 60 40) <> JPEG ->
   0 < Width (mkInfo GIF 60 40) /\ 0 < Height (mkInfo GIF 60 40)).
Proof.
  apply (GetInfo_dimensions (bytes (padded 80 gifHeader))).
  vm_compute. reflexivity.
Defined.

Lemma GetInfo_type_witness :
  (GIF = Unknown -> mkInfo GIF 60 40 = Info0) /\
  (Type_ (mkInfo GIF 60 40) = Unknown \/ Type_ (mkInfo GIF 60 40) = GIF \/
   (GIF = PPM /\ In (Type_ (mkInfo GIF 60 40)) [PBM; PGM; BPM; XV])).
Proof.
  apply (GetInfo_type (bytes (padded 80 gifHeader))); vm_compute; reflexivity.
Defined.

Lemma Uint16_decodes_witness :
  Uint16 (byteOrder := littleEndian) (Slice [x39; x05; xff] []) = Ret 1337 /\
  Uint16 (byteOrder := bigEndian) (Slice [x05; x39; xff] []) = Ret 1337 /\
  forall (o : byteOrder) b,
    o = littleEndian \/ o = bigEndian -> len b < 2 -> Uint16 b = Panic.
Proof. apply (Uint16_decodes 1337 [xff] []). lia. Defined.

Lemma Uint32_decodes_witness :
  Uint32 (byteOrder := littleEndian) (Slice [x00; x5e; xd0; xb2] [])
    = Ret 3000000000 /\
  Uint32 (byteOrder := bigEndian) (Slice [xb2; xd0; x5e; x00] [])
    = Ret 3000000000 /\
  forall (o : byteOrder) b,
    o = littleEndian \/ o = bigEndian -> len b < 4 -> Uint32 b = Panic.
Proof. apply (Uint32_decodes 3000000000 [] []). lia. Defined.

Lemma readUint64_decodes_witness :
  readUint64 (Slice [x00; x00; x00; x01; x00; x00; x00; x02; xff] [])
    = Ret 4294967298 /\
  forall b, len b < 8 -> readUint64 b = Panic.
Proof. apply (readUint64_decodes 4294967298 [xff] []). lia. Defined.

Lemma skipSpace_spec_witness :
  skipSpace (Slice ["P"; "6"; " "; x0a; "4"]%byte []) 2 = Ret 4 /\
  forall i, skipSpace (Slice [] []) i = Panic.
Proof.
  apply (skipSpace_spec ["P"; "6"]%byte [" "; x0a]%byte ["4"]%byte []).
  - repeat constructor.
  - reflexivity.
  - discriminate.
Defined.

Lemma parseUint32_spec_witness :
  parseUint32 (Slice ["P"; "6"; " "; "6"; "4"; "0"; " "]%byte []) 3
    = Ret (640, 6).
Proof.
  apply (parseUint32_spec ["P"; "6"; " "]%byte [" "]%byte [] [6; 4; 0]).
  - repeat constructor; lia.
  - reflexivity.
  - discriminate.
Defined.

Lemma readLine_spec_witness :
  readLine (Slice ["a"; "b"; x0a; "c"]%byte ["d"]%byte) 0
    = Ret (Slice ["a"; "b"; x0a]%byte ["c"; "d"]%byte, 3) /\
  (["a"; "b"]%byte <> [] ->
   readLine (Slice ["a"; "b"]%byte []) 0 = Panic /\
   readLine (Slice ["a"; "b"]%byte ["c"; "d"]%byte) 0
     = Ret (Slice ["a"; "b"; "c"]%byte ["d"]%byte, 3)).
Proof.
  apply (readLine_spec [] ["a"; "b"]%byte ["c"]%byte ["d"]%byte "c"%byte).
  repeat constructor.
Defined.

Lemma GetInfo_jpeg_witness :
  GetInfo (Slice ([xff; xd8] ++ jpegSegment (fst app0) (snd app0)
                    ++ [xff; xc2; x00; x11; x08; x01; xe0; x02; x80]
                    ++ padded 80 []) [])
  = Ret (mkInfo JPEG 640 480).
Proof.
  apply (GetInfo_jpeg [app0] xc2 x00 x11 x08 640 480 (padded 80 []) []).
  - repeat constructor.
  - reflexivity.
  - lia.
  - lia.
  - vm_compute. lia.
Defined.

Lemma GetInfo_png_witness :
  GetInfo (Slice (pngSignature ++ [x00; x00; x00; x0d] ++ IHDR
                    ++ bigBytes 4 640 ++ bigBytes 4 480 ++ padded 56 []) [])
  = Ret (mkInfo PNG 640 480).
Proof.
  apply (GetInfo_png [x00; x00; x00; x0d] (padded 56 []) [] 640 480).
  - reflexivity.
  - vm_compute. lia.
  - lia.
  - lia.
Defined.

Lemma GetInfo_gif_witness :
  GetInfo (Slice (["G"; "I"; "F"; "8"; "7"; "a"]%byte ++ littleBytes 2 60
                    ++ littleBytes 2 0 ++ padded 70 []) [])
  = Ret (mkInfo Unknown 60 0).
Proof.
  apply (GetInfo_gif "7"%byte (padded 70 []) [] 60 0).
  - left. reflexivity.
  - vm_compute. lia.
  - lia.
  - lia.
Defined.

Lemma GetInfo_bmp_witness :
  GetInfo (Slice (["B"; "M"]%byte ++ padded 16 [] ++ littleBytes 4 640
                    ++ littleBytes 4 480 ++ padded 54 []) [])
  = Ret (mkInfo BMP 640 480).
Proof.
  apply (GetInfo_bmp (padded 16 []) (padded 54 []) [] 640 480).
  - reflexivity.
  - vm_compute. lia.
  - lia.
  - lia.
Defined.

Lemma GetInfo_webp_extended_witness :
  GetInfo (Slice (["R"; "I"; "F"; "F"]%byte ++ padded 4 []
                    ++ ["W"; "E"; "B"; "P"; "V"; "P"; "8"; "X"]%byte
                    ++ padded 8 [] ++ littleBytes 3 (16777216 - 1)
                    ++ littleBytes 3 (1 - 1) ++ padded 50 []) [])
  = Ret (mkInfo WEBP 16777216 1).
Proof.
  apply (GetInfo_webp_extended (padded 4 []) (padded 8 []) (padded 50 []) []
           16777216 1).
  - reflexivity.
  - reflexivity.
  - vm_compute. lia.
  - vm_compute. split; discriminate.
  - vm_compute. split; discriminate.
Defined.

Lemma GetInfo_ppm_witness :
  GetInfo (Slice ("P"%byte :: "5"%byte :: [x0a] ++ digitBytes [6; 4; 0]
                    ++ [" "%byte] ++ digitBytes [4; 8; 0] ++ padded 80 [10])
             [])
  = Ret (mkInfo PGM 640 480).
Proof.
  apply (GetInfo_ppm "5"%byte [x0a] [" "%byte] (padded 80 [10]) []
           [6; 4; 0] [4; 8; 0]).
  - vm_compute. split; discriminate.
  - repeat constructor.
  - repeat constructor.
  - discriminate.
  - repeat constructor; lia.
  - discriminate.
  - repeat constructor; lia.
  - discriminate.
  - reflexivity.
  - vm_compute. lia.
Defined.

(** ** Instances of the reader's properties *)

Lemma GetInfoReader_sound_witness :
  exists n,
    GetInfo (buffered doubling gifReader n) = Ret (mkInfo GIF 60 40) /\
    vis (buffered doubling gifReader n) = delivered gifReader n.
Proof.
  apply (GetInfoReader_sound doubling 2 gifReader (mkInfo GIF 60 40) None).
  vm_compute. reflexivity.
Defined.

Lemma GetInfoReader_short_witness :
  GetInfoReader doubling 3 brokenReader
  = Ret (Info0, Some (ContextError "context canceled")).
Proof.
  apply (GetInfoReader_short doubling brokenReader 2
           (io_Err (ContextError "context canceled")) 3).
  - intros [|[|j]] Hj; [reflexivity|reflexivity|lia].
  - reflexivity.
  - vm_compute. lia.
  - lia.
Defined.

Lemma GetInfoReader_single_witness :
  GetInfoReader doubling 2 jpegReader = Ret (mkInfo JPEG 0 0, None).
Proof.
  apply (GetInfoReader_single doubling jpegReader (padded 100 jpegZeroFrame)
           (mkInfo JPEG 0 0) 2).
  - reflexivity.
  - vm_compute. lia.
  - left. reflexivity.
  - vm_compute. reflexivity.
  - lia.
Defined.

(** ** Instances of the engine's properties *)

Lemma fetchImageInfo_slots_witness :
  let t := [Send Global; LoadRangeSupported false; Send Base;
            Request "u" 1024; StoreRangeSupported; Recv Global; Recv Base] in
  held Global t = 0 /\ held Base t = 0 /\ held Extra t = 0 /\
  (requested t = [] /\ snd (mkInfo GIF 60 40, @None error) <> None \/
   exists tier mid,
     (tier = Base \/ tier = Extra) /\
     (tier = Extra ->
      w_seen (worldOf gifPartial) = true /\
      extra (newOriginLimiter 5 20) <> None) /\
     t = ([Send Global; LoadRangeSupported (w_seen (worldOf gifPartial));
           Send tier] ++ mid ++ [Recv Global; Recv tier])%list /\
     Forall (fetchAction "u") mid).
Proof.
  apply (fetchImageInfo_slots sampleLib (worldOf gifPartial) "u"
           (newOriginLimiter 5 20) sizes).
  vm_compute. reflexivity.
Defined.

Lemma fetchImageInfo_requests_witness :
  let t := [Send Global; LoadRangeSupported false; Send Base;
            Request "u" 1024; Sleep 1000000000 false; Request "u" 1024;
            Recv Global; Recv Base] in
  (exists r1 r2,
     requested t = (r1 ++ r2)%list /\
     r1 `prefix_of` filter (fun s => 80 <= s) sizes /\
     r2 `prefix_of` filter (fun s => 80 <= s) sizes /\
     (r2 <> [] -> exists d, In (Sleep d false) t)) /\
  (length (requested t)
   <= 2 * length (filter (fun s => (80 <= s)%Z) sizes))%nat /\
  (Some (RetryAfterError "u" 429 "429 Too Many Requests" 1000000000) = None ->
   resolved Info0 = true /\ requested t <> []).
Proof.
  apply (fetchImageInfo_requests sampleLib (worldOf tooMany) "u"
           (newOriginLimiter 5 20) sizes).
  vm_compute. reflexivity.
Defined.

Lemma startGoroutines_slots_witness :
  exists rs spawned,
    startGoroutines sampleLib sampleURLs
      (normalizeHTTPImageOptions (mkOptions 0 0 0)) = Ret (rs, spawned) /\
    NoDup (slotsOf spawned) /\
    (forall j, j ∈ slotsOf spawned <->
       exists u, sampleURLs !! j = Some u /\ parseError sampleLib u = None) /\
    (forall g, In g spawned ->
       sampleURLs !! index_ (fst g) = Some (rawURL_ (fst g))).
Proof.
  destruct (startGoroutines_started sampleLib sampleURLs (mkOptions 0 0 0))
    as (rs & spawned & Hstart & _).
  exists rs, spawned. split; [exact Hstart|].
  exact (startGoroutines_slots sampleLib sampleURLs (mkOptions 0 0 0)
           rs spawned Hstart).
Defined.

Lemma GetHTTPImageDataWithOptions_settled_witness :
  exists results log,
    GetHTTPImageDataWithOptions sampleLib (fun _ => worldOf gifPartial)
      (@rev _) sampleURLs (mkOptions 0 0 0) = Ret (results, log) /\
    Forall settled results.
Proof.
  apply (GetHTTPImageDataWithOptions_settled sampleLib
           (fun _ => worldOf gifPartial) (@rev _) sampleURLs
           (mkOptions 0 0 0)).
  - intros l. apply rev_schedule.
  - apply sniffable_gifPartial.
Defined.

Lemma GetHTTPImageDataWithOptions_schedule_witness :
  exists results log log',
    GetHTTPImageDataWithOptions sampleLib (fun _ => worldOf gifPartial)
      (@rev _) sampleURLs (mkOptions 0 0 0) = Ret (results, log) /\
    GetHTTPImageDataWithOptions sampleLib (fun _ => worldOf gifPartial)
      (fun l => l) sampleURLs (mkOptions 0 0 0) = Ret (results, log').
Proof.
  apply (GetHTTPImageDataWithOptions_schedule sampleLib
           (fun _ => worldOf gifPartial) (@rev _) (fun l => l) sampleURLs
           (mkOptions 0 0 0)).
  - intros l. apply rev_schedule.
  - intros l. reflexivity.
  - apply sniffable_gifPartial.
Defined.
